(** * Adaptive rigorous integration: [acb_calc/integrate.c]

    A shallow embedding of [quad_simple] and [acb_calc_integrate] and the
    properties of the adaptive driver: budgets, termination, acceptance
    test, tolerance adaptation, ordering of the children of a bisection,
    bounds of the stack arrays and soundness of the returned enclosure.

    The ball arithmetic ([acb_*], [arb_*], [mag_*]) and the Gauss-Legendre
    rule [acb_calc_integrate_gl_auto_deg] live in other files of the
    library; they enter as operations of two interfaces, and the laws a
    property needs from them are stated as separate classes.

    [slong] values are modelled on [Z]: signed overflow is undefined in C,
    so the model describes the executions in which no [slong] operation
    overflows, and the properties of the two products of the entry code
    carry that range as a hypothesis.  The one expression computed in
    [double] is modelled with the IEEE 754 binary64 operations of the
    standard library. *)

From Stdlib Require Import ZArith Lia Bool String Reals Lra.
From stdpp Require Import base option list relations.
From Stdlib Require Import SpecFloat.

Local Open Scope Z_scope.

(** ** Data model *)

Section Balls.
Variables arf mag : Type.

(** Modelled from the spec: the struct declarations of [arb.h] and
    [acb.h] are not part of this file.  A real ball is a midpoint and a
    radius; a complex ball is a pair of real balls. *)
Record arb := { arb_midref : arf; arb_radref : mag }.
Record acb := { acb_realref : arb; acb_imagref : arb }.
End Balls.

Arguments arb_midref {arf mag} _.
Arguments arb_radref {arf mag} _.
Arguments acb_realref {arf mag} _.
Arguments acb_imagref {arf mag} _.
Arguments Build_arb {arf mag} _ _.
Arguments Build_acb {arf mag} _ _.

(** The operations of the ball and magnitude substrate that
    [integrate.c] calls.  Output parameters become results; [prec] is the
    last argument as in C. *)
Class BallOps (arf mag : Type) := {
  acb_add : acb arf mag -> acb arf mag -> Z -> acb arf mag;
  acb_sub : acb arf mag -> acb arf mag -> Z -> acb arf mag;
  acb_mul : acb arf mag -> acb arf mag -> Z -> acb arf mag;
  acb_mul_2exp_si : acb arf mag -> Z -> acb arf mag;
  acb_zero : acb arf mag;
  arb_zero : arb arf mag;
  arb_get_mag : arb arf mag -> mag;
  arb_add_error_mag : arb arf mag -> mag -> arb arf mag;
  acb_get_mag_lower : acb arf mag -> mag;
  acb_contains_zero : acb arf mag -> bool;
  acb_is_finite : acb arf mag -> bool;
  acb_is_real : acb arf mag -> bool;
  mag_hypot : mag -> mag -> mag;
  mag_cmp : mag -> mag -> Z;
  mag_max : mag -> mag -> mag;
  mag_mul_2exp_si : mag -> Z -> mag
}.

(** An integrand [acb_calc_func_t]: input ball, derivative order and
    precision; the opaque [param] is part of the closure. *)
Definition acb_calc_func_t (arf mag : Type) : Type :=
  acb arf mag -> Z -> Z -> acb arf mag.

(** What [acb_calc.h] declares and [integrate.c] uses: the verbose bit
    and the high-order rule, which returns the number of evaluations it
    used (0 when it declines) together with the value written to [res]. *)
Class AcbCalc (arf mag : Type) := {
  ACB_CALC_VERBOSE : Z;
  acb_calc_integrate_gl_auto_deg :
    acb_calc_func_t arf mag -> acb arf mag -> acb arf mag -> mag ->
    Z -> Z -> Z -> Z * acb arf mag
}.

(** Observable events of a call, oldest first. *)
Inductive event (arf mag : Type) : Type :=
  | Ev_f (x : acb arf mag) (order prec : Z)
  | Ev_gl (a b : acb arf mag) (tol : mag) (deg_limit flags prec : Z)
  | Ev_printf (fmt : string) (args : list Z).

Arguments Ev_f {arf mag} _ _ _.
Arguments Ev_gl {arf mag} _ _ _ _ _ _.
Arguments Ev_printf {arf mag} _ _.

Definition is_Ev_f {arf mag} (e : event arf mag) : bool :=
  match e with Ev_f _ _ _ => true | _ => false end.

Definition is_Ev_gl {arf mag} (e : event arf mag) : bool :=
  match e with Ev_gl _ _ _ _ _ _ => true | _ => false end.

Definition FLINT_MAX (x y : Z) : Z := if x >? y then x else y.

(** Result of running the loop with a bound on the number of iterations. *)
Inductive outcome (A : Type) : Type :=
  | Done (x : A)
  | Fault
  | OutOfFuel.

Arguments Done {A} _.
Arguments Fault {A}.
Arguments OutOfFuel {A}.

(** ** Machine numbers

    [slong] is a signed word of 64 bits. *)
Definition WORD_MAX : Z := 2 ^ 63 - 1.
Definition WORD_MIN : Z := - 2 ^ 63.

(** The value is one an [slong] can hold. *)
Definition is_slong (z : Z) : Prop := WORD_MIN <= z <= WORD_MAX.

(** [double] is IEEE 754 binary64: 53 bits of precision, exponent of the
    infinities 1024, rounding to nearest with ties to even, each
    operation rounded to [double].  The conversion of an [slong] rounds;
    the conversion back truncates towards zero. *)
Definition double_of_slong (n : Z) : spec_float :=
  binary_normalize 53 1024 n 0 false.

(** The constant [0.5]. *)
Definition double_half : spec_float :=
  S754_finite false 4503599627370496 (-53).

Definition slong_of_double (x : spec_float) : Z :=
  match x with
  | S754_finite s m e => cond_Zopp s (Z.shiftl (Zpos m) e)
  | _ => 0
  end.

(** [0.5 * goal + 10] as the code computes it: [goal] and [10] are
    converted to [double], the product and the sum are taken in [double],
    and the assignment to [deg_limit] converts the sum to [slong]. *)
Definition default_deg_limit (goal : Z) : Z :=
  slong_of_double
    (SFadd 53 1024 (SFmul 53 1024 double_half (double_of_slong goal))
       (double_of_slong 10)).

Arguments default_deg_limit : simpl never.

Section Integrate.
Context {arf mag : Type} `{!BallOps arf mag} `{!AcbCalc arf mag}.

Local Abbreviation acb := (acb arf mag).
Local Abbreviation arb := (arb arf mag).
Local Abbreviation event := (event arf mag).

Definition set_realref (z : acb) (x : arb) : acb :=
  {| acb_realref := x; acb_imagref := acb_imagref z |}.
Definition set_imagref (z : acb) (x : arb) : acb :=
  {| acb_realref := acb_realref z; acb_imagref := x |}.

(** The enclosing ball built by [quad_simple]. *)
Definition quad_delta (a b : acb) (prec : Z) : acb :=
  acb_mul_2exp_si (acb_sub b a prec) (-1).
Definition quad_mid (a b : acb) (prec : Z) : acb :=
  acb_mul_2exp_si (acb_add a b prec) (-1).
Definition quad_wide (a b : acb) (prec : Z) : acb :=
  let delta := quad_delta a b prec in
  let mid := quad_mid a b prec in
  let wide := mid in
  let tmpm := arb_get_mag (acb_realref delta) in
  let wide := set_realref wide (arb_add_error_mag (acb_realref wide) tmpm) in
  let tmpm := arb_get_mag (acb_imagref delta) in
  let wide := set_imagref wide (arb_add_error_mag (acb_imagref wide) tmpm) in
  wide.

(** [quad_simple]: the value written to [res] and the events emitted. *)
Definition quad_simple (f : acb_calc_func_t arf mag) (a b : acb) (prec : Z)
  : acb * list event :=
  let delta := acb_sub b a prec in
  let delta := acb_mul_2exp_si delta (-1) in
  let mid := acb_add a b prec in
  let mid := acb_mul_2exp_si mid (-1) in
  let wide := mid in
  let tmpm := arb_get_mag (acb_realref delta) in
  let wide := set_realref wide (arb_add_error_mag (acb_realref wide) tmpm) in
  let tmpm := arb_get_mag (acb_imagref delta) in
  let wide := set_imagref wide (arb_add_error_mag (acb_imagref wide) tmpm) in
  let res := f wide 0 prec in
  let res := acb_mul res delta prec in
  let res := acb_mul_2exp_si res 1 in
  (res, [Ev_f wide 0 prec]).

(** ** The state of the driver *)

Record state := {
  as_ : list acb;
  bs : list acb;
  vs : list acb;
  s : acb;
  new_tol : mag;
  depth : Z;
  depth_max : Z;
  eval : Z;
  stopping : bool;
  trace : list event
}.

(** Array accesses: [None] is an access outside the allocation. *)
Definition rd (v : list acb) (i : Z) : option acb :=
  if 0 <=? i then v !! Z.to_nat i else None.
Definition wr (v : list acb) (i : Z) (x : acb) : option (list acb) :=
  if (0 <=? i) && (i <? Z.of_nat (length v))
  then Some (<[Z.to_nat i := x]> v) else None.

Definition _acb_vec_init (n : Z) : list acb := replicate (Z.to_nat n) acb_zero.

Definition verbose (flags : Z) : bool := negb (Z.land flags ACB_CALC_VERBOSE =? 0).

Definition mag_radius (t : acb) : mag :=
  mag_hypot (arb_radref (acb_realref t)) (arb_radref (acb_imagref t)).

Section Loop.
Variable f : acb_calc_func_t arf mag.
Variables goal deg_limit eval_limit depth_limit flags prec : Z.

(** First branch of the body: the evaluation budget is exhausted. *)
Definition stop_eval (st : state) : state :=
  {| as_ := as_ st; bs := bs st; vs := vs st; s := s st;
     new_tol := new_tol st; depth := depth st; depth_max := depth_max st;
     eval := eval st; stopping := true;
     trace := trace st ++
       (if verbose flags
        then [Ev_printf "stopping at eval_limit %wd\n" [eval_limit]]
        else []) |}.

(** The subinterval on top is done: add its value, pop. *)
Definition accept (st : state) (t : acb) : state :=
  {| as_ := as_ st; bs := bs st; vs := vs st; s := acb_add (s st) t prec;
     new_tol := new_tol st; depth := depth st - 1;
     depth_max := depth_max st; eval := eval st;
     stopping := stopping st; trace := trace st |}.

(** The subinterval on top is done by the Gauss-Legendre rule. *)
Definition accept_gl (st : state) (a b t0 : acb) : state :=
  let real_error := acb_is_finite t0 && acb_is_real t0 in
  let '(feval, t) :=
    acb_calc_integrate_gl_auto_deg f a b (new_tol st) deg_limit flags prec in
  let t := if real_error then set_imagref t arb_zero else t in
  let tmpm := acb_get_mag_lower t in
  let tmpm := mag_mul_2exp_si tmpm (- goal) in
  {| as_ := as_ st; bs := bs st; vs := vs st; s := acb_add (s st) t prec;
     new_tol := mag_max (new_tol st) tmpm; depth := depth st - 1;
     depth_max := depth_max st; eval := eval st + feval;
     stopping := stopping st;
     trace := trace st ++
       [Ev_gl a b (new_tol st) deg_limit flags prec] |}.

(** The depth budget is exhausted; [eval'] and [tr'] account for a
    declined Gauss-Legendre attempt in the same iteration. *)
Definition stop_depth (st : state) (eval' : Z) (tr' : list event) : state :=
  {| as_ := as_ st; bs := bs st; vs := vs st; s := s st;
     new_tol := new_tol st; depth := depth st; depth_max := depth_max st;
     eval := eval'; stopping := true;
     trace := tr' ++
       (if verbose flags
        then [Ev_printf "stopping at depth_limit %wd\n" [depth_limit]]
        else []) |}.

(** Bisection of the interval on top. *)
Definition bisect (st : state) (eval' : Z) (tr' : list event) : option state :=
  let d := depth st in
  x ← rd (bs st) (d - 1);
  bs1 ← wr (bs st) d x;
  a0 ← rd (as_ st) (d - 1);
  b0 ← rd bs1 (d - 1);
  as1 ← wr (as_ st) d (acb_add a0 b0 prec);
  m ← rd as1 d;
  as2 ← wr as1 d (acb_mul_2exp_si m (-1));
  m ← rd as2 d;
  bs2 ← wr bs1 (d - 1) m;
  al ← rd as2 (d - 1);
  bl ← rd bs2 (d - 1);
  let '(vl, el) := quad_simple f al bl prec in
  vs1 ← wr (vs st) (d - 1) vl;
  ar ← rd as2 d;
  br ← rd bs2 d;
  let '(vr, er) := quad_simple f ar br prec in
  vs2 ← wr vs1 d vr;
  let eval'' := eval' + 2 in
  vl ← rd vs2 (d - 1);
  let tmpm := mag_radius vl in
  vr ← rd vs2 d;
  let tmpn := mag_radius vr in
  '(as3, bs3, vs3) ←
    (if mag_cmp tmpm tmpn >? 0 then
       as3 ← wr as2 d al; as3 ← wr as3 (d - 1) ar;
       bs3 ← wr bs2 d bl; bs3 ← wr bs3 (d - 1) br;
       vs3 ← wr vs2 d vl; vs3 ← wr vs3 (d - 1) vr;
       Some (as3, bs3, vs3)
     else Some (as2, bs2, vs2));
  top ← rd vs3 d;
  let tmpm := acb_get_mag_lower top in
  let tmpm := mag_mul_2exp_si tmpm (- goal) in
  Some {| as_ := as3; bs := bs3; vs := vs3; s := s st;
          new_tol := mag_max (new_tol st) tmpm; depth := d + 1;
          depth_max := FLINT_MAX (d + 1) (depth_max st);
          eval := eval''; stopping := stopping st;
          trace := tr' ++ el ++ er |}.

(** One iteration of the body of [while (depth >= 1)]. *)
Definition step (st : state) : option state :=
  if negb (stopping st) && (eval st >=? eval_limit - 1) then
    Some (stop_eval st)
  else
    t ← rd (vs st) (depth st - 1);
    let tmpm := mag_radius t in
    a ← rd (as_ st) (depth st - 1);
    b ← rd (bs st) (depth st - 1);
    let u := acb_sub a b prec in
    if (mag_cmp tmpm (new_tol st) <? 0) || acb_contains_zero u || stopping st
    then Some (accept st t)
    else
      let feval :=
        if acb_is_finite t
        then fst (acb_calc_integrate_gl_auto_deg
                    f a b (new_tol st) deg_limit flags prec)
        else 0 in
      if acb_is_finite t && (feval >? 0) then Some (accept_gl st a b t)
      else
        let eval' := if acb_is_finite t then eval st + feval else eval st in
        let tr' :=
          if acb_is_finite t
          then trace st ++ [Ev_gl a b (new_tol st) deg_limit flags prec]
          else trace st in
        if depth st >=? depth_limit - 1 then Some (stop_depth st eval' tr')
        else bisect st eval' tr'.

Fixpoint loop (fuel : nat) (st : state) : outcome state :=
  if depth st >=? 1 then
    match fuel with
    | O => OutOfFuel
    | S fuel' =>
        match step st with
        | Some st' => loop fuel' st'
        | None => Fault
        end
    end
  else Done st.
End Loop.

(** ** Entry: resolution of the limits, initial state, result *)

(** The defaults [2 * prec] and [1000 * prec] are products of [slong]:
    the mathematical products as long as they are in range. *)
Definition resolve_depth_limit (depth_limit prec : Z) : Z :=
  let depth_limit := if depth_limit <=? 0 then 2 * prec else depth_limit in
  FLINT_MAX depth_limit 1.

Definition resolve_eval_limit (eval_limit prec : Z) : Z :=
  let eval_limit := if eval_limit <=? 0 then 1000 * prec else eval_limit in
  FLINT_MAX eval_limit 1.

Definition resolve_goal (goal : Z) : Z := FLINT_MAX goal 0.

(** [deg_limit = 0.5 * goal + 10] is computed in [double] and converted
    back to [slong]. *)
Definition resolve_deg_limit (deg_limit goal : Z) : Z :=
  if deg_limit <=? 0 then default_deg_limit goal else deg_limit.

(** The defaults of the two limits without the clamp to 1. *)
Definition unclamped_defaults (depth_limit eval_limit prec : Z) : Prop :=
  (depth_limit <= 0 -> resolve_depth_limit depth_limit prec = 2 * prec) /\
  (eval_limit <= 0 -> resolve_eval_limit eval_limit prec = 1000 * prec).

(** The state at the first test of [while (depth >= 1)]; [goal] and
    [depth_limit] are the resolved values. *)
Definition init_state (f : acb_calc_func_t arf mag) (a b : acb)
    (goal : Z) (tol : mag) (depth_limit prec : Z) : option state :=
  let as0 := _acb_vec_init depth_limit in
  let bs0 := _acb_vec_init depth_limit in
  let vs0 := _acb_vec_init depth_limit in
  as1 ← wr as0 0 a;
  bs1 ← wr bs0 0 b;
  a0 ← rd as1 0;
  b0 ← rd bs1 0;
  let '(v, ev) := quad_simple f a0 b0 prec in
  vs1 ← wr vs0 0 v;
  v0 ← rd vs1 0;
  let tmpm := acb_get_mag_lower v0 in
  let tmpm := mag_mul_2exp_si tmpm (- goal) in
  Some {| as_ := as1; bs := bs1; vs := vs1; s := acb_zero;
          new_tol := mag_max tol tmpm; depth := 1; depth_max := 1;
          eval := 1; stopping := false; trace := ev |}.

Definition final_trace (st : state) (depth_limit eval_limit flags : Z)
  : list event :=
  trace st ++
  (if verbose flags
   then [Ev_printf "depth %wd/%wd, eval %wd/%wd\n"
           [depth_max st; depth_limit; eval st; eval_limit]]
   else []).

(** [acb_calc_integrate] with a bound on the number of iterations of the
    loop: the value written to [res] and the events of the call. *)
Definition acb_calc_integrate_fuel (fuel : nat)
    (f : acb_calc_func_t arf mag) (a b : acb) (goal : Z) (tol : mag)
    (deg_limit eval_limit depth_limit flags prec : Z)
  : outcome (acb * list event) :=
  let depth_limit := resolve_depth_limit depth_limit prec in
  let eval_limit := resolve_eval_limit eval_limit prec in
  let goal := resolve_goal goal in
  let deg_limit := resolve_deg_limit deg_limit goal in
  match init_state f a b goal tol depth_limit prec with
  | None => Fault
  | Some st0 =>
      match loop f goal deg_limit eval_limit depth_limit flags prec fuel st0 with
      | Done st => Done (s st, final_trace st depth_limit eval_limit flags)
      | Fault => Fault
      | OutOfFuel => OutOfFuel
      end
  end.

(** A number of iterations that always suffices (see [loop_done]). *)
Definition iteration_bound (eval_limit : Z) : nat :=
  Z.to_nat (2 * eval_limit).

Definition acb_calc_integrate
    (f : acb_calc_func_t arf mag) (a b : acb) (goal : Z) (tol : mag)
    (deg_limit eval_limit depth_limit flags prec : Z)
  : outcome (acb * list event) :=
  acb_calc_integrate_fuel
    (iteration_bound (resolve_eval_limit eval_limit prec))
    f a b goal tol deg_limit eval_limit depth_limit flags prec.

(** The call with both endpoints equal to [a] "returns a zero-width/
    zero-value enclosure": the ball it writes to [res] is the exact
    zero. *)
Definition degenerate_returns_zero
    (f : acb_calc_func_t arf mag) (a : acb) (goal : Z) (tol : mag)
    (deg_limit eval_limit depth_limit flags prec : Z) : Prop :=
  exists tr,
    acb_calc_integrate f a a goal tol deg_limit eval_limit depth_limit
      flags prec = Done (acb_zero, tr).

(** ** Runs *)

Section Run.
Variable f : acb_calc_func_t arf mag.
Variables a b : acb.
Variable goal : Z.
Variable tol : mag.
Variables deg_limit eval_limit depth_limit flags prec : Z.

(** One iteration of the loop of the call with these arguments. *)
Definition run_step : state -> option state :=
  let goal' := resolve_goal goal in
  step f goal' (resolve_deg_limit deg_limit goal')
    (resolve_eval_limit eval_limit prec)
    (resolve_depth_limit depth_limit prec) flags prec.

Definition run_init : option state :=
  init_state f a b (resolve_goal goal) tol
    (resolve_depth_limit depth_limit prec) prec.

Definition run_loop : nat -> state -> outcome state :=
  let goal' := resolve_goal goal in
  loop f goal' (resolve_deg_limit deg_limit goal')
    (resolve_eval_limit eval_limit prec)
    (resolve_depth_limit depth_limit prec) flags prec.

(** The loop takes an iteration from [st] to [st']. *)
Definition iter (st st' : state) : Prop :=
  1 <= depth st /\ run_step st = Some st'.

(** The states at the loop test during the call. *)
Inductive reachable : state -> Prop :=
  | reachable_init st0 : run_init = Some st0 -> reachable st0
  | reachable_iter st st' : reachable st -> iter st st' -> reachable st'.

End Run.

(** The record on the stack at index [i]: endpoints and value. *)
Definition slot (st : state) (i : Z) : option (acb * acb * acb) :=
  a ← rd (as_ st) i; b ← rd (bs st) i; v ← rd (vs st) i; Some (a, b, v).

(** The midpoint ball of a bisection and the records of its children. *)
Definition bisect_mid (a b : acb) (prec : Z) : acb :=
  acb_mul_2exp_si (acb_add a b prec) (-1).
Definition left_child (f : acb_calc_func_t arf mag) (a b : acb) (prec : Z)
  : acb * acb * acb :=
  (a, bisect_mid a b prec, fst (quad_simple f a (bisect_mid a b prec) prec)).
Definition right_child (f : acb_calc_func_t arf mag) (a b : acb) (prec : Z)
  : acb * acb * acb :=
  (bisect_mid a b prec, b, fst (quad_simple f (bisect_mid a b prec) b prec)).

(** The combined radius of the value of a record. *)
Definition radius_of (r : acb * acb * acb) : mag := mag_radius (snd r).

(** The acceptance test of the loop on the record [(a, b, v)]. *)
Definition accept_test (st : state) (a b v : acb) (prec : Z) : bool :=
  (mag_cmp (mag_radius v) (new_tol st) <? 0)
  || acb_contains_zero (acb_sub a b prec) || stopping st.

(** The arrays have their allocated length and [depth] is in range. *)
Definition wf (depth_limit : Z) (st : state) : Prop :=
  1 <= depth_limit /\
  length (as_ st) = Z.to_nat depth_limit /\
  length (bs st) = Z.to_nat depth_limit /\
  length (vs st) = Z.to_nat depth_limit /\
  0 <= depth st <= Z.max 1 (depth_limit - 1).

(** *** The iterations by kind

    The five ways through the body of the loop, as a relation between the
    state before and after; [step_body] shows that [step] follows it. *)
Section Body.
Variable f : acb_calc_func_t arf mag.
Variables goal deg_limit eval_limit depth_limit flags prec : Z.

(** The test of the first branch: a budget-check re-entry. *)
Definition budget_hit (st : state) : bool :=
  negb (stopping st) && (eval st >=? eval_limit - 1).

(** The Gauss-Legendre attempt did not finish the record [(a, b, v)]:
    [v] is not finite and the rule was not called, or it was called and
    declined.  [eval'] and [tr'] are the counter and the events after it. *)
Definition declined (st : state) (a b v : acb) (eval' : Z)
    (tr' : list event) : Prop :=
  if acb_is_finite v then
    fst (acb_calc_integrate_gl_auto_deg f a b (new_tol st) deg_limit flags prec)
      <= 0 /\
    eval' = eval st +
      fst (acb_calc_integrate_gl_auto_deg f a b (new_tol st) deg_limit flags prec) /\
    tr' = trace st ++ [Ev_gl a b (new_tol st) deg_limit flags prec]
  else eval' = eval st /\ tr' = trace st.

(** The state after the bisection of the record [(a, b, _)] on top. *)
Definition bisected (st : state) (a b : acb) (eval' : Z) (tr' : list event)
    (st' : state) : Prop :=
  let l := left_child f a b prec in
  let r := right_child f a b prec in
  let swap := mag_cmp (radius_of l) (radius_of r) >? 0 in
  let top := if swap then l else r in
  let below := if swap then r else l in
  length (as_ st') = length (as_ st) /\
  length (bs st') = length (bs st) /\
  length (vs st') = length (vs st) /\
  (forall i, 0 <= i < depth st - 1 -> slot st' i = slot st i) /\
  slot st' (depth st - 1) = Some below /\
  slot st' (depth st) = Some top /\
  s st' = s st /\
  new_tol st' =
    mag_max (new_tol st)
      (mag_mul_2exp_si (acb_get_mag_lower (snd top)) (- goal)) /\
  depth st' = depth st + 1 /\
  depth_max st' = FLINT_MAX (depth st + 1) (depth_max st) /\
  eval st' = eval' + 2 /\
  stopping st' = stopping st /\
  trace st' =
    tr' ++ [Ev_f (quad_wide a (bisect_mid a b prec) prec) 0 prec;
            Ev_f (quad_wide (bisect_mid a b prec) b prec) 0 prec].

Inductive body (st : state) : state -> Prop :=
  | body_stop_eval :
      budget_hit st = true ->
      body st (stop_eval eval_limit flags st)
  | body_accept a b v :
      slot st (depth st - 1) = Some (a, b, v) ->
      budget_hit st = false ->
      accept_test st a b v prec = true ->
      body st (accept prec st v)
  | body_accept_gl a b v :
      slot st (depth st - 1) = Some (a, b, v) ->
      budget_hit st = false ->
      accept_test st a b v prec = false ->
      acb_is_finite v = true ->
      0 < fst (acb_calc_integrate_gl_auto_deg
                 f a b (new_tol st) deg_limit flags prec) ->
      body st (accept_gl f goal deg_limit flags prec st a b v)
  | body_stop_depth a b v eval' tr' :
      slot st (depth st - 1) = Some (a, b, v) ->
      budget_hit st = false ->
      accept_test st a b v prec = false ->
      declined st a b v eval' tr' ->
      depth_limit - 1 <= depth st ->
      body st (stop_depth depth_limit flags st eval' tr')
  | body_bisect a b v eval' tr' st' :
      slot st (depth st - 1) = Some (a, b, v) ->
      budget_hit st = false ->
      accept_test st a b v prec = false ->
      declined st a b v eval' tr' ->
      depth st < depth_limit - 1 ->
      bisected st a b eval' tr' st' ->
      body st st'.

End Body.

(** Variant of the loop: it decreases at every iteration. *)
Definition variant (eval_limit : Z) (st : state) : Z :=
  if stopping st then depth st
  else depth st + 2 * Z.max 0 (eval_limit - 1 - eval st) + 1.

End Integrate.

(** ** Contracts of the external operations *)

(** Modelled from the spec: the high-order rule "returns either success
    with an evaluation count > 0 [...] or decline (0)". *)
Class GlContract (arf mag : Type) `{!AcbCalc arf mag} : Prop :=
  gl_nonneg : forall f a b tol deg_limit flags prec,
    0 <= fst (acb_calc_integrate_gl_auto_deg f a b tol deg_limit flags prec).

(** Modelled from the spec: on magnitudes "comparisons (<, max) are
    exact": [mag_cmp] is the sign of a total preorder and [mag_max]
    returns an upper bound of its first argument. *)
Class MagOrder (arf mag : Type) `{!BallOps arf mag} : Prop := {
  mag_cmp_refl : forall x : mag, mag_cmp x x = 0;
  mag_cmp_trans : forall x y z : mag,
    mag_cmp x y <= 0 -> mag_cmp y z <= 0 -> mag_cmp x z <= 0;
  mag_cmp_total : forall x y : mag, mag_cmp x y <= 0 -> 0 <= mag_cmp y x;
  mag_max_ge_l : forall x y : mag, mag_cmp x (mag_max x y) <= 0
}.

(** ** Meaning of balls *)

(** Complex numbers as pairs of reals. *)
Definition C : Type := (R * R)%type.
Definition C0 : C := (0%R, 0%R).
Definition Cadd (z w : C) : C := ((fst z + fst w)%R, (snd z + snd w)%R).
Definition Csub (z w : C) : C := ((fst z - fst w)%R, (snd z - snd w)%R).
Definition Cmul (z w : C) : C :=
  ((fst z * fst w - snd z * snd w)%R, (fst z * snd w + snd z * fst w)%R).
Definition Cscal (r : R) (z : C) : C := ((r * fst z)%R, (r * snd z)%R).
Definition Cmid (x y : C) : C := Cscal (/ 2)%R (Cadd x y).

(** [z] lies on the straight segment from [x] to [y]. *)
Definition on_segment (x y z : C) : Prop :=
  exists t : R, (0 <= t <= 1)%R /\ z = Cadd x (Cscal t (Csub y x)).

(** The set of real numbers a real ball stands for. *)
Class BallSem (arf mag : Type) := arb_contains : arb arf mag -> R -> Prop.

Definition acb_contains {arf mag} `{!BallSem arf mag}
    (z : acb arf mag) (c : C) : Prop :=
  arb_contains (acb_realref z) (fst c) /\ arb_contains (acb_imagref z) (snd c).

(** Modelled from the spec: "arithmetic operations on balls must
    preserve this invariant" (the true value lies in the ball), for the
    operations [integrate.c] uses and the exponents it passes. *)
Class BallSound (arf mag : Type) `{!BallOps arf mag} `{!BallSem arf mag}
  : Prop := {
  acb_add_sound : forall x y prec u v,
    acb_contains x u -> acb_contains y v ->
    acb_contains (acb_add x y prec) (Cadd u v);
  acb_sub_sound : forall x y prec u v,
    acb_contains x u -> acb_contains y v ->
    acb_contains (acb_sub x y prec) (Csub u v);
  acb_mul_sound : forall x y prec u v,
    acb_contains x u -> acb_contains y v ->
    acb_contains (acb_mul x y prec) (Cmul u v);
  acb_half_sound : forall x u,
    acb_contains x u -> acb_contains (acb_mul_2exp_si x (-1)) (Cscal (/ 2)%R u);
  acb_double_sound : forall x u,
    acb_contains x u -> acb_contains (acb_mul_2exp_si x 1) (Cscal 2%R u);
  acb_zero_sound : acb_contains acb_zero C0;
  arb_zero_sound : arb_contains arb_zero 0%R;
  arb_inflate_sound : forall (x d : arb arf mag) (p q r : R),
    arb_contains x p -> arb_contains d q -> (Rabs (r - p) <= Rabs q)%R ->
    arb_contains (arb_add_error_mag x (arb_get_mag d)) r;
  acb_is_real_sound : forall z c,
    acb_is_real z = true -> acb_contains z c -> snd c = 0%R;
  acb_contains_zero_complete : forall z,
    acb_contains z C0 -> acb_contains_zero z = true
}.

(** The integrand [f] encloses the function [fC]. *)
Definition integrand_sound {arf mag} `{!BallSem arf mag}
    (f : acb_calc_func_t arf mag) (fC : C -> C) : Prop :=
  forall w z prec, acb_contains w z -> acb_contains (f w 0 prec) (fC z).

(** [Int x y] is the integral of [fC] along the segment from [x] to [y]:
    it splits at the midpoint, and it is the length of the path times a
    mean value, which lies in every ball that contains the values of
    [fC] on the segment (balls are closed and convex). *)
Class IntegralOf {arf mag} `{!BallSem arf mag}
    (fC : C -> C) (Int : C -> C -> C) : Prop := {
  Int_split : forall x y, Int x y = Cadd (Int x (Cmid x y)) (Int (Cmid x y) y);
  Int_mean_value : forall x y (F : acb arf mag),
    (forall z, on_segment x y z -> acb_contains F (fC z)) ->
    exists c, acb_contains F c /\ Int x y = Cmul c (Csub y x)
}.

(** The high-order rule, when it succeeds, encloses the integral. *)
Definition gl_sound {arf mag} `{!AcbCalc arf mag} `{!BallSem arf mag}
    (f : acb_calc_func_t arf mag) (Int : C -> C -> C) : Prop :=
  forall a b tol deg_limit flags prec x y,
    0 < fst (acb_calc_integrate_gl_auto_deg f a b tol deg_limit flags prec) ->
    acb_contains a x -> acb_contains b y ->
    acb_contains
      (snd (acb_calc_integrate_gl_auto_deg f a b tol deg_limit flags prec))
      (Int x y).

(** The integral along a segment of a function of the real part of its
    argument, [z |-> g (Re z)], where [G] is a primitive of [g]: the
    mean value of [g] between the real parts of the endpoints, times the
    path.  On the real line it is [G q - G p], Riemann's integral. *)
Section RealLineDefs.
Variables G g : R -> R.

Definition mean_value (p q : R) : R :=
  if Req_dec_T p q then g p else ((G q - G p) / (q - p))%R.
Definition fC_real (z : C) : C := (g (fst z), 0%R).
Definition Int_real (x y : C) : C :=
  Cmul (mean_value (fst x) (fst y), 0%R) (Csub y x).

End RealLineDefs.

(** The sum of the first [n] terms of [F]. *)
Fixpoint sumC (F : nat -> C) (n : nat) : C :=
  match n with
  | O => C0
  | S n' => Cadd (sumC F n') (F n')
  end.

(** The state accounts for the integral from [x] to [y]: the sum [s]
    encloses the part already accepted, and each record on the stack has
    endpoints in its endpoint balls whose integral its value encloses;
    together they add up to the integral. *)
Definition accounts {arf mag} `{!BallOps arf mag} `{!BallSem arf mag}
    (Int : C -> C -> C) (x y : C) (st : @state arf mag) : Prop :=
  exists (P : nat -> C * C) (sigma : C),
    acb_contains (s st) sigma /\
    Int x y =
      Cadd sigma
        (sumC (fun i => Int (fst (P i)) (snd (P i))) (Z.to_nat (depth st))) /\
    forall i : nat, (i < Z.to_nat (depth st))%nat ->
      exists a b v,
        slot st (Z.of_nat i) = Some (a, b, v) /\
        acb_contains a (fst (P i)) /\ acb_contains b (snd (P i)) /\
        acb_contains v (Int (fst (P i)) (snd (P i))).

(** ** A small executable substrate: integer balls

    Midpoints and radii are integers; a real ball [(m, r)] stands for the
    interval from [m - r] to [m + r].  Every operation rounds its radius
    upwards, so the instance obeys the contracts the driver assumes, and
    it runs. *)
Module Toy.

Abbreviation tarb := (arb Z Z).
Abbreviation tacb := (acb Z Z).

Definition mk (m r : Z) : tarb := {| arb_midref := m; arb_radref := r |}.
Definition mkc (re im : tarb) : tacb := {| acb_realref := re; acb_imagref := im |}.
Definition pt (m : Z) : tacb := mkc (mk m 0) (mk 0 0).

Definition tarb_add (x y : tarb) : tarb :=
  mk (arb_midref x + arb_midref y) (arb_radref x + arb_radref y).
Definition tarb_neg (x : tarb) : tarb := mk (- arb_midref x) (arb_radref x).
Definition tarb_sub (x y : tarb) : tarb := tarb_add x (tarb_neg y).
Definition tarb_mul (x y : tarb) : tarb :=
  mk (arb_midref x * arb_midref y)
     (Z.abs (arb_midref x) * arb_radref y + Z.abs (arb_midref y) * arb_radref x
      + arb_radref x * arb_radref y).

(** Division of a radius by [2^k], rounded up. *)
Definition cdiv (r k : Z) : Z := (r + 2 ^ k - 1) / 2 ^ k.

Definition tarb_mul_2exp_si (x : tarb) (e : Z) : tarb :=
  if 0 <=? e then mk (arb_midref x * 2 ^ e) (arb_radref x * 2 ^ e)
  else mk (arb_midref x / 2 ^ (- e))
          (cdiv (arb_radref x) (- e)
           + (if arb_midref x mod 2 ^ (- e) =? 0 then 0 else 1)).

Definition tmag_cmp (x y : Z) : Z :=
  match x ?= y with Lt => -1 | Eq => 0 | Gt => 1 end.

(** Radii from [toy_inf] on stand for an infinite radius. *)
Definition toy_inf : Z := 2 ^ 30.

Definition tarb_lower (x : tarb) : Z := Z.max 0 (Z.abs (arb_midref x) - arb_radref x).

#[export] Instance toy_ops : BallOps Z Z := {|
  acb_add x y _ := mkc (tarb_add (acb_realref x) (acb_realref y))
                       (tarb_add (acb_imagref x) (acb_imagref y));
  acb_sub x y _ := mkc (tarb_sub (acb_realref x) (acb_realref y))
                       (tarb_sub (acb_imagref x) (acb_imagref y));
  acb_mul x y _ :=
    mkc (tarb_sub (tarb_mul (acb_realref x) (acb_realref y))
                  (tarb_mul (acb_imagref x) (acb_imagref y)))
        (tarb_add (tarb_mul (acb_realref x) (acb_imagref y))
                  (tarb_mul (acb_imagref x) (acb_realref y)));
  acb_mul_2exp_si x e :=
    mkc (tarb_mul_2exp_si (acb_realref x) e) (tarb_mul_2exp_si (acb_imagref x) e);
  acb_zero := pt 0;
  arb_zero := mk 0 0;
  arb_get_mag x := Z.abs (arb_midref x) + arb_radref x;
  arb_add_error_mag x e := mk (arb_midref x) (arb_radref x + e);
  acb_get_mag_lower x := Z.max (tarb_lower (acb_realref x)) (tarb_lower (acb_imagref x));
  acb_contains_zero x :=
    (Z.abs (arb_midref (acb_realref x)) <=? arb_radref (acb_realref x))
    && (Z.abs (arb_midref (acb_imagref x)) <=? arb_radref (acb_imagref x));
  acb_is_finite x :=
    (arb_radref (acb_realref x) <? toy_inf)
    && (arb_radref (acb_imagref x) <? toy_inf);
  acb_is_real x :=
    (arb_midref (acb_imagref x) =? 0) && (arb_radref (acb_imagref x) =? 0);
  mag_hypot x y := x + y;
  mag_cmp := tmag_cmp;
  mag_max := Z.max;
  mag_mul_2exp_si x e := if 0 <=? e then x * 2 ^ e else cdiv x (- e)
|}.

(** The trapezoid rule in ball arithmetic stands in for the high-order
    rule: two evaluations, accepted when its radius is below the
    tolerance and the degree budget allows two nodes. *)
Definition toy_gl (f : acb_calc_func_t Z Z) (a b : tacb) (tol : Z)
    (deg_limit flags prec : Z) : Z * tacb :=
  let fa := f a 0 prec in
  let fb := f b 0 prec in
  let r := acb_mul (acb_add fa fb prec)
                   (acb_mul_2exp_si (acb_sub b a prec) (-1)) prec in
  if (2 <=? deg_limit) && (mag_cmp (mag_radius r) tol <? 0)
  then (2, r) else (0, r).

#[export] Instance toy_calc : AcbCalc Z Z := {|
  ACB_CALC_VERBOSE := 1;
  acb_calc_integrate_gl_auto_deg := toy_gl
|}.

(** The integrand [f(z) = z], and its integral [(y^2 - x^2) / 2]. *)
Definition f_id : acb_calc_func_t Z Z := fun x _ _ => x.
Definition fC_id (z : C) : C := z.
Definition Int_id (x y : C) : C :=
  Cscal (/ 2)%R (Csub (Cmul y y) (Cmul x x)).

(** The integrand [f(z) = Re z], with primitive [r^2 / 2] on the real
    line. *)
Definition f_re : acb_calc_func_t Z Z :=
  fun x _ _ => mkc (acb_realref x) (mk 0 0).
Definition half_sq (r : R) : R := (/ 2 * r ^ 2)%R.

(** The integrand [f(z) = z * z]. *)
Definition f_sq : acb_calc_func_t Z Z := fun x _ prec => acb_mul x x prec.

(** An integrand that cannot bound any region. *)
Definition f_wild : acb_calc_func_t Z Z :=
  fun _ _ _ => mkc (mk 0 toy_inf) (mk 0 toy_inf).

#[export] Instance toy_sem : BallSem Z Z := fun x r =>
  (IZR (arb_midref x) - IZR (arb_radref x) <= r
   <= IZR (arb_midref x) + IZR (arb_radref x))%R.

End Toy.

(** ** The call on integer balls *)

Module ToyRun.
Import Toy.

(** The states of the call that integrates [f(z) = z] from 0 to 8 with
    tolerance 1, 10 guard bits, the high-order rule disabled by a degree
    limit of 1, at most 7 evaluations and a stack of 4 records. *)
Abbreviation toy_reachable :=
  (reachable f_id (pt 0) (pt 8) 10 1 1 7 4 0 8).
Abbreviation toy_step :=
  (run_step f_id 10 1 7 4 0 8).
Abbreviation toy_init :=
  (run_init f_id (pt 0) (pt 8) 10 1 4 8).

Abbreviation toy_iter :=
  (iter f_id 10 1 7 4 0 8).
Abbreviation toy_loop :=
  (run_loop f_id 10 1 7 4 0 8).

Definition iterate (n : nat) : option (@state Z Z) :=
  Nat.iter n (fun o => st ← o; toy_step st) toy_init.

Definition empty_state : @state Z Z :=
  {| as_ := []; bs := []; vs := []; s := pt 0; new_tol := 0; depth := 0;
     depth_max := 0; eval := 0; stopping := false; trace := [] |}.

(** The state at the loop test after [n] iterations: two bisections
    take the stack to depth 3, the depth budget sets [stopping], and
    three more iterations drain the stack. *)
Definition toy_state (n : nat) : @state Z Z :=
  default empty_state (iterate n).

(** The states of the call that integrates [f(z) = z * z] from 8 to 0
    with the same limits: the first iteration bisects, and the left
    child [8, 4] has the larger radius. *)
Abbreviation sq_reachable :=
  (reachable f_sq (pt 8) (pt 0) 10 1 1 7 4 0 8).
Abbreviation sq_iter :=
  (iter f_sq 10 1 7 4 0 8).

Definition sq_state (n : nat) : @state Z Z :=
  default empty_state
    (Nat.iter n (fun o => st ← o; run_step f_sq 10 1 7 4 0 8 st)
       (run_init f_sq (pt 8) (pt 0) 10 1 4 8)).

End ToyRun.

(** ** Observations on runs *)

Section Observations.
Context {arf mag : Type} `{!BallOps arf mag} `{!AcbCalc arf mag}.

(** The evaluations of the integrand an event stands for: one for a
    direct call, the count it returned for a call of the high-order
    rule. *)
Definition event_evals (f : acb_calc_func_t arf mag) (e : event arf mag) : Z :=
  match e with
  | Ev_f _ _ _ => 1
  | Ev_gl a b tol deg_limit flags prec =>
      fst (acb_calc_integrate_gl_auto_deg f a b tol deg_limit flags prec)
  | Ev_printf _ _ => 0
  end.

Definition trace_evals (f : acb_calc_func_t arf mag)
    (tr : list (event arf mag)) : Z :=
  fold_right (fun e n => event_evals f e + n) 0 tr.

Definition is_Ev_printf (e : event arf mag) : bool :=
  match e with Ev_printf _ _ => true | _ => false end.

(** An event the call with these resolved arguments can emit: the
    integrand is asked for its plain value at the working precision, the
    high-order rule is given the resolved degree limit, the flags and the
    precision, and a line is printed only when the verbose bit is set. *)
Definition event_expected (deg_limit flags prec : Z) (e : event arf mag)
  : Prop :=
  match e with
  | Ev_f _ order p => order = 0 /\ p = prec
  | Ev_gl _ _ _ d fl p => d = deg_limit /\ fl = flags /\ p = prec
  | Ev_printf _ _ => verbose flags = true
  end.

(** The calls a trace records, without the lines printed and without
    the flags handed to the high-order rule. *)
Definition call_of (e : event arf mag) : option (event arf mag) :=
  match e with
  | Ev_f x order p => Some (Ev_f x order p)
  | Ev_gl a b tol d _ p => Some (Ev_gl a b tol d 0 p)
  | Ev_printf _ _ => None
  end.

Definition calls_of (tr : list (event arf mag)) : list (event arf mag) :=
  omap call_of tr.

(** The state without its events. *)
Definition core (st : @state arf mag) :=
  (as_ st, bs st, vs st, s st, new_tol st, depth st, depth_max st, eval st,
   stopping st).

(** Two states that differ at most in the lines printed and in the flags
    recorded with the calls of the high-order rule. *)
Definition same_run (st1 st2 : @state arf mag) : Prop :=
  core st1 = core st2 /\ calls_of (trace st1) = calls_of (trace st2).

Definition same_outcome (o1 o2 : outcome (@state arf mag)) : Prop :=
  match o1, o2 with
  | Done st1, Done st2 => same_run st1 st2
  | Fault, Fault => True
  | OutOfFuel, OutOfFuel => True
  | _, _ => False
  end.

(** Two outcomes of a call with the same value and the same calls. *)
Definition same_result (o1 o2 : outcome (acb arf mag * list (event arf mag)))
  : Prop :=
  match o1, o2 with
  | Done (r1, t1), Done (r2, t2) => r1 = r2 /\ calls_of t1 = calls_of t2
  | Fault, Fault => True
  | OutOfFuel, OutOfFuel => True
  | _, _ => False
  end.

(** All records on the stack and the running sum are real. *)
Definition all_real (st : @state arf mag) : Prop :=
  acb_is_real (s st) = true /\
  forall i a b v, 0 <= i < depth st -> slot st i = Some (a, b, v) ->
    acb_is_real a = true /\ acb_is_real b = true /\ acb_is_real v = true.

End Observations.

(** Modelled from the spec: the substrate exposes an "is real" test.
    The laws a run on the real line needs from it: the test looks at the
    imaginary part only, the exact zero is real, and the operations
    [integrate.c] uses give real results on real operands. *)
Class RealLaws (arf mag : Type) `{!BallOps arf mag} : Prop := {
  acb_is_real_imag : forall z w : acb arf mag,
    acb_imagref z = acb_imagref w -> acb_is_real z = acb_is_real w;
  acb_is_real_imag_zero : forall z : acb arf mag,
    acb_is_real (set_imagref z arb_zero) = true;
  acb_is_real_zero : acb_is_real (acb_zero (arf:=arf)) = true;
  acb_is_real_add : forall (x y : acb arf mag) prec,
    acb_is_real x = true -> acb_is_real y = true ->
    acb_is_real (acb_add x y prec) = true;
  acb_is_real_sub : forall (x y : acb arf mag) prec,
    acb_is_real x = true -> acb_is_real y = true ->
    acb_is_real (acb_sub x y prec) = true;
  acb_is_real_mul : forall (x y : acb arf mag) prec,
    acb_is_real x = true -> acb_is_real y = true ->
    acb_is_real (acb_mul x y prec) = true;
  acb_is_real_mul_2exp_si : forall (x : acb arf mag) e,
    acb_is_real x = true -> acb_is_real (acb_mul_2exp_si x e) = true;
  acb_is_real_inflate : forall (m d : acb arf mag) (r : arb arf mag),
    acb_is_real m = true -> acb_is_real d = true ->
    acb_is_real
      {| acb_realref := r;
         acb_imagref :=
           arb_add_error_mag (acb_imagref m) (arb_get_mag (acb_imagref d)) |}
    = true
}.

(** The integrand maps real balls to real balls. *)
Definition integrand_real {arf mag} `{!BallOps arf mag}
    (f : acb_calc_func_t arf mag) : Prop :=
  forall w prec, acb_is_real w = true -> acb_is_real (f w 0 prec) = true.

(** * Properties *)

(** ** Array accesses *)

Section Arrays.
Context {arf mag : Type}.
Implicit Types (v : list (acb arf mag)) (x : acb arf mag) (i j : Z).

Lemma rd_Some v i x : rd v i = Some x <-> 0 <= i /\ v !! Z.to_nat i = Some x.
Proof.
  unfold rd. destruct (Z.leb_spec 0 i); split; intros; try tauto;
    try discriminate; destruct H0; lia.
Qed.

Lemma rd_is_Some v i : 0 <= i < Z.of_nat (length v) -> is_Some (rd v i).
Proof.
  intros Hi. unfold rd. destruct (Z.leb_spec 0 i); [|lia].
  apply lookup_lt_is_Some. lia.
Qed.

Lemma wr_in v i x :
  0 <= i < Z.of_nat (length v) -> wr v i x = Some (<[Z.to_nat i := x]> v).
Proof.
  intros Hi. unfold wr.
  destruct (Z.leb_spec 0 i); destruct (Z.ltb_spec i (Z.of_nat (length v)));
    simpl; try lia; reflexivity.
Qed.

Lemma rd_insert v i j x :
  0 <= i < Z.of_nat (length v) -> 0 <= j ->
  rd (<[Z.to_nat i := x]> v) j = if Z.eq_dec i j then Some x else rd v j.
Proof.
  intros Hi Hj. unfold rd. destruct (Z.leb_spec 0 j); [|lia].
  destruct (Z.eq_dec i j) as [->|Hne].
  - apply list_lookup_insert_eq. lia.
  - apply list_lookup_insert_ne. lia.
Qed.

Lemma rd_insert_eq v i x :
  0 <= i < Z.of_nat (length v) -> rd (<[Z.to_nat i := x]> v) i = Some x.
Proof.
  intros Hi. rewrite rd_insert by lia. destruct (Z.eq_dec i i); congruence.
Qed.

Lemma rd_insert_ne v i j x :
  i <> j -> 0 <= i -> 0 <= j -> rd (<[Z.to_nat i := x]> v) j = rd v j.
Proof.
  intros Hne Hi Hj. unfold rd. destruct (Z.leb_spec 0 j); [|lia].
  apply list_lookup_insert_ne. lia.
Qed.

End Arrays.

(** Resolve the array accesses at the head of the goal. *)
Ltac arr_len := unfold _acb_vec_init; rewrite ?length_insert, ?length_replicate; lia.
Ltac arr :=
  repeat first
    [ rewrite wr_in by arr_len
    | rewrite rd_insert_eq by arr_len
    | rewrite rd_insert_ne by arr_len
    | progress simpl ].

(** ** One iteration *)

Section StepFacts.
Context {arf mag : Type} `{!BallOps arf mag} `{!AcbCalc arf mag}.
Variable f : acb_calc_func_t arf mag.
Variables goal deg_limit eval_limit depth_limit flags prec : Z.
Implicit Types (st : @state arf mag) (a b v : acb arf mag).

Local Abbreviation step' := (step f goal deg_limit eval_limit depth_limit flags prec).
Local Abbreviation gl' :=
  (fun st a b => acb_calc_integrate_gl_auto_deg f a b (new_tol st) deg_limit flags prec).

Lemma quad_simple_eq a b :
  quad_simple f a b prec
  = (fst (quad_simple f a b prec), [Ev_f (quad_wide a b prec) 0 prec]).
Proof. reflexivity. Qed.

Lemma slot_Some st i a b v :
  slot st i = Some (a, b, v) <->
  rd (as_ st) i = Some a /\ rd (bs st) i = Some b /\ rd (vs st) i = Some v.
Proof.
  unfold slot. destruct (rd (as_ st) i), (rd (bs st) i), (rd (vs st) i);
    simpl; split; intros H; try discriminate; try (destruct H as (?&?&?));
    try discriminate; [inversion H|]; repeat split; congruence.
Qed.

Lemma wf_slot st :
  wf depth_limit st -> 1 <= depth st ->
  exists a b v, slot st (depth st - 1) = Some (a, b, v).
Proof.
  intros (Hdl & Ha & Hb & Hv & Hd) H1.
  destruct (rd_is_Some (as_ st) (depth st - 1)) as [a Ea]; [lia|].
  destruct (rd_is_Some (bs st) (depth st - 1)) as [b Eb]; [lia|].
  destruct (rd_is_Some (vs st) (depth st - 1)) as [v Ev]; [lia|].
  exists a, b, v. apply slot_Some. auto.
Qed.

(** The state after a successful Gauss-Legendre attempt, by fields. *)
Lemma accept_gl_eq st a b v :
  accept_gl f goal deg_limit flags prec st a b v =
  let t := snd (gl' st a b) in
  let t := if acb_is_finite v && acb_is_real v
           then set_imagref t arb_zero else t in
  {| as_ := as_ st; bs := bs st; vs := vs st; s := acb_add (s st) t prec;
     new_tol := mag_max (new_tol st)
                  (mag_mul_2exp_si (acb_get_mag_lower t) (- goal));
     depth := depth st - 1; depth_max := depth_max st;
     eval := eval st + fst (gl' st a b); stopping := stopping st;
     trace := trace st ++ [Ev_gl a b (new_tol st) deg_limit flags prec] |}.
Proof.
  unfold accept_gl.
  destruct (acb_calc_integrate_gl_auto_deg f a b (new_tol st) deg_limit flags prec).
  reflexivity.
Qed.

(** The body of the loop once the record on top is known. *)
Lemma step_top st a b v :
  slot st (depth st - 1) = Some (a, b, v) ->
  step' st =
    if negb (stopping st) && (eval st >=? eval_limit - 1)
    then Some (stop_eval eval_limit flags st)
    else if accept_test st a b v prec then Some (accept prec st v)
    else if acb_is_finite v && (fst (gl' st a b) >? 0)
    then Some (accept_gl f goal deg_limit flags prec st a b v)
    else if acb_is_finite v then
      if depth st >=? depth_limit - 1
      then Some (stop_depth depth_limit flags st (eval st + fst (gl' st a b))
                   (trace st ++ [Ev_gl a b (new_tol st) deg_limit flags prec]))
      else bisect f goal prec st (eval st + fst (gl' st a b))
             (trace st ++ [Ev_gl a b (new_tol st) deg_limit flags prec])
    else
      if depth st >=? depth_limit - 1
      then Some (stop_depth depth_limit flags st (eval st) (trace st))
      else bisect f goal prec st (eval st) (trace st).
Proof.
  intros (Ha & Hb & Hv)%slot_Some. unfold step, accept_test.
  rewrite Ha, Hb, Hv. simpl.
  destruct (negb (stopping st) && (eval st >=? eval_limit - 1)); [reflexivity|].
  destruct (_ || _ || _); [reflexivity|].
  destruct (acb_is_finite v); simpl; [|reflexivity].
  destruct (_ >? 0); reflexivity.
Qed.

#[local] Opaque quad_simple.

(** A bisection, when index [depth] is inside the arrays. *)
Lemma bisect_spec st a b v eval' tr' :
  1 <= depth st ->
  depth st < Z.of_nat (length (as_ st)) ->
  depth st < Z.of_nat (length (bs st)) ->
  depth st < Z.of_nat (length (vs st)) ->
  slot st (depth st - 1) = Some (a, b, v) ->
  let l := left_child f a b prec in
  let r := right_child f a b prec in
  let swap := mag_cmp (radius_of l) (radius_of r) >? 0 in
  let top := if swap then l else r in
  let below := if swap then r else l in
  exists st',
    bisect f goal prec st eval' tr' = Some st' /\
    length (as_ st') = length (as_ st) /\
    length (bs st') = length (bs st) /\
    length (vs st') = length (vs st) /\
    (forall i, 0 <= i < depth st - 1 -> slot st' i = slot st i) /\
    slot st' (depth st - 1) = Some below /\
    slot st' (depth st) = Some top /\
    s st' = s st /\
    new_tol st' =
      mag_max (new_tol st)
        (mag_mul_2exp_si (acb_get_mag_lower (snd top)) (- goal)) /\
    depth st' = depth st + 1 /\
    depth_max st' = FLINT_MAX (depth st + 1) (depth_max st) /\
    eval st' = eval' + 2 /\
    stopping st' = stopping st /\
    trace st' =
      tr' ++ [Ev_f (quad_wide a (bisect_mid a b prec) prec) 0 prec;
              Ev_f (quad_wide (bisect_mid a b prec) b prec) 0 prec].
Proof.
  intros Hd Hla Hlb Hlv (Ha & Hb & Hv)%slot_Some l r swap top below.
  pose proof (quad_simple_eq a (bisect_mid a b prec)) as El.
  pose proof (quad_simple_eq (bisect_mid a b prec) b) as Er.
  subst top below swap l r. unfold left_child, right_child, radius_of.
  set (mid := bisect_mid a b prec) in *.
  set (vl := fst (quad_simple f a mid prec)) in *.
  set (vr := fst (quad_simple f mid b prec)) in *.
  unfold bisect. rewrite Hb. arr. rewrite Ha. arr. rewrite Hb. arr.
  rewrite Ha. arr. fold (bisect_mid a b prec). fold mid.
  rewrite El. arr. rewrite Er. arr.
  destruct (mag_cmp (mag_radius vl) (mag_radius vr) >? 0); arr;
    (eexists; split; [reflexivity|]); simpl;
    rewrite ?length_insert; unfold slot; simpl;
    repeat split; try reflexivity;
    try (intros i Hi; rewrite !rd_insert_ne by (rewrite ?length_insert; lia);
         reflexivity);
    arr; rewrite ?Ha; reflexivity.
Qed.

(** [step] never leaves the arrays and follows [body]. *)
Lemma step_body st :
  wf depth_limit st -> 1 <= depth st ->
  exists st', step' st = Some st' /\
    body f goal deg_limit eval_limit depth_limit flags prec st st'.
Proof.
  intros Hwf Hd. destruct (wf_slot st Hwf Hd) as (a & b & v & Hs).
  rewrite (step_top st a b v Hs). fold (budget_hit eval_limit st).
  destruct (budget_hit eval_limit st) eqn:Hb.
  { eexists; split; [reflexivity|]. by constructor. }
  destruct (accept_test st a b v prec) eqn:Hacc.
  { eexists; split; [reflexivity|]. by econstructor. }
  destruct Hwf as (Hdl & Hla & Hlb & Hlv & Hrange).
  assert (Hbis : forall eval' tr',
    declined f deg_limit flags prec st a b v eval' tr' ->
    exists st',
      (if depth st >=? depth_limit - 1
       then Some (stop_depth depth_limit flags st eval' tr')
       else bisect f goal prec st eval' tr') = Some st' /\
      body f goal deg_limit eval_limit depth_limit flags prec st st').
  { intros eval' tr' Hdec.
    destruct (Z.geb_spec (depth st) (depth_limit - 1)) as [Hge|Hlt].
    - eexists; split; [reflexivity|].
      eapply body_stop_depth; eauto; lia.
    - destruct (bisect_spec st a b v eval' tr') as (st' & Hst' & Hpost);
        try lia; try assumption.
      exists st'. split; [assumption|].
      eapply body_bisect; eauto. }
  destruct (acb_is_finite v) eqn:Hfin; simpl.
  - destruct (Z.gtb_spec (fst (gl' st a b)) 0) as [Hpos|Hnpos].
    + eexists; split; [reflexivity|]. eapply body_accept_gl; eauto; lia.
    + apply Hbis. unfold declined. rewrite Hfin. auto.
  - apply Hbis. unfold declined. rewrite Hfin. auto.
Qed.

(** [body] is a function: [step] is its only outcome. *)
Lemma body_step st st' :
  wf depth_limit st -> 1 <= depth st ->
  step' st = Some st' ->
  body f goal deg_limit eval_limit depth_limit flags prec st st'.
Proof.
  intros Hwf Hd Hst. destruct (step_body st Hwf Hd) as (st'' & E & Hb).
  congruence.
Qed.

(** Every iteration keeps the arrays and [depth] in range. *)
Lemma body_wf st st' :
  wf depth_limit st -> 1 <= depth st ->
  body f goal deg_limit eval_limit depth_limit flags prec st st' ->
  wf depth_limit st'.
Proof.
  intros (Hdl & Hla & Hlb & Hlv & Hrange) Hd Hb.
  destruct Hb; rewrite ?accept_gl_eq; unfold wf; simpl;
    try (repeat split; auto; lia).
  match goal with H : bisected _ _ _ _ _ _ _ _ _ |- _ =>
    destruct H as (Ea & Eb & Ev & _ & _ & _ & _ & _ & Ed & _) end.
  rewrite Ea, Eb, Ev, Ed. repeat split; auto; lia.
Qed.

End StepFacts.

(** ** Runs of a call *)

Section RunFacts.
Context {arf mag : Type} `{!BallOps arf mag} `{!AcbCalc arf mag}.
Variable f : acb_calc_func_t arf mag.
Variables a b : acb arf mag.
Variable goal : Z.
Variable tol : mag.
Variables deg_limit eval_limit depth_limit flags prec : Z.
Implicit Types (st : @state arf mag).

Local Abbreviation goal' := (resolve_goal goal).
Local Abbreviation deg' := (resolve_deg_limit deg_limit (resolve_goal goal)).
Local Abbreviation el' := (resolve_eval_limit eval_limit prec).
Local Abbreviation dl' := (resolve_depth_limit depth_limit prec).
Local Abbreviation reachable' :=
  (reachable f a b goal tol deg_limit eval_limit depth_limit flags prec).
Local Abbreviation iter' :=
  (iter f goal deg_limit eval_limit depth_limit flags prec).
Local Abbreviation body' := (body f goal' deg' el' dl' flags prec).

#[local] Opaque quad_simple.

Lemma FLINT_MAX_spec x y : FLINT_MAX x y = Z.max x y.
Proof. unfold FLINT_MAX. destruct (Z.gtb_spec x y); lia. Qed.

Lemma resolve_depth_limit_pos : 1 <= dl'.
Proof. unfold resolve_depth_limit. rewrite FLINT_MAX_spec. lia. Qed.

Lemma resolve_eval_limit_pos : 1 <= el'.
Proof. unfold resolve_eval_limit. rewrite FLINT_MAX_spec. lia. Qed.

(** The state at the first loop test. *)
Lemma init_state_eq g dl :
  1 <= dl ->
  init_state f a b g tol dl prec =
  Some {| as_ := <[0%nat := a]> (_acb_vec_init dl);
          bs := <[0%nat := b]> (_acb_vec_init dl);
          vs := <[0%nat := fst (quad_simple f a b prec)]> (_acb_vec_init dl);
          s := acb_zero;
          new_tol :=
            mag_max tol
              (mag_mul_2exp_si
                 (acb_get_mag_lower (fst (quad_simple f a b prec))) (- g));
          depth := 1; depth_max := 1; eval := 1; stopping := false;
          trace := [Ev_f (quad_wide a b prec) 0 prec] |}.
Proof.
  intros Hdl. unfold init_state.
  rewrite !wr_in by arr_len. simpl.
  change (Z.to_nat 0) with 0%nat.
  rewrite !(rd_insert_eq _ 0) by arr_len. simpl.
  rewrite (quad_simple_eq f prec a b).
  rewrite !wr_in by arr_len. simpl.
  rewrite !(rd_insert_eq _ 0) by arr_len. reflexivity.
Qed.

Lemma run_init_wf st0 : run_init f a b goal tol depth_limit prec = Some st0 -> wf dl' st0.
Proof.
  unfold run_init. rewrite init_state_eq by apply resolve_depth_limit_pos.
  intros E. inversion E. pose proof resolve_depth_limit_pos.
  unfold wf. simpl. rewrite !length_insert. unfold _acb_vec_init.
  rewrite !length_replicate. repeat split; lia.
Qed.

Lemma iter_body st st' : wf dl' st -> iter' st st' -> body' st st'.
Proof. intros Hwf [Hd Hst]. by apply body_step. Qed.

Lemma reachable_wf st : reachable' st -> wf dl' st.
Proof.
  induction 1 as [st0 H0 | st st' Hr IH Hit].
  - by apply run_init_wf.
  - eapply body_wf; eauto using iter_body. by destruct Hit.
Qed.

Lemma reachable_body st st' : reachable' st -> iter' st st' -> body' st st'.
Proof. intros Hr. apply iter_body. by apply reachable_wf. Qed.

(** Only a bisection makes the stack grow, and it needs room for it. *)
Lemma body_depth st st' :
  1 <= depth st -> body' st st' ->
  depth st' <= depth st + 1 /\
  (depth st' = depth st + 1 -> depth st <= dl' - 2).
Proof.
  intros Hd Hb. destruct Hb; rewrite ?accept_gl_eq; simpl; try lia.
  match goal with H : bisected _ _ _ _ _ _ _ _ _ |- _ =>
    destruct H as (_ & _ & _ & _ & _ & _ & _ & _ & Ed & _) end.
  lia.
Qed.

(** An iteration that does not grow the stack does not call [f]. *)
Lemma body_f_calls st st' :
  body' st st' -> depth st' <= depth st ->
  List.filter is_Ev_f (trace st') = List.filter is_Ev_f (trace st).
Proof.
  intros Hb Hle.
  destruct Hb as [Hhit|x y v Hs _ Hacc|x y v Hs _ _ _ Hpos
                 |x y v e' tr' _ _ _ Hdec _|x y v e' tr' st' _ _ _ Hdec _ Hpost];
    rewrite ?accept_gl_eq; simpl.
  - rewrite List.filter_app. destruct (verbose flags); simpl; by rewrite app_nil_r.
  - reflexivity.
  - rewrite List.filter_app. simpl. by rewrite app_nil_r.
  - rewrite List.filter_app.
    replace (List.filter is_Ev_f tr') with (List.filter is_Ev_f (trace st)).
    + destruct (verbose flags); simpl; by rewrite app_nil_r.
    + unfold declined in Hdec. destruct (acb_is_finite v).
      * destruct Hdec as (_ & _ & ->). rewrite List.filter_app. simpl.
        by rewrite app_nil_r.
      * by destruct Hdec as (_ & ->).
  - destruct Hpost as (_ & _ & _ & _ & _ & _ & _ & _ & Ed & _). lia.
Qed.

(** C10: every access to the arrays [as], [bs], [vs] is inside the
    allocation.  The resolved [depth_limit] is at least 1, so the writes
    of the initial record at index 0 succeed; at every loop test the
    arrays have [depth_limit] entries and [depth <= max(1, depth_limit - 1)],
    which is at most [depth_limit]; the body then runs without an access
    out of range; the stack grows (a bisection, which writes index
    [depth]) only when [depth <= depth_limit - 2]; and when
    [depth_limit <= 2] it never grows and [f] is not called again. *)
Theorem stack_accesses_in_bounds st :
  reachable' st ->
  1 <= dl' /\
  is_Some (run_init f a b goal tol depth_limit prec) /\
  length (as_ st) = Z.to_nat dl' /\
  length (bs st) = Z.to_nat dl' /\
  length (vs st) = Z.to_nat dl' /\
  0 <= depth st <= Z.max 1 (dl' - 1) /\
  Z.max 1 (dl' - 1) <= dl' /\
  (1 <= depth st ->
   exists st',
     run_step f goal deg_limit eval_limit depth_limit flags prec st = Some st' /\
     (depth st' = depth st + 1 -> depth st <= dl' - 2) /\
     (dl' <= 2 ->
      depth st' <= depth st /\
      List.filter is_Ev_f (trace st') = List.filter is_Ev_f (trace st))).
Proof.
  intros Hr. pose proof (reachable_wf st Hr) as Hwf.
  pose proof Hwf as (Hdl & Hla & Hlb & Hlv & Hrange).
  split; [assumption|]. split.
  { unfold run_init. rewrite init_state_eq by assumption. by eexists. }
  do 4 (split; [assumption|]). split; [lia|].
  intros Hd. destruct (step_body f goal' deg' el' dl' flags prec st Hwf Hd)
    as (st' & Hst & Hb).
  exists st'. split; [exact Hst|].
  destruct (body_depth st st' Hd Hb) as [Hle Hgrow].
  split; [exact Hgrow|]. intros Hsmall.
  assert (Hno : depth st' <= depth st) by lia.
  split; [exact Hno|]. by apply body_f_calls.
Qed.



Lemma accept_test_true st x y v :
  accept_test st x y v prec = true <->
  mag_cmp (mag_radius v) (new_tol st) < 0 \/
  acb_contains_zero (acb_sub x y prec) = true \/ stopping st = true.
Proof.
  unfold accept_test. rewrite !orb_true_iff, Z.ltb_lt. tauto.
Qed.

(** Among the outcomes of the body only the acceptance of the record on
    top is the state [accept st v]. *)
Lemma body_accept_inv st x y v :
  1 <= depth st ->
  slot st (depth st - 1) = Some (x, y, v) ->
  budget_hit el' st = false ->
  body' st (accept prec st v) ->
  accept_test st x y v prec = true.
Proof.
  intros Hd Hs Hbud Hb.
  remember (accept prec st v) as st' eqn:E.
  destruct Hb as [Hhit|x' y' v' Hs' _ Hacc|x' y' v' _ _ _ _ Hpos
                 |x' y' v' e' tr' _ _ _ _ _|x' y' v' e' tr' st' _ _ _ _ _ Hpost].
  - congruence.
  - rewrite Hs in Hs'. by inversion Hs'; subst.
  - apply (f_equal eval) in E. rewrite accept_gl_eq in E. simpl in E. lia.
  - apply (f_equal depth) in E. simpl in E. lia.
  - destruct Hpost as (_ & _ & _ & _ & _ & _ & _ & _ & Ed & _).
    apply (f_equal depth) in E. simpl in E. lia.
Qed.

(** C4: in an iteration that is not a budget-check re-entry, the record
    [(a, b, v)] on top is accepted (the state becomes [accept st v]: [v]
    added to [s], [depth] decremented, nothing else changed) if and only
    if the combined radius of [v] is strictly below [new_tol], or the
    difference of the endpoints contains zero, or [stopping] is set.  The
    code forms the difference as [a - b]; where containing zero does not
    depend on the order of the operands of the subtraction, the same holds
    for [b - a]. *)
Theorem accept_iff st :
  reachable' st -> 1 <= depth st ->
  ~ (stopping st = false /\ el' - 1 <= eval st) ->
  exists x y v,
    slot st (depth st - 1) = Some (x, y, v) /\
    s (accept prec st v) = acb_add (s st) v prec /\
    depth (accept prec st v) = depth st - 1 /\
    (run_step f goal deg_limit eval_limit depth_limit flags prec st
       = Some (accept prec st v) <->
     mag_cmp (mag_hypot (arb_radref (acb_realref v))
                        (arb_radref (acb_imagref v))) (new_tol st) < 0 \/
     acb_contains_zero (acb_sub x y prec) = true \/ stopping st = true) /\
    ((forall p q, acb_contains_zero (acb_sub p q prec)
                  = acb_contains_zero (acb_sub q p prec)) ->
     (run_step f goal deg_limit eval_limit depth_limit flags prec st
        = Some (accept prec st v) <->
      mag_cmp (mag_hypot (arb_radref (acb_realref v))
                         (arb_radref (acb_imagref v))) (new_tol st) < 0 \/
      acb_contains_zero (acb_sub y x prec) = true \/ stopping st = true)).
Proof.
  intros Hr Hd Hnb. pose proof (reachable_wf st Hr) as Hwf.
  destruct (wf_slot dl' st Hwf Hd) as (x & y & v & Hs).
  exists x, y, v. split; [exact Hs|]. do 2 (split; [reflexivity|]).
  assert (Hbud : budget_hit el' st = false).
  { unfold budget_hit. destruct (stopping st); [reflexivity|]. simpl.
    destruct (Z.geb_spec (eval st) (el' - 1)); [|reflexivity].
    exfalso. apply Hnb. split; [reflexivity|lia]. }
  assert (Hiff :
    run_step f goal deg_limit eval_limit depth_limit flags prec st
      = Some (accept prec st v) <-> accept_test st x y v prec = true).
  { split.
    - intros Hst. apply body_accept_inv; auto.
      apply (body_step f goal' deg' el' dl' flags prec); auto.
    - intros Hacc. unfold run_step.
      rewrite (step_top f goal' deg' el' dl' flags prec st x y v Hs).
      fold (budget_hit el' st). by rewrite Hbud, Hacc. }
  split.
  - rewrite Hiff. apply accept_test_true.
  - intros Hsym. rewrite Hiff, accept_test_true, (Hsym x y). reflexivity.
Qed.

(** An iteration leaves [new_tol] alone or raises it with [mag_max]. *)
Lemma body_new_tol st st' :
  body' st st' ->
  new_tol st' = new_tol st \/ exists m, new_tol st' = mag_max (new_tol st) m.
Proof.
  intros Hb. destruct Hb; rewrite ?accept_gl_eq; simpl; eauto.
  match goal with H : bisected _ _ _ _ _ _ _ _ _ |- _ =>
    destruct H as (_ & _ & _ & _ & _ & _ & _ & En & _) end.
  eauto.
Qed.

Section Tolerance.
Context `{!MagOrder arf mag}.

(** C5: the adaptive tolerance never decreases.  Its seed is
    [max(tol, lower-bound-magnitude(v0) * 2^-goal)] for the value [v0] of
    the direct rule on [a, b]; every iteration leaves it unchanged or
    replaces it by [mag_max new_tol m] for some magnitude [m]; hence
    between a state of the run and any later one it does not decrease
    in the order of [mag_cmp]. *)
Theorem new_tol_monotone st st' :
  reachable' st -> rtc iter' st st' ->
  (forall st0, run_init f a b goal tol depth_limit prec = Some st0 ->
     new_tol st0 =
       mag_max tol
         (mag_mul_2exp_si
            (acb_get_mag_lower (fst (quad_simple f a b prec))) (- goal'))) /\
  (forall st1, iter' st st1 ->
     new_tol st1 = new_tol st \/
     exists m, new_tol st1 = mag_max (new_tol st) m) /\
  mag_cmp (new_tol st) (new_tol st') <= 0.
Proof.
  intros Hr Hsteps. split; [|split].
  - intros st0. unfold run_init.
    rewrite init_state_eq by apply resolve_depth_limit_pos.
    intros E. by inversion E.
  - intros st1 Hit. apply body_new_tol. by apply reachable_body.
  - induction Hsteps as [x|x y z Hxy Hyz IH].
    + rewrite mag_cmp_refl. lia.
    + apply mag_cmp_trans with (new_tol y).
      * destruct (body_new_tol x y (reachable_body x y Hr Hxy)) as [->|[m ->]].
        -- rewrite mag_cmp_refl. lia.
        -- apply mag_max_ge_l.
      * apply IH. by eapply reachable_iter.
Qed.

(** The states that pop the record [(x, y, v)] on top of [st]. *)
Lemma body_pop st st' x y v :
  slot st (depth st - 1) = Some (x, y, v) ->
  body' st st' -> depth st' < depth st ->
  st' = accept prec st v \/
  st' = accept_gl f goal' deg' flags prec st x y v.
Proof.
  intros Hs Hb Hlt.
  destruct Hb as [Hhit|x' y' v' Hs' _ Hacc|x' y' v' Hs' _ _ _ Hpos
                 |x' y' v' e' tr' _ _ _ _ _|x' y' v' e' tr' st' _ _ _ _ _ Hpost].
  - simpl in Hlt. lia.
  - rewrite Hs in Hs'. inversion Hs'; subst. by left.
  - rewrite Hs in Hs'. inversion Hs'; subst. by right.
  - simpl in Hlt. lia.
  - destruct Hpost as (_ & _ & _ & _ & _ & _ & _ & _ & Ed & _). lia.
Qed.

(** C7: a bisection of the record [(x, y, _)] on top gives the children
    [x, mid] and [mid, y] each the enclosure of the direct rule; when the
    combined radius of the left value is strictly larger than that of the
    right one the two records are swapped and the left child is on top,
    otherwise the right child is; so the record on top has a radius at
    least that of the one below it, and it is the record the next pop
    removes. *)
Theorem larger_error_first st st' :
  reachable' st -> iter' st st' -> depth st' = depth st + 1 ->
  exists x y v,
    slot st (depth st - 1) = Some (x, y, v) /\
    let mid := acb_mul_2exp_si (acb_add x y prec) (-1) in
    let l := (x, mid, fst (quad_simple f x mid prec)) in
    let r := (mid, y, fst (quad_simple f mid y prec)) in
    let radius := fun c : acb arf mag * acb arf mag * acb arf mag =>
      mag_hypot (arb_radref (acb_realref (snd c)))
                (arb_radref (acb_imagref (snd c))) in
    (0 < mag_cmp (radius l) (radius r) ->
     slot st' (depth st' - 1) = Some l /\ slot st' (depth st' - 2) = Some r) /\
    (mag_cmp (radius l) (radius r) <= 0 ->
     slot st' (depth st' - 1) = Some r /\ slot st' (depth st' - 2) = Some l) /\
    exists top below,
      slot st' (depth st' - 1) = Some top /\
      slot st' (depth st' - 2) = Some below /\
      0 <= mag_cmp (radius top) (radius below) /\
      forall st'', iter' st' st'' -> depth st'' < depth st' ->
        st'' = accept prec st' (snd top) \/
        st'' = accept_gl f goal' deg' flags prec st'
                 (fst (fst top)) (snd (fst top)) (snd top).
Proof.
  intros Hr Hit Hgrow. pose proof (reachable_body st st' Hr Hit) as Hb.
  assert (Hr' : reachable' st') by (by eapply reachable_iter).
  destruct Hb as [Hhit|x' y' v' Hs' _ Hacc|x' y' v' Hs' _ _ _ Hpos
                 |x' y' v' e' tr' _ _ _ _ _|x y v e' tr' st' Hs _ _ _ _ Hpost];
    rewrite ?accept_gl_eq in Hgrow; simpl in Hgrow; try lia.
  exists x, y, v. split; [exact Hs|]. simpl.
  destruct Hpost as (_ & _ & _ & _ & Hbelow & Htop & _ & _ & Ed & _).
  unfold left_child, right_child, radius_of, mag_radius, bisect_mid in *.
  simpl in *.
  replace (depth st' - 1) with (depth st) by lia.
  replace (depth st' - 2) with (depth st - 1) by lia.
  set (mid := acb_mul_2exp_si (acb_add x y prec) (-1)) in *.
  set (rl := mag_hypot (arb_radref (acb_realref (fst (quad_simple f x mid prec)))) _) in *.
  set (rr := mag_hypot (arb_radref (acb_realref (fst (quad_simple f mid y prec)))) _) in *.
  assert (Hpop : forall top, slot st' (depth st) = Some top ->
    forall st'', iter' st' st'' -> depth st'' < depth st' ->
      st'' = accept prec st' (snd top) \/
      st'' = accept_gl f goal' deg' flags prec st'
               (fst (fst top)) (snd (fst top)) (snd top)).
  { intros [[tx ty] tv] Ht st'' Hit' Hlt. simpl.
    apply (body_pop st' st'' tx ty tv); auto.
    - by replace (depth st' - 1) with (depth st) by lia.
    - by apply reachable_body. }
  revert Hbelow Htop.
  destruct (Z.gtb_spec (mag_cmp rl rr) 0) as [Hgt|Hle]; intros Hbelow Htop.
  - split; [auto|]. split; [lia|].
    eexists _, _. split; [exact Htop|]. split; [exact Hbelow|].
    split; [simpl; fold rl rr; lia|]. by apply Hpop.
  - split; [lia|]. split; [auto|].
    eexists _, _. split; [exact Htop|]. split; [exact Hbelow|].
    split; [simpl; fold rl rr; by apply mag_cmp_total|]. by apply Hpop.
Qed.

End Tolerance.

(** The events of a call only accumulate. *)
Lemma body_trace st st' :
  body' st st' -> exists tr, trace st' = trace st ++ tr.
Proof.
  intros Hb.
  destruct Hb as [Hhit|x y v Hs _ Hacc|x y v Hs _ _ _ Hpos
                 |x y v e' tr' _ _ _ Hdec _|x y v e' tr' st' _ _ _ Hdec _ Hpost];
    rewrite ?accept_gl_eq; simpl; eauto.
  - exists []. by rewrite app_nil_r.
  - unfold declined in Hdec. destruct (acb_is_finite v).
    + destruct Hdec as (_ & _ & ->). rewrite <- app_assoc. eauto.
    + destruct Hdec as (_ & ->). eauto.
  - destruct Hpost as (_ & _ & _ & _ & _ & _ & _ & _ & _ & _ & _ & _ & ->).
    unfold declined in Hdec. destruct (acb_is_finite v).
    + destruct Hdec as (_ & _ & ->). rewrite <- app_assoc. eauto.
    + destruct Hdec as (_ & ->). eauto.
Qed.

Lemma not_accepted st x y v :
  budget_hit el' st = false -> accept_test st x y v prec = false ->
  stopping st = false /\ eval st <= el' - 2.
Proof.
  unfold budget_hit, accept_test. intros Hb Hacc.
  apply orb_false_iff in Hacc as [_ Hs].
  split; [exact Hs|]. rewrite Hs in Hb.
  simpl in Hb. rewrite Z.geb_leb in Hb. apply Z.leb_gt in Hb. lia.
Qed.

Section Budgets.
Context `{!GlContract arf mag}.

Lemma declined_eval st x y v e' tr' :
  declined f deg' flags prec st x y v e' tr' -> e' = eval st.
Proof.
  unfold declined. destruct (acb_is_finite v); [|tauto].
  intros (Hle & -> & _).
  pose proof (gl_nonneg f x y (new_tol st) deg' flags prec). lia.
Qed.

(** What an iteration does to the evaluation counter. *)
Lemma body_eval st st' :
  body' st st' ->
  eval st' = eval st \/
  (stopping st = false /\ eval st <= el' - 2 /\
   (eval st' = eval st + 2 \/
    exists x y v,
      slot st (depth st - 1) = Some (x, y, v) /\
      Ev_gl x y (new_tol st) deg' flags prec ∈ trace st' /\
      eval st' = eval st +
        fst (acb_calc_integrate_gl_auto_deg f x y (new_tol st) deg' flags prec))).
Proof.
  intros Hb.
  destruct Hb as [Hhit|x y v Hs _ Hacc|x y v Hs Hbud Hacc _ Hpos
                 |x y v e' tr' _ _ _ Hdec _
                 |x y v e' tr' st' _ Hbud Hacc Hdec _ Hpost];
    rewrite ?accept_gl_eq; simpl; auto.
  - right. destruct (not_accepted st x y v Hbud Hacc) as [Hs0 He].
    repeat split; auto. right. exists x, y, v. split; [exact Hs|].
    split; [|reflexivity].
    apply elem_of_app. right. apply list_elem_of_singleton. reflexivity.
  - left. by eapply declined_eval.
  - right. destruct (not_accepted st x y v Hbud Hacc) as [Hs0 He].
    repeat split; auto. left.
    destruct Hpost as (_ & _ & _ & _ & _ & _ & _ & _ & _ & _ & -> & _).
    by rewrite (declined_eval st x y v e' tr' Hdec).
Qed.

(** The counter is within the limit, or one call of the high-order rule
    took it over. *)
Lemma reachable_eval_bounded st :
  reachable' st ->
  eval st <= el' \/
  exists x y t,
    Ev_gl x y t deg' flags prec ∈ trace st /\
    eval st <= el' - 2 +
      fst (acb_calc_integrate_gl_auto_deg f x y t deg' flags prec).
Proof.
  induction 1 as [st0 H0 | st st' Hr IH Hit].
  - left. unfold run_init in H0.
    rewrite init_state_eq in H0 by apply resolve_depth_limit_pos.
    inversion H0. simpl. apply resolve_eval_limit_pos.
  - pose proof (reachable_body st st' Hr Hit) as Hb.
    destruct (body_trace st st' Hb) as [tr Etr].
    destruct (body_eval st st' Hb) as [E|(_ & Hle & [E|(x & y & v & _ & Hin & E)])].
    + rewrite E. destruct IH as [IH|(x & y & t & Hin & IH)]; [by left|].
      right. exists x, y, t. split; [|assumption].
      rewrite Etr. apply elem_of_app. by left.
    + left. lia.
    + right. exists x, y, (new_tol st). split; [assumption|]. lia.
Qed.

(** C3: when the high-order rule returns non-negative counts, at every
    loop test [depth] is at most the resolved [depth_limit], and [eval] is
    at most the resolved [eval_limit] or exceeds it by less than the count
    one call of the high-order rule returned; an iteration changes [eval]
    only while [eval <= eval_limit - 2], by 2 (a bisection) or by the
    count of the call of the rule on the record on top; an iteration
    entered with
    [stopping] clear and [eval >= eval_limit - 1] only sets [stopping];
    and one entered with [depth >= depth_limit - 1] pops the record on top
    or keeps the stack and sets [stopping], it never bisects. *)
Theorem budgets_respected st :
  reachable' st ->
  depth st <= dl' /\
  (eval st <= el' \/
   exists x y t,
     Ev_gl x y t deg' flags prec ∈ trace st /\
     eval st <= el' - 2 +
       fst (acb_calc_integrate_gl_auto_deg f x y t deg' flags prec)) /\
  forall st', iter' st st' ->
    (eval st' = eval st \/
     (eval st <= el' - 2 /\
      (eval st' = eval st + 2 \/
       exists x y v,
         slot st (depth st - 1) = Some (x, y, v) /\
         eval st' = eval st +
           fst (acb_calc_integrate_gl_auto_deg
                  f x y (new_tol st) deg' flags prec)))) /\
    (stopping st = false -> el' - 1 <= eval st ->
     st' = stop_eval el' flags st /\ stopping st' = true) /\
    (dl' - 1 <= depth st ->
     depth st' = depth st - 1 \/
     (depth st' = depth st /\ stopping st' = true)).
Proof.
  intros Hr. pose proof (reachable_wf st Hr) as Hwf.
  pose proof Hwf as (Hdl & _ & _ & _ & Hrange).
  split; [lia|]. split; [by apply reachable_eval_bounded|].
  intros st' Hit. pose proof (reachable_body st st' Hr Hit) as Hb.
  split; [|split].
  - destruct (body_eval st st' Hb) as [E|(_ & Hle & [E|(x & y & v & Hs & _ & E)])];
      eauto 10.
  - intros Hs He. destruct Hit as [Hd Hst]. unfold run_step in Hst.
    destruct (wf_slot dl' st Hwf Hd) as (x & y & v & Hsl).
    rewrite (step_top f goal' deg' el' dl' flags prec st x y v Hsl) in Hst.
    rewrite Hs in Hst. simpl in Hst.
    destruct (Z.geb_spec (eval st) (el' - 1)); [|lia].
    inversion Hst. by split.
  - intros Hdeep.
    destruct Hb as [Hhit|x y v Hs _ Hacc|x y v Hs Hbud Hacc _ Hpos
                   |x y v e' tr' _ _ _ Hdec _
                   |x y v e' tr' st' _ Hbud Hacc Hdec Hlt Hpost];
      rewrite ?accept_gl_eq; simpl; auto; lia.
Qed.

(** The variant decreases at every iteration and stays non-negative. *)
Lemma body_variant st st' :
  wf dl' st -> 1 <= depth st -> body' st st' ->
  0 <= variant el' st' < variant el' st.
Proof.
  intros Hwf Hd Hb. pose proof (body_wf f _ _ _ _ _ _ st st' Hwf Hd Hb) as Hwf'.
  destruct Hwf' as (_ & _ & _ & _ & Hrange').
  assert (0 <= variant el' st').
  { unfold variant. destruct (stopping st'); lia. }
  split; [assumption|]. clear H.
  destruct Hb as [Hhit|x y v Hs _ Hacc|x y v Hs Hbud Hacc _ Hpos
                 |x y v e' tr' _ Hbud Hacc Hdec _
                 |x y v e' tr' st' _ Hbud Hacc Hdec Hlt Hpost].
  - unfold budget_hit in Hhit. apply andb_true_iff in Hhit as [Hs He].
    apply negb_true_iff in Hs. rewrite Z.geb_leb in He. apply Z.leb_le in He.
    unfold variant. simpl. rewrite Hs. lia.
  - unfold variant. simpl. destruct (stopping st); lia.
  - destruct (not_accepted st x y v Hbud Hacc) as [Hs0 He].
    unfold variant. rewrite accept_gl_eq. simpl. rewrite Hs0. lia.
  - destruct (not_accepted st x y v Hbud Hacc) as [Hs0 He].
    unfold variant. simpl. rewrite Hs0. lia.
  - destruct (not_accepted st x y v Hbud Hacc) as [Hs0 He].
    rewrite (declined_eval st x y v e' tr' Hdec) in Hpost.
    destruct Hpost as (_ & _ & _ & _ & _ & _ & _ & _ & Ed & _ & Ee & Es & _).
    unfold variant. rewrite Es, Hs0, Ed, Ee. lia.
Qed.

(** The loop ends when it is given as many iterations as the variant. *)
Lemma loop_done n : forall st,
  wf dl' st -> variant el' st <= Z.of_nat n ->
  exists st',
    run_loop f goal deg_limit eval_limit depth_limit flags prec n st = Done st' /\
    depth st' = 0 /\ rtc iter' st st'.
Proof.
  unfold run_loop. induction n as [|n IH]; intros st Hwf Hv.
  - assert (depth st = 0) as Hd.
    { destruct Hwf as (_ & _ & _ & _ & Hr). revert Hv. unfold variant.
      destruct (stopping st); lia. }
    exists st. split; [simpl; rewrite Hd; reflexivity|]. split; [exact Hd|].
    apply rtc_refl.
  - simpl. destruct (Z.geb_spec (depth st) 1) as [Hd|Hd].
    + destruct (step_body f goal' deg' el' dl' flags prec st Hwf Hd)
        as (st1 & Hst & Hb).
      rewrite Hst.
      destruct (IH st1) as (st' & Hl & Hd' & Hrtc).
      * by eapply body_wf.
      * pose proof (body_variant st st1 Hwf Hd Hb). lia.
      * exists st'. split; [assumption|]. split; [assumption|].
        eapply rtc_l; [|exact Hrtc]. by split.
    + exists st. destruct Hwf as (_ & _ & _ & _ & Hr).
      split; [reflexivity|]. split; [lia|]. apply rtc_refl.
Qed.

(** In stopping mode the body accepts the record on top as it is. *)
Lemma body_stopping st st' :
  stopping st = true -> body' st st' ->
  exists x y v, slot st (depth st - 1) = Some (x, y, v) /\ st' = accept prec st v.
Proof.
  intros Hs Hb.
  destruct Hb as [Hhit|x y v Hsl _ Hacc|x y v Hsl Hbud Hacc _ Hpos
                 |x y v e' tr' _ Hbud Hacc Hdec _
                 |x y v e' tr' st' _ Hbud Hacc Hdec Hlt Hpost];
    try (destruct (not_accepted st x y v Hbud Hacc); congruence).
  - unfold budget_hit in Hhit. rewrite Hs in Hhit. discriminate.
  - eauto.
Qed.

(** In stopping mode the loop drains the stack in [depth] iterations,
    without any event and with [eval] unchanged. *)
Lemma drain n : forall st,
  wf dl' st -> stopping st = true -> depth st = Z.of_nat n ->
  exists st',
    run_loop f goal deg_limit eval_limit depth_limit flags prec n st = Done st' /\
    depth st' = 0 /\ trace st' = trace st /\ eval st' = eval st /\
    stopping st' = true.
Proof.
  unfold run_loop. induction n as [|n IH]; intros st Hwf Hs Hd.
  - exists st. split; [simpl; rewrite Hd; reflexivity|]. auto 7.
  - simpl. destruct (Z.geb_spec (depth st) 1) as [Hd1|Hd1]; [|lia].
    destruct (step_body f goal' deg' el' dl' flags prec st Hwf Hd1)
      as (st1 & Hst & Hb).
    rewrite Hst.
    destruct (body_stopping st st1 Hs Hb) as (x & y & v & _ & E).
    destruct (IH st1) as (st' & Hl & Hd' & Ht & He & Hs').
    + by eapply body_wf.
    + by subst st1.
    + subst st1. simpl. lia.
    + exists st'. subst st1. simpl in *. auto 7.
Qed.

(** C2: when the high-order rule returns non-negative counts, the call
    returns for every input: the loop ends within [2 * eval_limit]
    iterations, from every state it reaches.  The stopping flag, once set, stays set;
    in stopping mode an iteration accepts the record on top as it is,
    with no event (no call of [f] or of the high-order rule) and [eval]
    unchanged; and from a state in stopping mode the loop reaches
    [depth = 0] in [depth] further iterations. *)
Theorem loop_terminates st :
  reachable' st ->
  (exists res tr,
     acb_calc_integrate f a b goal tol deg_limit eval_limit depth_limit
       flags prec = Done (res, tr)) /\
  (exists n st',
     run_loop f goal deg_limit eval_limit depth_limit flags prec n st
       = Done st' /\ depth st' = 0) /\
  (forall st', iter' st st' -> stopping st = true -> stopping st' = true) /\
  (stopping st = true -> 1 <= depth st ->
   exists v,
     rd (vs st) (depth st - 1) = Some v /\
     run_step f goal deg_limit eval_limit depth_limit flags prec st
       = Some (accept prec st v) /\
     trace (accept prec st v) = trace st /\
     eval (accept prec st v) = eval st) /\
  (stopping st = true ->
   exists st',
     run_loop f goal deg_limit eval_limit depth_limit flags prec
       (Z.to_nat (depth st)) st = Done st' /\
     depth st' = 0 /\ trace st' = trace st /\ eval st' = eval st).
Proof.
  intros Hr. pose proof (reachable_wf st Hr) as Hwf.
  split; [|split; [|split; [|split]]].
  - unfold acb_calc_integrate, acb_calc_integrate_fuel. simpl.
    pose proof resolve_depth_limit_pos as Hdl.
    pose proof resolve_eval_limit_pos as Hel.
    destruct (init_state f a b goal' tol dl' prec) as [st0|] eqn:E0.
    2:{ rewrite init_state_eq in E0 by assumption. discriminate. }
    destruct (loop_done (iteration_bound el') st0) as (st' & Hl & _).
    + by apply run_init_wf.
    + rewrite init_state_eq in E0 by assumption. inversion E0.
      unfold variant, iteration_bound. simpl. lia.
    + unfold run_loop in Hl. rewrite Hl. eauto.
  - destruct (loop_done (Z.to_nat (variant el' st)) st Hwf) as (st' & Hl & Hd & _);
      [lia|]. eauto.
  - intros st' Hit Hs.
    destruct (body_stopping st st' Hs (reachable_body st st' Hr Hit))
      as (x & y & v & _ & ->).
    exact Hs.
  - intros Hs Hd.
    destruct (step_body f goal' deg' el' dl' flags prec st Hwf Hd)
      as (st1 & Hst & Hb).
    destruct (body_stopping st st1 Hs Hb) as (x & y & v & Hsl & ->).
    apply slot_Some in Hsl as (_ & _ & Hv).
    exists v. auto.
  - intros Hs. destruct Hwf as (? & ? & ? & ? & ?).
    destruct (drain (Z.to_nat (depth st)) st) as (st' & Hl & Hd & Ht & He & _);
      auto; [unfold wf; auto|lia|]. eauto.
Qed.

End Budgets.

End RunFacts.



(** ** Soundness of the enclosures *)

Section ComplexFacts.
Local Open Scope R_scope.

Lemma Cadd_0_r z : Cadd z C0 = z.
Proof. destruct z. unfold Cadd, C0. simpl. f_equal; ring. Qed.

Lemma Cadd_0_l z : Cadd C0 z = z.
Proof. destruct z. unfold Cadd, C0. simpl. f_equal; ring. Qed.

Lemma Cadd_assoc u v w : Cadd u (Cadd v w) = Cadd (Cadd u v) w.
Proof. unfold Cadd. simpl. f_equal; ring. Qed.

Lemma Cadd_comm u v : Cadd u v = Cadd v u.
Proof. unfold Cadd. f_equal; ring. Qed.

Lemma Cmul_double_half c d :
  Cscal 2 (Cmul c (Cscal (/ 2) d)) = Cmul c d.
Proof. unfold Cscal, Cmul. simpl. f_equal; field. Qed.

Lemma Csub_diag_mul c x : Cmul c (Csub x x) = C0.
Proof. unfold Cmul, Csub, C0. simpl. f_equal; ring. Qed.

Lemma on_segment_start x y : on_segment x y x.
Proof.
  exists 0. split; [lra|]. destruct x. unfold Cadd, Cscal, Csub. simpl.
  f_equal; ring.
Qed.

Lemma on_segment_mid x y : on_segment x y (Cmid x y).
Proof.
  exists (/ 2). split; [lra|]. unfold Cmid, Cadd, Cscal, Csub. simpl.
  f_equal; field.
Qed.

(** A point of the segment is within the half-length of the midpoint,
    in each coordinate. *)
Lemma on_segment_near_mid x y z :
  on_segment x y z ->
  Rabs (fst z - fst (Cmid x y)) <= Rabs (fst (Cscal (/ 2) (Csub y x))) /\
  Rabs (snd z - snd (Cmid x y)) <= Rabs (snd (Cscal (/ 2) (Csub y x))).
Proof.
  intros (t & Ht & ->). unfold Cmid, Cadd, Cscal, Csub. simpl.
  assert (Hk : Rabs (2 * t - 1) <= 1) by (apply Rabs_le; lra).
  split.
  - replace (fst x + t * (fst y - fst x) - / 2 * (fst x + fst y))
      with ((2 * t - 1) * (/ 2 * (fst y - fst x))) by field.
    rewrite Rabs_mult.
    rewrite <- (Rmult_1_l (Rabs (/ 2 * (fst y - fst x)))) at 2.
    apply Rmult_le_compat_r; [apply Rabs_pos|exact Hk].
  - replace (snd x + t * (snd y - snd x) - / 2 * (snd x + snd y))
      with ((2 * t - 1) * (/ 2 * (snd y - snd x))) by field.
    rewrite Rabs_mult.
    rewrite <- (Rmult_1_l (Rabs (/ 2 * (snd y - snd x)))) at 2.
    apply Rmult_le_compat_r; [apply Rabs_pos|exact Hk].
Qed.

Lemma sumC_ext F G n :
  (forall i, (i < n)%nat -> F i = G i) -> sumC F n = sumC G n.
Proof.
  induction n as [|n IH]; intros H; [reflexivity|].
  simpl. rewrite IH by (intros; apply H; lia). rewrite H by lia. reflexivity.
Qed.

End ComplexFacts.

(** ** Integrals on the real line *)

Section RealLine.
Local Open Scope R_scope.
Variables G g : R -> R.
Hypothesis G_prim : forall r, derivable_pt_lim G r (g r).

(** The mean value of [g] between [p] and [q] is a value of [g] there. *)
Lemma mean_value_attained p q :
  exists t, 0 <= t <= 1 /\ mean_value G g p q = g (p + t * (q - p)).
Proof.
  unfold mean_value. destruct (Req_dec_T p q) as [->|Hne].
  - exists 0. split; [lra|]. f_equal. ring.
  - destruct (Rtotal_order p q) as [Hlt|[Heq|Hgt]]; [|contradiction|].
    + destruct (MVT_cor2 G g p q Hlt) as (c & Hc & Hpc); [auto|].
      exists ((c - p) / (q - p)). split.
      * split.
        -- apply Rmult_le_reg_r with (q - p); [lra|].
           unfold Rdiv. rewrite Rmult_assoc, Rinv_l by lra. lra.
        -- apply Rmult_le_reg_r with (q - p); [lra|].
           unfold Rdiv. rewrite Rmult_assoc, Rinv_l by lra. lra.
      * replace (p + (c - p) / (q - p) * (q - p)) with c by (field; lra).
        rewrite Hc. field. lra.
    + destruct (MVT_cor2 G g q p Hgt) as (c & Hc & Hpc); [auto|].
      exists ((c - p) / (q - p)). split.
      * split.
        -- apply Rmult_le_reg_r with (p - q); [lra|].
           replace ((c - p) / (q - p) * (p - q)) with (p - c) by (field; lra). lra.
        -- apply Rmult_le_reg_r with (p - q); [lra|].
           replace ((c - p) / (q - p) * (p - q)) with (p - c) by (field; lra). lra.
      * replace (p + (c - p) / (q - p) * (q - p)) with c by (field; lra).
        replace (G q - G p) with (- (G p - G q)) by ring.
        rewrite Hc. field. lra.
Qed.

Lemma mean_value_halves p q :
  mean_value G g p q =
  (mean_value G g p ((p + q) / 2) + mean_value G g ((p + q) / 2) q) / 2.
Proof.
  unfold mean_value. destruct (Req_dec_T p q) as [->|Hne].
  - replace ((q + q) / 2) with q by field.
    destruct (Req_dec_T q q); [field|contradiction].
  - destruct (Req_dec_T p ((p + q) / 2)) as [E|_]; [exfalso; lra|].
    destruct (Req_dec_T ((p + q) / 2) q) as [E|_]; [exfalso; lra|].
    field. repeat split; lra.
Qed.

Lemma Int_real_line p q : Int_real G g (p, 0) (q, 0) = (G q - G p, 0).
Proof.
  unfold Int_real, mean_value, Cmul, Csub. simpl.
  destruct (Req_dec_T p q) as [->|Hne]; f_equal; try ring.
  field. lra.
Qed.

Context {arf mag : Type} `{!BallSem arf mag}.

(** The integral of a function with a primitive obeys the two laws. *)
Lemma real_integral :
  IntegralOf (arf:=arf) (mag:=mag) (fC_real g) (Int_real G g).
Proof.
  split.
  - intros x y. unfold Int_real, Cmid, Cadd, Csub, Cmul, Cscal. simpl.
    replace (/ 2 * (fst x + fst y)) with ((fst x + fst y) / 2) by field.
    rewrite (mean_value_halves (fst x) (fst y)).
    f_equal; field.
  - intros x y F HF.
    destruct (mean_value_attained (fst x) (fst y)) as (t & Ht & E).
    exists (mean_value G g (fst x) (fst y), 0). split; [|reflexivity].
    rewrite E.
    apply (HF (Cadd x (Cscal t (Csub y x)))). by exists t.
Qed.
End RealLine.

(** For a primitive of class C1 the integral is Riemann's. *)
Lemma Int_real_RiemannInt (F : C1_fun) (p q : R)
    (pr : Riemann_integrable (derive F (diff0 F)) p q) :
  Int_real F (derive F (diff0 F)) (p, 0%R) (q, 0%R) = (RiemannInt pr, 0%R).
Proof. rewrite Int_real_line. by rewrite (FTC_Riemann F pr). Qed.

Section Soundness.
Context {arf mag : Type} `{!BallOps arf mag} `{!AcbCalc arf mag}.
Context `{!BallSem arf mag} `{!BallSound arf mag}.
Implicit Types (st : @state arf mag) (a b v : acb arf mag) (x y z c : C).

Lemma quad_mid_sound a b prec x y :
  acb_contains a x -> acb_contains b y ->
  acb_contains (bisect_mid a b prec) (Cmid x y).
Proof.
  intros Ha Hb. unfold bisect_mid, Cmid.
  apply acb_half_sound. by apply acb_add_sound.
Qed.

Lemma quad_delta_sound a b prec x y :
  acb_contains a x -> acb_contains b y ->
  acb_contains (quad_delta a b prec) (Cscal (/ 2)%R (Csub y x)).
Proof.
  intros Ha Hb. unfold quad_delta.
  apply acb_half_sound. by apply acb_sub_sound.
Qed.

(** [wide] contains the segment between the endpoints. *)
Lemma quad_wide_sound a b prec x y z :
  acb_contains a x -> acb_contains b y -> on_segment x y z ->
  acb_contains (quad_wide a b prec) z.
Proof.
  intros Ha Hb Hz.
  destruct (quad_mid_sound a b prec x y Ha Hb) as [Hm1 Hm2].
  destruct (quad_delta_sound a b prec x y Ha Hb) as [Hd1 Hd2].
  destruct (on_segment_near_mid x y z Hz) as [H1 H2].
  unfold quad_wide, acb_contains. simpl. split.
  - eapply arb_inflate_sound; [exact Hm1|exact Hd1|exact H1].
  - eapply arb_inflate_sound; [exact Hm2|exact Hd2|exact H2].
Qed.

Lemma quad_simple_value (f : acb_calc_func_t arf mag) a b prec :
  fst (quad_simple f a b prec) =
  acb_mul_2exp_si
    (acb_mul (f (quad_wide a b prec) 0 prec) (quad_delta a b prec) prec) 1.
Proof. reflexivity. Qed.

#[local] Opaque quad_simple.

(** The value of the direct rule is [f(wide)] times [b - a]. *)
Lemma quad_simple_mul (f : acb_calc_func_t arf mag) a b prec x y c :
  acb_contains a x -> acb_contains b y ->
  acb_contains (f (quad_wide a b prec) 0 prec) c ->
  acb_contains (fst (quad_simple f a b prec)) (Cmul c (Csub y x)).
Proof.
  intros Ha Hb Hc. rewrite quad_simple_value.
  rewrite <- Cmul_double_half. apply acb_double_sound.
  apply acb_mul_sound; [exact Hc|]. by apply quad_delta_sound.
Qed.

Section Integral.
Variable f : acb_calc_func_t arf mag.
Variable fC : C -> C.
Variable Int : C -> C -> C.
Hypothesis f_sound : integrand_sound f fC.
Context `{!IntegralOf (arf:=arf) (mag:=mag) fC Int}.

(** The direct rule encloses the integral. *)
Lemma quad_simple_sound a b prec x y :
  acb_contains a x -> acb_contains b y ->
  acb_contains (fst (quad_simple f a b prec)) (Int x y).
Proof.
  intros Ha Hb.
  destruct (Int_mean_value x y (f (quad_wide a b prec) 0 prec)) as (c & Hc & ->).
  { intros z Hz. apply f_sound. by eapply quad_wide_sound. }
  by apply quad_simple_mul.
Qed.

Hypothesis gl_ok : gl_sound f Int.
Variables goal deg_limit eval_limit depth_limit flags prec : Z.

Local Abbreviation body'' := (body f goal deg_limit eval_limit depth_limit flags prec).

(** The value added by a successful high-order attempt encloses the
    integral over the record it replaces. *)
Lemma accept_gl_value_sound st a b v x y :
  acb_contains a x -> acb_contains b y -> acb_contains v (Int x y) ->
  0 < fst (acb_calc_integrate_gl_auto_deg f a b (new_tol st) deg_limit flags prec) ->
  let t := snd (acb_calc_integrate_gl_auto_deg f a b (new_tol st) deg_limit flags prec) in
  acb_contains
    (if acb_is_finite v && acb_is_real v then set_imagref t arb_zero else t)
    (Int x y).
Proof.
  intros Ha Hb Hv Hpos t.
  assert (Ht : acb_contains t (Int x y)) by (by apply gl_ok).
  destruct (acb_is_finite v && acb_is_real v) eqn:Hre; [|exact Ht].
  apply andb_true_iff in Hre as [_ Hreal].
  destruct Ht as [Ht1 _]. split; [exact Ht1|]. simpl.
  rewrite (acb_is_real_sound v (Int x y) Hreal Hv). apply arb_zero_sound.
Qed.

(** Every iteration keeps the account of the integral. *)
Lemma body_accounts st st' x y :
  1 <= depth st -> body'' st st' ->
  accounts Int x y st -> accounts Int x y st'.
Proof.
  intros Hd Hb (P & sigma & Hs & Hsum & Hslots).
  set (n := Z.to_nat (depth st - 1)).
  assert (En : Z.to_nat (depth st) = S n) by lia.
  assert (Ed : depth st - 1 = Z.of_nat n) by lia.
  rewrite En in Hsum, Hslots. simpl in Hsum.
  destruct (Hslots n) as (ta & tb & tv & Htop & Hta & Htb & Htv); [lia|].
  rewrite <- Ed in Htop.
  set (F := fun i => Int (fst (P i)) (snd (P i))) in *.
  destruct Hb as [Hhit|a b v Hsl _ Hacc|a b v Hsl Hbud Hacc _ Hpos
                 |a b v e' tr' _ Hbud Hacc Hdec _
                 |a b v e' tr' st' Hsl Hbud Hacc Hdec Hlt Hpost].
  - exists P, sigma. simpl. rewrite En. simpl. auto.
  - rewrite Htop in Hsl. inversion Hsl; subst ta tb tv.
    exists P, (Cadd sigma (F n)). simpl.
    replace (Z.to_nat (depth st - 1)) with n by lia.
    split; [by apply acb_add_sound|]. split.
    + rewrite Hsum. rewrite (Cadd_comm (sumC F n)). apply Cadd_assoc.
    + intros i Hi. apply Hslots. lia.
  - rewrite Htop in Hsl. inversion Hsl; subst ta tb tv.
    rewrite accept_gl_eq.
    exists P, (Cadd sigma (F n)). simpl.
    replace (Z.to_nat (depth st - 1)) with n by lia.
    split; [|split].
    + apply acb_add_sound; [exact Hs|]. by apply accept_gl_value_sound.
    + rewrite Hsum. rewrite (Cadd_comm (sumC F n)). apply Cadd_assoc.
    + intros i Hi. apply Hslots. lia.
  - exists P, sigma. simpl. rewrite En. simpl. auto.
  - rewrite Htop in Hsl. inversion Hsl; subst ta tb tv. clear Hsl.
    destruct Hpost as (_ & _ & _ & Hold & Hbelow & Hnew & Es & _ & Edep & _).
    set (p := fst (P n)) in *. set (q := snd (P n)) in *.
    set (m := Cmid p q).
    assert (Hmid : acb_contains (bisect_mid a b prec) m)
      by (by apply quad_mid_sound).
    assert (Hl : acb_contains (fst (quad_simple f a (bisect_mid a b prec) prec))
                   (Int p m)) by (by apply quad_simple_sound).
    assert (Hr : acb_contains (fst (quad_simple f (bisect_mid a b prec) b prec))
                   (Int m q)) by (by apply quad_simple_sound).
    assert (Hsplit : Int p q = Cadd (Int p m) (Int m q)) by apply Int_split.
    change (F n) with (Int p q) in Hsum.
    assert (HSn : (S n =? n)%nat = false) by (apply Nat.eqb_neq; lia).
    unfold left_child, right_child in Hbelow, Hnew.
    replace (depth st) with (Z.of_nat (S n)) in Hnew by lia.
    rewrite Ed in Hbelow.
    destruct (mag_cmp _ _ >? 0).
    + exists (fun i => if (i =? n)%nat then (m, q)
                       else if (i =? S n)%nat then (p, m) else P i), sigma.
      rewrite Es, Edep. replace (Z.to_nat (depth st + 1)) with (S (S n)) by lia.
      split; [exact Hs|]. split.
      * cbn [sumC]. rewrite !Nat.eqb_refl, HSn. cbn [fst snd].
        rewrite (sumC_ext _ F n).
        2:{ intros i Hi. destruct (Nat.eqb_spec i n); [lia|].
            destruct (Nat.eqb_spec i (S n)); [lia|]. reflexivity. }
        rewrite Hsum, Hsplit. rewrite (Cadd_comm (Int p m)).
        by rewrite !Cadd_assoc.
      * intros i Hi. destruct (Nat.eqb_spec i n) as [->|Hne].
        { eexists _, _, _. split; [exact Hbelow|]. simpl. auto. }
        destruct (Nat.eqb_spec i (S n)) as [->|Hne'].
        { eexists _, _, _. split; [exact Hnew|]. simpl. auto. }
        rewrite Hold by lia. apply Hslots. lia.
    + exists (fun i => if (i =? n)%nat then (p, m)
                       else if (i =? S n)%nat then (m, q) else P i), sigma.
      rewrite Es, Edep. replace (Z.to_nat (depth st + 1)) with (S (S n)) by lia.
      split; [exact Hs|]. split.
      * cbn [sumC]. rewrite !Nat.eqb_refl, HSn. cbn [fst snd].
        rewrite (sumC_ext _ F n).
        2:{ intros i Hi. destruct (Nat.eqb_spec i n); [lia|].
            destruct (Nat.eqb_spec i (S n)); [lia|]. reflexivity. }
        rewrite Hsum, Hsplit. by rewrite !Cadd_assoc.
      * intros i Hi. destruct (Nat.eqb_spec i n) as [->|Hne].
        { eexists _, _, _. split; [exact Hbelow|]. simpl. auto. }
        destruct (Nat.eqb_spec i (S n)) as [->|Hne'].
        { eexists _, _, _. split; [exact Hnew|]. simpl. auto. }
        rewrite Hold by lia. apply Hslots. lia.
Qed.

End Integral.

(** C6: [quad_simple] computes [delta = (b - a) / 2] and
    [mid = (a + b) / 2], takes [wide] to be [mid] with the radius of its
    real part inflated by the magnitude of the real part of [delta] and
    the radius of its imaginary part by that of the imaginary part, calls
    [f] once, on [wide] with derivative order 0, and returns [f(wide)]
    multiplied by [delta] and then by 2.  It is a total function.  Its
    value is [f(wide)] times [b - a]: it contains [c * (y - x)] for every
    [c] in [f(wide)], [x] in [a] and [y] in [b]. *)
Theorem quad_simple_spec (f : acb_calc_func_t arf mag) a b prec :
  let delta := acb_mul_2exp_si (acb_sub b a prec) (-1) in
  let mid := acb_mul_2exp_si (acb_add a b prec) (-1) in
  let wide :=
    {| acb_realref :=
         arb_add_error_mag (acb_realref mid) (arb_get_mag (acb_realref delta));
       acb_imagref :=
         arb_add_error_mag (acb_imagref mid) (arb_get_mag (acb_imagref delta)) |} in
  quad_simple f a b prec =
    (acb_mul_2exp_si (acb_mul (f wide 0 prec) delta prec) 1,
     [Ev_f wide 0 prec]) /\
  forall c x y,
    acb_contains (f wide 0 prec) c -> acb_contains a x -> acb_contains b y ->
    acb_contains (fst (quad_simple f a b prec)) (Cmul c (Csub y x)).
Proof.
  intros delta mid wide. split.
  - rewrite (quad_simple_eq f prec a b), quad_simple_value. reflexivity.
  - intros c x y Hc Ha Hb. by apply quad_simple_mul.
Qed.

End Soundness.

(** ** The enclosure returned by a call *)

Section CallSoundness.
Context {arf mag : Type} `{!BallOps arf mag} `{!AcbCalc arf mag}.
Context `{!BallSem arf mag} `{!BallSound arf mag}.
Variable f : acb_calc_func_t arf mag.
Variable fC : C -> C.
Variable goal : Z.
Variable tol : mag.
Variables deg_limit eval_limit depth_limit flags prec : Z.
Implicit Types (st : @state arf mag) (a b v : acb arf mag) (x y : C).

Local Abbreviation goal' := (resolve_goal goal).
Local Abbreviation deg' := (resolve_deg_limit deg_limit (resolve_goal goal)).
Local Abbreviation el' := (resolve_eval_limit eval_limit prec).
Local Abbreviation dl' := (resolve_depth_limit depth_limit prec).
Local Abbreviation iter' :=
  (iter f goal deg_limit eval_limit depth_limit flags prec).

#[local] Opaque quad_simple.

Section Enclosure.
Variable Int : C -> C -> C.
Hypothesis f_sound : integrand_sound f fC.
Context `{!IntegralOf (arf:=arf) (mag:=mag) fC Int}.
Hypothesis gl_ok : gl_sound f Int.
Context `{!GlContract arf mag}.
Variables a b : acb arf mag.

Local Abbreviation reachable' :=
  (reachable f a b goal tol deg_limit eval_limit depth_limit flags prec).

Lemma init_accounts st0 x y :
  acb_contains a x -> acb_contains b y ->
  run_init f a b goal tol depth_limit prec = Some st0 ->
  accounts Int x y st0.
Proof.
  intros Ha Hb. unfold run_init.
  rewrite init_state_eq by apply resolve_depth_limit_pos.
  intros E. inversion E. clear E.
  exists (fun _ => (x, y)), C0. simpl.
  split; [apply acb_zero_sound|]. split.
  - change (Z.to_nat 1) with 1%nat. simpl. by rewrite !Cadd_0_l.
  - intros i Hi. assert (i = 0%nat) as -> by lia.
    pose proof (resolve_depth_limit_pos depth_limit prec).
    eexists _, _, _. split.
    + unfold slot. simpl. rewrite !(rd_insert_eq _ 0) by arr_len. reflexivity.
    + split; [exact Ha|]. split; [exact Hb|].
      by eapply quad_simple_sound.
Qed.

Lemma rtc_accounts st st' x y :
  reachable' st -> rtc iter' st st' ->
  accounts Int x y st -> accounts Int x y st'.
Proof.
  intros Hr Hsteps. induction Hsteps as [|u v w Huv _ IH]; [auto|].
  intros Hacc. apply IH; [by eapply reachable_iter|].
  eapply body_accounts; eauto.
  - by destruct Huv.
  - by eapply reachable_body.
Qed.

(** C1: for an integrand [f] that encloses [fC] on every ball, ball
    operations that preserve containment, a high-order rule whose
    successful answers enclose the integral and whose counts are not
    negative, and [Int] the integral of [fC] along segments, the call
    returns, whatever the limits, and the ball it writes to [res] contains
    [Int x y] for all points [x] of [a] and [y] of [b].  By
    [real_integral] this covers Riemann's integral of every function with
    a primitive on the real line. *)
Theorem integral_enclosed x y :
  acb_contains a x -> acb_contains b y ->
  exists res tr,
    acb_calc_integrate f a b goal tol deg_limit eval_limit depth_limit
      flags prec = Done (res, tr) /\
    acb_contains res (Int x y).
Proof.
  intros Ha Hb. unfold acb_calc_integrate, acb_calc_integrate_fuel. simpl.
  pose proof (resolve_depth_limit_pos depth_limit prec) as Hdl.
  pose proof (resolve_eval_limit_pos eval_limit prec) as Hel.
  destruct (init_state f a b goal' tol dl' prec) as [st0|] eqn:E0.
  2:{ rewrite init_state_eq in E0 by assumption. discriminate. }
  destruct (loop_done f goal deg_limit eval_limit depth_limit flags prec
              (iteration_bound el') st0) as (st' & Hl & Hd & Hsteps).
  - by eapply run_init_wf.
  - rewrite init_state_eq in E0 by assumption. inversion E0.
    unfold variant, iteration_bound. simpl. lia.
  - unfold run_loop in Hl. rewrite Hl. eexists _, _. split; [reflexivity|].
    assert (Hacc : accounts Int x y st').
    { eapply rtc_accounts; [|exact Hsteps|].
      - by apply reachable_init.
      - by apply init_accounts. }
    destruct Hacc as (P & sigma & Hs & Hsum & _).
    rewrite Hd in Hsum. simpl in Hsum. rewrite Cadd_0_r in Hsum.
    by rewrite Hsum.
Qed.

End Enclosure.

Lemma accept_step st a b v :
  slot st (depth st - 1) = Some (a, b, v) ->
  budget_hit el' st = false -> accept_test st a b v prec = true ->
  run_step f goal deg_limit eval_limit depth_limit flags prec st
    = Some (accept prec st v).
Proof.
  intros Hs Hb Hacc. unfold run_step.
  rewrite (step_top f goal' deg' el' dl' flags prec st a b v Hs).
  fold (budget_hit el' st). by rewrite Hb, Hacc.
Qed.

Lemma loop_at_zero st n :
  depth st = 0 ->
  run_loop f goal deg_limit eval_limit depth_limit flags prec n st = Done st.
Proof. intros Hd. unfold run_loop. destruct n; simpl; by rewrite Hd. Qed.

Lemma loop_S st st' n :
  1 <= depth st ->
  run_step f goal deg_limit eval_limit depth_limit flags prec st = Some st' ->
  run_loop f goal deg_limit eval_limit depth_limit flags prec (S n) st
  = run_loop f goal deg_limit eval_limit depth_limit flags prec n st'.
Proof.
  intros Hd Hst. unfold run_loop, run_step in *. simpl.
  destruct (Z.geb_spec (depth st) 1); [|lia]. by rewrite Hst.
Qed.


End CallSoundness.

(** ** The computation in [double] *)

Section DoubleFacts.

Lemma digits2_pos_log2 (p : positive) :
  Zpos (digits2_pos p) = Z.log2 (Zpos p) + 1.
Proof.
  assert (E : forall q, digits2_pos q = Pos.size q).
  { induction q; simpl; congruence. }
  rewrite E. destruct p; simpl; lia.
Qed.

Lemma digits2_pos_unique (p : positive) (n : Z) :
  2 ^ (n - 1) <= Zpos p < 2 ^ n -> Zpos (digits2_pos p) = n.
Proof.
  intros H. rewrite digits2_pos_log2.
  assert (0 <= n - 1).
  { destruct (Z.le_gt_cases 0 (n - 1)) as [|Hn]; [assumption|].
    rewrite (Z.pow_neg_r 2 (n - 1)) in H by lia.
    assert (n = 0 \/ n < 0) as [->|Hn'] by lia; [simpl in H; lia|].
    rewrite (Z.pow_neg_r 2 n) in H by lia. lia. }
  rewrite (Z.log2_unique (Zpos p) (n - 1)); [lia|assumption|].
  replace (Z.succ (n - 1)) with n by lia. exact H.
Qed.

Lemma iter_pos_nat {A} (f : A -> A) (p : positive) : forall x,
  iter_pos f p x = Nat.iter (Pos.to_nat p) f x.
Proof.
  induction p as [p IH|p IH|]; intros x; cbn [iter_pos].
  - rewrite !IH, Pos2Nat.inj_xI, <- Nat.iter_succ_r, <- Nat.iter_add.
    f_equal. lia.
  - rewrite !IH, Pos2Nat.inj_xO, <- Nat.iter_add. f_equal. lia.
  - reflexivity.
Qed.

Lemma iter_xO_value (n : nat) (m : positive) :
  Zpos (Nat.iter n xO m) = Zpos m * 2 ^ Z.of_nat n.
Proof.
  induction n as [|n IH]; [simpl; lia|].
  rewrite Nat2Z.inj_succ, Z.pow_succ_r by lia. simpl Nat.iter.
  rewrite Pos2Z.inj_xO, IH. lia.
Qed.

Lemma pos_iter_xO_value (m k : positive) :
  Zpos (Pos.iter xO m k) = Zpos m * 2 ^ Zpos k.
Proof.
  rewrite Pos2Nat.inj_iter, <- (positive_nat_Z k). apply iter_xO_value.
Qed.

(** Shifting out zeros is exact. *)
Lemma shr_exact_nat (n : nat) (m : positive) :
  Nat.iter n shr_1
    {| shr_m := Zpos (Nat.iter n xO m); shr_r := false; shr_s := false |}
  = {| shr_m := Zpos m; shr_r := false; shr_s := false |}.
Proof.
  induction n as [|n IH]; [reflexivity|].
  rewrite Nat.iter_succ_r. exact IH.
Qed.

Lemma shr_exact (k m : positive) :
  iter_pos shr_1 k
    {| shr_m := Zpos (Pos.iter xO m k); shr_r := false; shr_s := false |}
  = {| shr_m := Zpos m; shr_r := false; shr_s := false |}.
Proof.
  rewrite iter_pos_nat, Pos2Nat.inj_iter. apply shr_exact_nat.
Qed.

Lemma binary_round_aux_exact (s : bool) (M mm : positive) (E k : Z) :
  0 <= k -> Zpos M = Zpos mm * 2 ^ k ->
  2 ^ 52 <= Zpos mm < 2 ^ 53 ->
  -1074 <= E + k <= 971 ->
  binary_round_aux 53 1024 s (Zpos M) E loc_Exact = S754_finite s mm (E + k).
Proof.
  intros Hk HM Hmm HE.
  assert (Hd : Zpos (digits2_pos mm) = 53) by (apply digits2_pos_unique; lia).
  assert (HdM : Zpos (digits2_pos M) = 53 + k).
  { apply digits2_pos_unique. rewrite HM.
    replace (53 + k - 1) with (52 + k) by lia.
    rewrite !Z.pow_add_r by lia.
    assert (0 < 2 ^ k) by (apply Z.pow_pos_nonneg; lia). nia. }
  unfold binary_round_aux, shr_fexp, fexp, emin. cbn [Zdigits2 shr_record_of_loc].
  rewrite HdM.
  replace (Z.max (53 + k + E - 53) (3 - 1024 - 53) - E) with k by lia.
  assert (Hshr : shr {| shr_m := Zpos M; shr_r := false; shr_s := false |} E k
                 = ({| shr_m := Zpos mm; shr_r := false; shr_s := false |}, E + k)).
  { destruct k as [|kp|kp]; [| |lia].
    - simpl. rewrite Z.add_0_r. f_equal. f_equal.
      rewrite Z.pow_0_r in HM. lia.
    - simpl. f_equal.
      assert (M = Pos.iter xO mm kp) as ->.
      { apply Pos2Z.inj. rewrite pos_iter_xO_value. exact HM. }
      apply shr_exact. }
  rewrite Hshr. cbn [shr_m loc_of_shr_record round_nearest_even Zdigits2].
  rewrite Hd.
  replace (Z.max (53 + (E + k) - 53) (3 - 1024 - 53) - (E + k)) with 0 by lia.
  cbn [shr shr_record_of_loc shr_m].
  destruct (Z.leb_spec (E + k) (1024 - 53)); [reflexivity|lia].
Qed.

Lemma binary_round_exact_left (s : bool) (M mm : positive) (E k : Z) :
  0 <= k -> Zpos mm = Zpos M * 2 ^ k ->
  2 ^ 52 <= Zpos mm < 2 ^ 53 ->
  -1074 <= E - k <= 971 ->
  binary_round 53 1024 s M E = S754_finite s mm (E - k).
Proof.
  intros Hk HM Hmm HE.
  assert (HdM : Zpos (digits2_pos M) = 53 - k).
  { apply digits2_pos_unique.
    assert (0 < 2 ^ k) by (apply Z.pow_pos_nonneg; lia).
    assert (k <= 52).
    { destruct (Z.le_gt_cases k 52); [assumption|].
      assert (2 ^ 53 <= 2 ^ k) by (apply Z.pow_le_mono_r; lia). nia. }
    replace (2 ^ 52) with (2 ^ (53 - k - 1) * 2 ^ k) in Hmm
      by (rewrite <- Z.pow_add_r by lia; f_equal; lia).
    replace (2 ^ 53) with (2 ^ (53 - k) * 2 ^ k) in Hmm
      by (rewrite <- Z.pow_add_r by lia; f_equal; lia).
    nia. }
  unfold binary_round, fexp, emin. rewrite HdM.
  replace (Z.max (53 - k + E - 53) (3 - 1024 - 53)) with (E - k) by lia.
  assert (Hshl : shl_align M E (E - k) = (mm, E - k)).
  { unfold shl_align. replace (E - k - E) with (- k) by lia.
    destruct k as [|kp|kp]; [| |lia].
    - simpl. rewrite Z.pow_0_r in HM. f_equal; [|lia].
      apply Pos2Z.inj. lia.
    - simpl. f_equal. apply Pos2Z.inj. rewrite pos_iter_xO_value. lia. }
  rewrite Hshl.
  rewrite (binary_round_aux_exact s mm mm (E - k) 0); try lia.
  f_equal. lia.
Qed.

Lemma binary_round_exact_right (s : bool) (M mm : positive) (E k : Z) :
  0 <= k -> Zpos M = Zpos mm * 2 ^ k ->
  2 ^ 52 <= Zpos mm < 2 ^ 53 ->
  -1074 <= E + k <= 971 -> -1074 <= E ->
  binary_round 53 1024 s M E = S754_finite s mm (E + k).
Proof.
  intros Hk HM Hmm HE HE0.
  assert (HdM : Zpos (digits2_pos M) = 53 + k).
  { apply digits2_pos_unique. rewrite HM.
    replace (53 + k - 1) with (52 + k) by lia.
    rewrite !Z.pow_add_r by lia.
    assert (0 < 2 ^ k) by (apply Z.pow_pos_nonneg; lia). nia. }
  unfold binary_round, fexp, emin. rewrite HdM.
  replace (Z.max (53 + k + E - 53) (3 - 1024 - 53)) with (E + k) by lia.
  assert (Hshl : shl_align M E (E + k) = (M, E)).
  { unfold shl_align. replace (E + k - E) with k by lia.
    destruct k; [reflexivity|reflexivity|lia]. }
  rewrite Hshl. by apply binary_round_aux_exact.
Qed.

Lemma shl_align_value (m : positive) (e e' : Z) :
  e' <= e -> Zpos (fst (shl_align m e e')) = Zpos m * 2 ^ (e - e').
Proof.
  intros Hle. unfold shl_align.
  destruct (e' - e) as [|d|d] eqn:Ed; try lia.
  - replace (e - e') with 0 by lia. simpl. lia.
  - simpl. rewrite pos_iter_xO_value. f_equal. f_equal. lia.
Qed.

(** Below [2^53 - 20] the computation in [double] is exact. *)
Lemma default_deg_limit_exact (g : Z) :
  0 <= g <= 2 ^ 53 - 20 -> default_deg_limit g = g / 2 + 10.
Proof.
  intros [Hg0 Hg].
  destruct (Z.eq_dec g 0) as [->|Hnz]; [vm_compute; reflexivity|].
  destruct (Z.eq_dec g (2 ^ 53 - 20)) as [->|Hnt]; [vm_compute; reflexivity|].
  destruct g as [|p|p]; try lia. clear Hnz Hg0.
  set (d := Z.log2 (Zpos p) + 1).
  assert (Hd : 2 ^ (d - 1) <= Zpos p < 2 ^ d).
  { unfold d. replace (Z.log2 (Zpos p) + 1 - 1) with (Z.log2 (Zpos p)) by lia.
    pose proof (Z.log2_spec (Zpos p) ltac:(lia)). lia. }
  assert (Hd1 : 1 <= d <= 53).
  { unfold d. pose proof (Z.log2_nonneg (Zpos p)).
    assert (Z.log2 (Zpos p) < 53); [|lia].
    apply Z.log2_lt_pow2; lia. }
  (* the conversion of [goal] *)
  set (mm := Z.to_pos (Zpos p * 2 ^ (53 - d))).
  assert (Hmm : Zpos mm = Zpos p * 2 ^ (53 - d)).
  { unfold mm. rewrite Z2Pos.id; [reflexivity|].
    assert (0 < 2 ^ (53 - d)) by (apply Z.pow_pos_nonneg; lia). nia. }
  assert (Hmmb : 2 ^ 52 <= Zpos mm < 2 ^ 53).
  { rewrite Hmm.
    replace (2 ^ 52) with (2 ^ (d - 1) * 2 ^ (53 - d))
      by (rewrite <- Z.pow_add_r by lia; f_equal; lia).
    replace (2 ^ 53) with (2 ^ d * 2 ^ (53 - d))
      by (rewrite <- Z.pow_add_r by lia; f_equal; lia).
    assert (0 < 2 ^ (53 - d)) by (apply Z.pow_pos_nonneg; lia). nia. }
  assert (Hx : double_of_slong (Zpos p) = S754_finite false mm (d - 53)).
  { unfold double_of_slong, binary_normalize.
    rewrite (binary_round_exact_left false p mm 0 (53 - d)); try lia.
    f_equal. lia. }
  (* the product with 0.5 *)
  assert (Hy : SFmul 53 1024 double_half (double_of_slong (Zpos p))
               = S754_finite false mm (d - 54)).
  { rewrite Hx. unfold SFmul, double_half. cbn [xorb].
    rewrite (binary_round_aux_exact false _ mm (-53 + (d - 53)) 52);
      [f_equal; lia|lia| |lia|lia].
    rewrite Pos2Z.inj_mul. change (2 ^ 52) with 4503599627370496. lia. }
  (* the sum with 10 *)
  set (G := Zpos p + 20).
  set (dG := Z.log2 G + 1).
  assert (HdG : 2 ^ (dG - 1) <= G < 2 ^ dG).
  { unfold dG. replace (Z.log2 G + 1 - 1) with (Z.log2 G) by lia.
    pose proof (Z.log2_spec G ltac:(unfold G; lia)). lia. }
  assert (HdG1 : 5 <= dG <= 53).
  { unfold dG. assert (4 <= Z.log2 G < 53); [|lia]. split.
    - apply Z.log2_le_pow2; unfold G; lia.
    - apply Z.log2_lt_pow2; unfold G; lia. }
  set (mG := Z.to_pos (G * 2 ^ (53 - dG))).
  assert (HmG : Zpos mG = G * 2 ^ (53 - dG)).
  { unfold mG. rewrite Z2Pos.id; [reflexivity|].
    assert (0 < 2 ^ (53 - dG)) by (apply Z.pow_pos_nonneg; lia).
    unfold G. nia. }
  assert (HmGb : 2 ^ 52 <= Zpos mG < 2 ^ 53).
  { rewrite HmG.
    replace (2 ^ 52) with (2 ^ (dG - 1) * 2 ^ (53 - dG))
      by (rewrite <- Z.pow_add_r by lia; f_equal; lia).
    replace (2 ^ 53) with (2 ^ dG * 2 ^ (53 - dG))
      by (rewrite <- Z.pow_add_r by lia; f_equal; lia).
    assert (0 < 2 ^ (53 - dG)) by (apply Z.pow_pos_nonneg; lia). nia. }
  assert (Hz : SFadd 53 1024
                 (SFmul 53 1024 double_half (double_of_slong (Zpos p)))
                 (double_of_slong 10)
               = S754_finite false mG (dG - 54)).
  { rewrite Hy.
    change (double_of_slong 10) with (S754_finite false 5629499534213120 (-49)).
    unfold SFadd. cbn [cond_Zopp].
    set (ez := Z.min (d - 54) (-49)).
    assert (Hez : ez <= d - 54 /\ ez <= -49 /\ -54 <= ez) by (unfold ez; lia).
    pose proof (shl_align_value mm (d - 54) ez ltac:(lia)) as H1.
    pose proof (shl_align_value 5629499534213120 (-49) ez ltac:(lia)) as H2.
    set (S1 := fst (shl_align mm (d - 54) ez)) in *.
    set (S2 := fst (shl_align 5629499534213120 (-49) ez)) in *.
    change (Z.pos S1 + Z.pos S2) with (Zpos (S1 + S2)).
    unfold binary_normalize.
    rewrite (binary_round_exact_right false (S1 + S2) mG ez (dG - 54 - ez));
      [f_equal; lia|lia| |lia|lia|lia].
    rewrite Pos2Z.inj_add, H1, H2, Hmm, HmG. unfold G.
    set (j := - 1 - ez). assert (48 <= j) by (unfold j; lia).
    assert (E1 : 2 ^ (53 - d) * 2 ^ (d - 54 - ez) = 2 ^ j).
    { rewrite <- Z.pow_add_r by lia. f_equal. unfold j. lia. }
    assert (E2 : 2 ^ 49 * 2 ^ (-49 - ez) = 2 * 2 ^ j).
    { rewrite <- Z.pow_add_r, <- Z.pow_succ_r by lia. f_equal. unfold j. lia. }
    assert (E3 : 2 ^ (53 - dG) * 2 ^ (dG - 54 - ez) = 2 ^ j).
    { rewrite <- Z.pow_add_r by lia. f_equal. unfold j. lia. }
    change (Z.pos 5629499534213120) with (10 * 2 ^ 49).
    rewrite <- !Z.mul_assoc, E1, E2, E3. lia. }
  unfold default_deg_limit. rewrite Hz. unfold slong_of_double, cond_Zopp.
  rewrite Z.shiftl_div_pow2 by lia. rewrite HmG.
  replace (- (dG - 54)) with (1 + (53 - dG)) by lia.
  rewrite Z.pow_add_r by lia.
  rewrite Z.div_mul_cancel_r by (try apply Z.pow_nonzero; lia).
  unfold G. change (2 ^ 1) with 2.
  replace (Z.pos p + 20) with (Z.pos p + 10 * 2) by lia.
  rewrite Z.div_add by lia. reflexivity.
Qed.

End DoubleFacts.

(** ** Resolution of the limits *)

Section Limits.
Context {arf mag : Type} `{!BallOps arf mag} `{!AcbCalc arf mag}.

(** C8 (as amended): at entry a non-positive [depth_limit] becomes
    [2 * prec] and a non-positive [eval_limit] becomes [1000 * prec]
    (products of [slong], taken in range), each then raised to at least 1
    (so they are [2 * prec] and [1000 * prec] for a positive precision);
    [goal] is raised to at least 0; a non-positive [deg_limit] becomes
    [0.5 * goal + 10] computed in [double] and truncated to an integer,
    which is [goal / 2 + 10] rounded down as long as [goal] is at most
    [2^53 - 20]; positive limits are used unchanged; and the call behaves
    as the call with the resolved values. *)
Theorem limits_resolved (f : acb_calc_func_t arf mag) (a b : acb arf mag)
    (tol : mag) (goal deg_limit eval_limit depth_limit flags prec : Z)
    (fuel : nat) :
  (depth_limit <= 0 -> is_slong (2 * prec) ->
   resolve_depth_limit depth_limit prec = Z.max (2 * prec) 1) /\
  (eval_limit <= 0 -> is_slong (1000 * prec) ->
   resolve_eval_limit eval_limit prec = Z.max (1000 * prec) 1) /\
  (1 <= prec -> is_slong (1000 * prec) ->
   unclamped_defaults depth_limit eval_limit prec) /\
  resolve_goal goal = Z.max goal 0 /\
  (deg_limit <= 0 -> goal <= 2 ^ 53 - 20 ->
   resolve_deg_limit deg_limit (resolve_goal goal) = resolve_goal goal / 2 + 10) /\
  (0 < depth_limit -> resolve_depth_limit depth_limit prec = depth_limit) /\
  (0 < eval_limit -> resolve_eval_limit eval_limit prec = eval_limit) /\
  (0 < deg_limit ->
   resolve_deg_limit deg_limit (resolve_goal goal) = deg_limit) /\
  acb_calc_integrate_fuel fuel f a b goal tol deg_limit eval_limit
    depth_limit flags prec
  = acb_calc_integrate_fuel fuel f a b (resolve_goal goal) tol
      (resolve_deg_limit deg_limit (resolve_goal goal))
      (resolve_eval_limit eval_limit prec)
      (resolve_depth_limit depth_limit prec) flags prec.
Proof.
  assert (Hg : resolve_goal goal = Z.max goal 0).
  { unfold resolve_goal. rewrite FLINT_MAX_spec. lia. }
  assert (Hd0 : depth_limit <= 0 ->
                resolve_depth_limit depth_limit prec = Z.max (2 * prec) 1).
  { intros H. unfold resolve_depth_limit. rewrite FLINT_MAX_spec.
    destruct (Z.leb_spec depth_limit 0); lia. }
  assert (He0 : eval_limit <= 0 ->
                resolve_eval_limit eval_limit prec = Z.max (1000 * prec) 1).
  { intros H. unfold resolve_eval_limit. rewrite FLINT_MAX_spec.
    destruct (Z.leb_spec eval_limit 0); lia. }
  split; [intros H _; by apply Hd0|]. split; [intros H _; by apply He0|].
  split; [intros Hp _; split; intros H; [rewrite Hd0|rewrite He0]; lia|].
  split; [exact Hg|].
  split.
  { intros H Hrange. unfold resolve_deg_limit.
    destruct (Z.leb_spec deg_limit 0); [|lia].
    apply default_deg_limit_exact. rewrite Hg. lia. }
  split.
  { intros H. unfold resolve_depth_limit. rewrite FLINT_MAX_spec.
    destruct (Z.leb_spec depth_limit 0); lia. }
  split.
  { intros H. unfold resolve_eval_limit. rewrite FLINT_MAX_spec.
    destruct (Z.leb_spec eval_limit 0); lia. }
  split.
  { intros H. unfold resolve_deg_limit. destruct (Z.leb_spec deg_limit 0); lia. }
  unfold acb_calc_integrate_fuel.
  assert (E1 : resolve_goal (resolve_goal goal) = resolve_goal goal).
  { unfold resolve_goal at 1. rewrite FLINT_MAX_spec. lia. }
  assert (E2 : resolve_depth_limit (resolve_depth_limit depth_limit prec) prec
               = resolve_depth_limit depth_limit prec).
  { pose proof (resolve_depth_limit_pos depth_limit prec).
    unfold resolve_depth_limit at 1. rewrite FLINT_MAX_spec.
    destruct (Z.leb_spec (resolve_depth_limit depth_limit prec) 0); lia. }
  assert (E3 : resolve_eval_limit (resolve_eval_limit eval_limit prec) prec
               = resolve_eval_limit eval_limit prec).
  { pose proof (resolve_eval_limit_pos eval_limit prec).
    unfold resolve_eval_limit at 1. rewrite FLINT_MAX_spec.
    destruct (Z.leb_spec (resolve_eval_limit eval_limit prec) 0); lia. }
  assert (E4 : resolve_deg_limit
                 (resolve_deg_limit deg_limit (resolve_goal goal))
                 (resolve_goal goal)
               = resolve_deg_limit deg_limit (resolve_goal goal)).
  { unfold resolve_deg_limit at 1.
    destruct (Z.leb_spec (resolve_deg_limit deg_limit (resolve_goal goal)) 0)
      as [Hle|]; [|reflexivity].
    unfold resolve_deg_limit in *.
    destruct (Z.leb_spec deg_limit 0); [reflexivity|lia]. }
  cbv zeta. by rewrite E1, E2, E3, E4.
Qed.

End Limits.

(** C8 as stated fails for a non-positive precision: with
    [depth_limit = 0], [eval_limit = 0] and [prec = 0] the defaults
    [2 * prec] and [1000 * prec] are 0 and the limits become 1. *)
Lemma unclamped_defaults_counterexample : ~ unclamped_defaults 0 0 0.
Proof. intros [H _]. specialize (H ltac:(lia)). vm_compute in H. discriminate. Qed.

(** Above the exact range the conversion of [goal] to [double]
    rounds: for [goal = 2^53 + 3] the code stores one more than
    [goal / 2 + 10] rounded down. *)
Example default_deg_limit_rounds :
  resolve_deg_limit 0 (resolve_goal (2 ^ 53 + 3)) = 4503599627370508 /\
  (2 ^ 53 + 3) / 2 + 10 = 4503599627370507.
Proof. split; vm_compute; reflexivity. Qed.


(** ** The integer balls obey the contracts *)

Module ToyFacts.
Import Toy.

Lemma Rabs_bound (a b : R) : (Rabs a <= b)%R -> (- b <= a <= b)%R.
Proof. unfold Rabs. destruct (Rcase_abs a); lra. Qed.

Lemma toy_sem_eq (x : tarb) (r : R) :
  arb_contains x r <->
  (IZR (arb_midref x) - IZR (arb_radref x) <= r
   <= IZR (arb_midref x) + IZR (arb_radref x))%R.
Proof. reflexivity. Qed.

Lemma tarb_add_sound x y u v :
  arb_contains x u -> arb_contains y v -> arb_contains (tarb_add x y) (u + v)%R.
Proof.
  rewrite !toy_sem_eq. unfold tarb_add. simpl. rewrite !plus_IZR. lra.
Qed.

Lemma tarb_sub_sound x y u v :
  arb_contains x u -> arb_contains y v -> arb_contains (tarb_sub x y) (u - v)%R.
Proof.
  rewrite !toy_sem_eq. unfold tarb_sub, tarb_add, tarb_neg. simpl.
  rewrite !plus_IZR, opp_IZR. lra.
Qed.

Lemma tarb_mul_sound x y u v :
  arb_contains x u -> arb_contains y v -> arb_contains (tarb_mul x y) (u * v)%R.
Proof.
  rewrite !toy_sem_eq. unfold tarb_mul. simpl.
  rewrite !plus_IZR, !mult_IZR, !abs_IZR.
  set (m1 := IZR (arb_midref x)). set (r1 := IZR (arb_radref x)).
  set (m2 := IZR (arb_midref y)). set (r2 := IZR (arb_radref y)).
  intros H1 H2.
  assert (Hd1 : (Rabs (u - m1) <= r1)%R) by (apply Rabs_le; lra).
  assert (Hd2 : (Rabs (v - m2) <= r2)%R) by (apply Rabs_le; lra).
  assert (E : (u * v - m1 * m2 = m1 * (v - m2) + m2 * (u - m1) + (u - m1) * (v - m2))%R) by ring.
  assert (Hb : (Rabs (u * v - m1 * m2) <= Rabs m1 * r2 + Rabs m2 * r1 + r1 * r2)%R).
  { rewrite E.
    eapply Rle_trans; [apply Rabs_triang|].
    apply Rplus_le_compat.
    - eapply Rle_trans; [apply Rabs_triang|].
      apply Rplus_le_compat; rewrite Rabs_mult;
        (apply Rmult_le_compat_l; [apply Rabs_pos|assumption]).
    - rewrite Rabs_mult. apply Rmult_le_compat; try apply Rabs_pos; assumption. }
  apply Rabs_bound in Hb. lra.
Qed.

Lemma tarb_half_sound x u :
  arb_contains x u -> arb_contains (tarb_mul_2exp_si x (-1)) (/ 2 * u)%R.
Proof.
  rewrite !toy_sem_eq. unfold tarb_mul_2exp_si, cdiv. simpl.
  change (2 ^ (- (-1))) with 2.
  set (m := arb_midref x). set (r := arb_radref x).
  intros H.
  assert (Hr : (0 <= IZR r)%R) by lra.
  apply le_IZR in Hr.
  assert (Hm : m = 2 * (m / 2) + m mod 2) by (apply Z.div_mod; lia).
  assert (Hm2 : 0 <= m mod 2 < 2) by (apply Z.mod_pos_bound; lia).
  assert (Hr2 : r <= 2 * ((r + 2 - 1) / 2)).
  { pose proof (Z.div_mod (r + 2 - 1) 2 ltac:(lia)).
    pose proof (Z.mod_pos_bound (r + 2 - 1) 2 ltac:(lia)). lia. }
  set (q := m / 2) in *. set (rho := (r + 2 - 1) / 2) in *.
  set (e := m mod 2) in *.
  rewrite plus_IZR.
  assert (HmR : IZR m = (2 * IZR q + IZR e)%R).
  { rewrite Hm at 1. rewrite plus_IZR, mult_IZR. reflexivity. }
  assert (HrR : (IZR r <= 2 * IZR rho)%R).
  { apply IZR_le in Hr2. rewrite mult_IZR in Hr2. exact Hr2. }
  destruct (Z.eqb_spec e 0) as [He|He].
  - rewrite He in HmR. lra.
  - assert (e = 1) as He1 by lia. rewrite He1 in HmR. lra.
Qed.

Lemma tarb_double_sound x u :
  arb_contains x u -> arb_contains (tarb_mul_2exp_si x 1) (2 * u)%R.
Proof.
  rewrite !toy_sem_eq. unfold tarb_mul_2exp_si. simpl.
  change (2 ^ 1) with 2. rewrite !mult_IZR. lra.
Qed.

Lemma tarb_inflate_sound (x d : tarb) (p q r : R) :
  arb_contains x p -> arb_contains d q -> (Rabs (r - p) <= Rabs q)%R ->
  arb_contains (arb_add_error_mag x (arb_get_mag d)) r.
Proof.
  rewrite !toy_sem_eq. simpl. rewrite !plus_IZR, abs_IZR.
  intros Hp Hq Hr.
  assert (Hq' : (Rabs q <= Rabs (IZR (arb_midref d)) + IZR (arb_radref d))%R).
  { replace q with (IZR (arb_midref d) + (q - IZR (arb_midref d)))%R by ring.
    eapply Rle_trans; [apply Rabs_triang|].
    apply Rplus_le_compat_l. apply Rabs_le. lra. }
  apply Rabs_bound in Hr. lra.
Qed.

Lemma toy_contains_zero (z : tacb) :
  acb_contains z C0 -> acb_contains_zero z = true.
Proof.
  intros [H1 H2]. rewrite toy_sem_eq in H1, H2. simpl in H1, H2.
  simpl. apply andb_true_iff. split; apply Z.leb_le.
  - assert (- arb_radref (acb_realref z) <= arb_midref (acb_realref z)
            <= arb_radref (acb_realref z)); [|lia].
    split; apply le_IZR; rewrite ?opp_IZR; lra.
  - assert (- arb_radref (acb_imagref z) <= arb_midref (acb_imagref z)
            <= arb_radref (acb_imagref z)); [|lia].
    split; apply le_IZR; rewrite ?opp_IZR; lra.
Qed.

#[export] Instance toy_sound : BallSound Z Z.
Proof.
  split.
  - intros x y prec u v [H1 H2] [H3 H4]. split; simpl; by apply tarb_add_sound.
  - intros x y prec u v [H1 H2] [H3 H4]. split; simpl; by apply tarb_sub_sound.
  - intros x y prec u v [H1 H2] [H3 H4]. split; simpl.
    + apply tarb_sub_sound; by apply tarb_mul_sound.
    + apply tarb_add_sound; by apply tarb_mul_sound.
  - intros x u [H1 H2]. split; simpl; by apply tarb_half_sound.
  - intros x u [H1 H2]. split; simpl; by apply tarb_double_sound.
  - split; rewrite toy_sem_eq; simpl; lra.
  - rewrite toy_sem_eq; simpl; lra.
  - apply tarb_inflate_sound.
  - intros z c Hre [_ H2]. simpl in Hre.
    apply andb_true_iff in Hre as [Hm Hr].
    apply Z.eqb_eq in Hm, Hr. rewrite toy_sem_eq, Hm, Hr in H2. lra.
  - apply toy_contains_zero.
Qed.

#[export] Instance toy_order : MagOrder Z Z.
Proof.
  split; simpl; unfold tmag_cmp.
  - intros x. by rewrite Z.compare_refl.
  - intros x y z. destruct (Z.compare_spec x y), (Z.compare_spec y z),
      (Z.compare_spec x z); lia.
  - intros x y. destruct (Z.compare_spec x y), (Z.compare_spec y x); lia.
  - intros x y. destruct (Z.compare_spec x (Z.max x y)); lia.
Qed.

#[export] Instance toy_gl_contract : GlContract Z Z.
Proof.
  intros f a b tol deg flags prec. simpl. unfold toy_gl.
  destruct (_ && _); simpl; lia.
Qed.

Lemma f_id_sound : integrand_sound f_id fC_id.
Proof. intros w z prec H. exact H. Qed.

#[export] Instance Int_id_integral : IntegralOf (arf:=Z) (mag:=Z) fC_id Int_id.
Proof.
  split.
  - intros x y. unfold Int_id, Cmid, Cadd, Csub, Cmul, Cscal. simpl.
    f_equal; field.
  - intros x y F HF. exists (Cmid x y). split.
    + apply (HF (Cmid x y)). apply on_segment_mid.
    + unfold Int_id, Cmid, Cadd, Csub, Cmul, Cscal, fC_id. simpl.
      f_equal; field.
Qed.

Lemma toy_gl_sound : gl_sound f_id Int_id.
Proof.
  intros a b tol deg flags prec x y _ Ha Hb. simpl. unfold toy_gl.
  assert (H : acb_contains
    (acb_mul (acb_add (f_id a 0 prec) (f_id b 0 prec) prec)
       (acb_mul_2exp_si (acb_sub b a prec) (-1)) prec) (Int_id x y)).
  { replace (Int_id x y) with (Cmul (Cadd x y) (Cscal (/ 2)%R (Csub y x))).
    - apply acb_mul_sound; [by apply acb_add_sound|].
      apply acb_half_sound. by apply acb_sub_sound.
    - unfold Int_id, Cadd, Csub, Cmul, Cscal. simpl. f_equal; field. }
  destruct (_ && _); exact H.
Qed.

Lemma half_sq_prim r : derivable_pt_lim half_sq r r.
Proof.
  replace r with (/ 2 * (INR 2 * r ^ Init.Nat.pred 2))%R at 2
    by (simpl; field).
  apply (derivable_pt_lim_scal (fun y => (y ^ 2)%R) (/ 2)%R r).
  apply derivable_pt_lim_pow.
Qed.

Lemma half_sq_derivable : derivable half_sq.
Proof. intros r. exists r. apply half_sq_prim. Qed.

Lemma half_sq_derive r : derive half_sq half_sq_derivable r = r.
Proof. unfold derive. apply derive_pt_eq_0. apply half_sq_prim. Qed.

Lemma half_sq_C1 : continuity (derive half_sq half_sq_derivable).
Proof.
  intros r. apply (continuity_pt_locally_ext id _ 1 r Rlt_0_1).
  - intros y _. symmetry. apply half_sq_derive.
  - apply derivable_continuous_pt. exists 1%R. apply derivable_pt_lim_id.
Qed.

Lemma f_re_sound : integrand_sound f_re (fC_real (fun r => r)).
Proof.
  intros w z prec [H1 _]. split; [exact H1|].
  simpl. rewrite toy_sem_eq. simpl. lra.
Qed.

Lemma toy_gl_re_sound : gl_sound f_re (Int_real half_sq (fun r => r)).
Proof.
  intros a b tol deg flags prec x y _ Ha Hb. simpl. unfold toy_gl.
  assert (H : acb_contains
    (acb_mul (acb_add (f_re a 0 prec) (f_re b 0 prec) prec)
       (acb_mul_2exp_si (acb_sub b a prec) (-1)) prec)
    (Int_real half_sq (fun r => r) x y)).
  { replace (Int_real half_sq (fun r => r) x y)
      with (Cmul (Cadd (fst x, 0%R) (fst y, 0%R)) (Cscal (/ 2)%R (Csub y x))).
    - apply acb_mul_sound.
      + apply acb_add_sound; by apply (f_re_sound _ _ prec).
      + apply acb_half_sound. by apply acb_sub_sound.
    - unfold Int_real, mean_value, half_sq, Cadd, Csub, Cmul, Cscal. simpl.
      destruct (Req_dec_T (fst x) (fst y)) as [E|Hne].
      + rewrite E. f_equal; field.
      + f_equal; field; lra. }
  destruct (_ && _); exact H.
Qed.

End ToyFacts.

(** ** The contracts at work: the call on integer balls *)

Module ToyWitness.
Import Toy ToyRun ToyFacts.

Lemma toy_reachable_0 : toy_reachable (toy_state 0).
Proof. apply reachable_init. vm_compute. reflexivity. Qed.

Lemma toy_iter_at n :
  (n < 6)%nat -> toy_iter (toy_state n) (toy_state (S n)).
Proof.
  intros Hn. do 6 (destruct n as [|n];
    [split; [vm_compute; congruence|vm_compute; reflexivity]|]). lia.
Qed.

Lemma toy_reachable_at n : (n <= 6)%nat -> toy_reachable (toy_state n).
Proof.
  induction n as [|n IH]; intros Hn; [apply toy_reachable_0|].
  eapply reachable_iter; [apply IH; lia|apply toy_iter_at; lia].
Qed.

Lemma pt_contains (m : Z) : acb_contains (pt m) (IZR m, 0%R).
Proof. split; rewrite toy_sem_eq; simpl; lra. Qed.

(** An integrand whose values are never finite: the rule of high order
    is never tried, the depth budget stops the refinement and the call
    returns. *)
Example wild_integrand_returns :
  exists res tr,
    acb_calc_integrate f_wild (pt 0) (pt 8) 10 1 0 0 4 1 8 = Done (res, tr) /\
    List.filter is_Ev_gl tr = [] /\
    length (List.filter is_Ev_f tr) = 5%nat /\
    acb_is_finite res = false /\
    In (Ev_printf "stopping at depth_limit %wd\n" [4]) tr.
Proof.
  eexists _, _. split; [vm_compute; reflexivity|].
  repeat split; try reflexivity. simpl. auto 10.
Qed.

(** The integral of [r] from 0 to 8 on the real line, Riemann's, and the
    integral of [z] from 0 to [8 i] in the plane. *)
Lemma integral_enclosed_witness :
  acb_contains (pt 0) (0%R, 0%R) /\ acb_contains (pt 8) (8%R, 0%R) /\
  acb_contains (mkc (mk 0 0) (mk 8 0)) (0%R, 8%R) /\
  (exists res tr,
     acb_calc_integrate f_re (pt 0) (pt 8) 10 1 0 0 0 0 8 = Done (res, tr) /\
     forall pr : Riemann_integrable (fun r : R => r) 0 8,
       acb_contains res (RiemannInt pr, 0%R)) /\
  (exists res tr,
     acb_calc_integrate f_id (pt 0) (mkc (mk 0 0) (mk 8 0)) 10 1 1 7 4 0 8
       = Done (res, tr) /\
     acb_contains res (Int_id (0%R, 0%R) (0%R, 8%R))).
Proof.
  assert (H0 : acb_contains (pt 0) (0%R, 0%R)) by apply (pt_contains 0).
  assert (H8 : acb_contains (pt 8) (8%R, 0%R)) by apply (pt_contains 8).
  assert (H8i : acb_contains (mkc (mk 0 0) (mk 8 0)) (0%R, 8%R))
    by (split; rewrite toy_sem_eq; simpl; lra).
  split; [exact H0|]. split; [exact H8|]. split; [exact H8i|]. split.
  - destruct (integral_enclosed f_re (fC_real (fun r => r)) 10 1 0 0 0 0 8
                (Int_real half_sq (fun r => r)) f_re_sound
                (IntegralOf0 := real_integral half_sq (fun r => r) half_sq_prim)
                toy_gl_re_sound (pt 0) (pt 8)
                (0%R, 0%R) (8%R, 0%R) H0 H8) as (res & tr & Hcall & Hres).
    exists res, tr. split; [exact Hcall|]. intros pr.
    rewrite Int_real_line in Hres.
    assert (E : RiemannInt pr = (half_sq 8 - half_sq 0)%R).
    { assert (pr' : Riemann_integrable
                      (derive (mkC1 half_sq_C1) (diff0 (mkC1 half_sq_C1))) 0 8).
      { apply continuity_implies_RiemannInt; [lra|].
        intros x _. apply (cont1 (mkC1 half_sq_C1)). }
      transitivity (RiemannInt pr').
      - apply RiemannInt_P18; [lra|].
        intros x _. simpl. symmetry. apply half_sq_derive.
      - apply (FTC_Riemann (mkC1 half_sq_C1) pr'). }
    by rewrite E.
  - apply (integral_enclosed f_id fC_id 10 1 1 7 4 0 8 Int_id f_id_sound
             toy_gl_sound (pt 0) (mkc (mk 0 0) (mk 8 0))).
    + exact H0.
    + exact H8i.
Defined.

Lemma loop_terminates_witness :
  toy_reachable (toy_state 3) /\ stopping (toy_state 3) = true /\
  (exists res tr,
     acb_calc_integrate f_id (pt 0) (pt 8) 10 1 1 7 4 0 8 = Done (res, tr)) /\
  (forall st', toy_iter (toy_state 3) st' -> stopping st' = true) /\
  exists st',
    toy_loop 3 (toy_state 3) = Done st' /\ depth st' = 0 /\
    trace st' = trace (toy_state 3) /\ eval st' = eval (toy_state 3).
Proof.
  assert (Hr : toy_reachable (toy_state 3)) by (apply toy_reachable_at; lia).
  destruct (loop_terminates f_id (pt 0) (pt 8) 10 1 1 7 4 0 8 (toy_state 3) Hr)
    as (H1 & _ & H3 & _ & H5).
  split; [exact Hr|]. split; [reflexivity|]. split; [exact H1|].
  split; [intros st' Hit; by apply H3|]. by apply H5.
Defined.

Lemma budgets_respected_witness :
  toy_reachable (toy_state 2) /\ toy_iter (toy_state 2) (toy_state 3) /\
  depth (toy_state 2) <= 4 /\ eval (toy_state 2) <= 7 /\
  (depth (toy_state 3) = depth (toy_state 2) - 1 \/
   depth (toy_state 3) = depth (toy_state 2) /\ stopping (toy_state 3) = true).
Proof.
  assert (Hr : toy_reachable (toy_state 2)) by (apply toy_reachable_at; lia).
  assert (Hit : toy_iter (toy_state 2) (toy_state 3)) by (apply toy_iter_at; lia).
  destruct (budgets_respected f_id (pt 0) (pt 8) 10 1 1 7 4 0 8 (toy_state 2) Hr)
    as (H1 & _ & H3).
  destruct (H3 (toy_state 3) Hit) as (_ & _ & H6).
  split; [exact Hr|]. split; [exact Hit|]. split; [exact H1|].
  split; [vm_compute; congruence|]. apply H6. vm_compute. congruence.
Defined.

Lemma accept_iff_witness :
  toy_reachable (toy_state 3) /\ 1 <= depth (toy_state 3) /\
  exists x y v,
    slot (toy_state 3) (depth (toy_state 3) - 1) = Some (x, y, v) /\
    (toy_step (toy_state 3) = Some (accept 8 (toy_state 3) v) <->
     mag_cmp (mag_hypot (arb_radref (acb_realref v))
                        (arb_radref (acb_imagref v)))
             (new_tol (toy_state 3)) < 0 \/
     acb_contains_zero (acb_sub x y 8) = true \/
     stopping (toy_state 3) = true).
Proof.
  assert (Hr : toy_reachable (toy_state 3)) by (apply toy_reachable_at; lia).
  assert (Hd : 1 <= depth (toy_state 3)) by (vm_compute; congruence).
  destruct (accept_iff f_id (pt 0) (pt 8) 10 1 1 7 4 0 8 (toy_state 3) Hr Hd)
    as (x & y & v & Hs & _ & _ & Hiff & _).
  { intros [Hs _]. vm_compute in Hs. discriminate. }
  split; [exact Hr|]. split; [exact Hd|]. exists x, y, v. split; assumption.
Defined.

Lemma new_tol_monotone_witness :
  toy_reachable (toy_state 0) /\ rtc toy_iter (toy_state 0) (toy_state 2) /\
  mag_cmp (new_tol (toy_state 0)) (new_tol (toy_state 2)) <= 0.
Proof.
  assert (Hr : toy_reachable (toy_state 0)) by (apply toy_reachable_at; lia).
  assert (Hsteps : rtc toy_iter (toy_state 0) (toy_state 2)).
  { eapply rtc_l; [apply toy_iter_at; lia|].
    eapply rtc_l; [apply toy_iter_at; lia|]. apply rtc_refl. }
  split; [exact Hr|]. split; [exact Hsteps|].
  apply (new_tol_monotone f_id (pt 0) (pt 8) 10 1 1 7 4 0 8
           (toy_state 0) (toy_state 2) Hr Hsteps).
Defined.

Lemma quad_simple_spec_witness :
  quad_simple f_id (pt 0) (pt 8) 8 =
    (mkc (mk 32 32) (mk 0 0), [Ev_f (mkc (mk 4 4) (mk 0 0)) 0 8]) /\
  (acb_contains (mkc (mk 4 4) (mk 0 0)) (3%R, 0%R) ->
   acb_contains (fst (quad_simple f_id (pt 0) (pt 8) 8))
     (Cmul (3%R, 0%R) (Csub (8%R, 0%R) (0%R, 0%R)))).
Proof.
  destruct (quad_simple_spec f_id (pt 0) (pt 8) 8) as [H1 H2].
  split; [exact H1|].
  intros Hc. apply (H2 (3%R, 0%R) (0%R, 0%R) (8%R, 0%R)).
  - exact Hc.
  - apply (pt_contains 0).
  - apply (pt_contains 8).
Defined.

Lemma sq_reachable_0 : sq_reachable (sq_state 0).
Proof. apply reachable_init. vm_compute. reflexivity. Qed.

Lemma sq_iter_0 : sq_iter (sq_state 0) (sq_state 1).
Proof. split; [vm_compute; congruence|vm_compute; reflexivity]. Qed.

(** Two bisections: one whose children have equal radii, where the
    right child stays on top, and the first bisection of [z * z] from 8
    to 0, where the left child [8, 4] has radius 112, the right child
    [4, 0] radius 48, and the records are swapped. *)
Lemma larger_error_first_witness :
  (toy_reachable (toy_state 1) /\ toy_iter (toy_state 1) (toy_state 2) /\
   depth (toy_state 2) = depth (toy_state 1) + 1 /\
   exists top below,
     slot (toy_state 2) (depth (toy_state 2) - 1) = Some top /\
     slot (toy_state 2) (depth (toy_state 2) - 2) = Some below /\
     0 <= mag_cmp (mag_radius (snd top)) (mag_radius (snd below))) /\
  sq_reachable (sq_state 0) /\ sq_iter (sq_state 0) (sq_state 1) /\
  depth (sq_state 1) = depth (sq_state 0) + 1 /\
  mag_radius (fst (quad_simple f_sq (pt 8) (pt 4) 8)) = 112 /\
  mag_radius (fst (quad_simple f_sq (pt 4) (pt 0) 8)) = 48 /\
  0 < mag_cmp (mag_radius (fst (quad_simple f_sq (pt 8) (pt 4) 8)))
              (mag_radius (fst (quad_simple f_sq (pt 4) (pt 0) 8))) /\
  slot (sq_state 1) (depth (sq_state 1) - 1)
    = Some (pt 8, pt 4, fst (quad_simple f_sq (pt 8) (pt 4) 8)) /\
  slot (sq_state 1) (depth (sq_state 1) - 2)
    = Some (pt 4, pt 0, fst (quad_simple f_sq (pt 4) (pt 0) 8)).
Proof.
  split.
  { assert (Hr : toy_reachable (toy_state 1)) by (apply toy_reachable_at; lia).
    assert (Hit : toy_iter (toy_state 1) (toy_state 2))
      by (apply toy_iter_at; lia).
    assert (Hd : depth (toy_state 2) = depth (toy_state 1) + 1) by reflexivity.
    destruct (larger_error_first f_id (pt 0) (pt 8) 10 1 1 7 4 0 8
                (toy_state 1) (toy_state 2) Hr Hit Hd)
      as (x & y & v & _ & _ & _ & top & below & Ht & Hb & Hcmp & _).
    split; [exact Hr|]. split; [exact Hit|]. split; [exact Hd|].
    exists top, below. split; [exact Ht|]. split; [exact Hb|]. exact Hcmp. }
  assert (Hr : sq_reachable (sq_state 0)) by exact sq_reachable_0.
  assert (Hit : sq_iter (sq_state 0) (sq_state 1)) by exact sq_iter_0.
  assert (Hd : depth (sq_state 1) = depth (sq_state 0) + 1) by reflexivity.
  assert (Hgt : 0 < mag_cmp (mag_radius (fst (quad_simple f_sq (pt 8) (pt 4) 8)))
                      (mag_radius (fst (quad_simple f_sq (pt 4) (pt 0) 8))))
    by (vm_compute; reflexivity).
  destruct (larger_error_first f_sq (pt 8) (pt 0) 10 1 1 7 4 0 8
              (sq_state 0) (sq_state 1) Hr Hit Hd)
    as (x & y & v & Hs & Hswap & _).
  assert (Hxy : x = pt 8 /\ y = pt 0).
  { vm_compute in Hs. inversion Hs. split; reflexivity. }
  destruct Hxy as [-> ->].
  destruct (Hswap Hgt) as [Htop Hbelow].
  split; [exact Hr|]. split; [exact Hit|]. split; [exact Hd|].
  split; [reflexivity|]. split; [reflexivity|]. split; [exact Hgt|].
  split; [exact Htop|exact Hbelow].
Defined.

Lemma limits_resolved_witness :
  is_slong (2 * 8) /\ is_slong (1000 * 8) /\ 7 <= 2 ^ 53 - 20 /\
  resolve_depth_limit 0 8 = 16 /\ resolve_eval_limit 0 8 = 8000 /\
  unclamped_defaults 0 0 8 /\
  resolve_goal (-3) = 0 /\ resolve_deg_limit 0 (resolve_goal 7) = 13 /\
  resolve_depth_limit 4 8 = 4.
Proof.
  assert (Hd : is_slong (2 * 8)) by (unfold is_slong, WORD_MIN, WORD_MAX; lia).
  assert (He : is_slong (1000 * 8))
    by (unfold is_slong, WORD_MIN, WORD_MAX; lia).
  assert (Hg : 7 <= 2 ^ 53 - 20) by lia.
  destruct (limits_resolved f_id (pt 0) (pt 8) 1 (-3) 0 0 0 0 8 0)
    as (H1 & H2 & H3 & H4 & _).
  destruct (limits_resolved f_id (pt 0) (pt 8) 1 7 0 0 4 0 8 0)
    as (_ & _ & _ & _ & H5 & H6 & _).
  split; [exact Hd|]. split; [exact He|]. split; [exact Hg|].
  split; [apply H1; [lia|exact Hd]|]. split; [apply H2; [lia|exact He]|].
  split; [apply H3; [lia|exact He]|]. split; [exact H4|].
  split; [apply H5; [lia|exact Hg]|]. apply H6; lia.
Defined.


Lemma stack_accesses_in_bounds_witness :
  toy_reachable (toy_state 2) /\
  length (as_ (toy_state 2)) = 4%nat /\
  0 <= depth (toy_state 2) <= 3 /\
  exists st',
    toy_step (toy_state 2) = Some st' /\
    (depth st' = depth (toy_state 2) + 1 -> depth (toy_state 2) <= 2).
Proof.
  assert (Hr : toy_reachable (toy_state 2)) by (apply toy_reachable_at; lia).
  destruct (stack_accesses_in_bounds f_id (pt 0) (pt 8) 10 1 1 7 4 0 8
              (toy_state 2) Hr)
    as (_ & _ & Hla & _ & _ & Hd & _ & Hstep).
  split; [exact Hr|]. split; [exact Hla|]. split; [exact Hd|].
  destruct Hstep as (st' & Hst & Hgrow & _); [vm_compute; congruence|].
  exists st'. split; [exact Hst|exact Hgrow].
Defined.

End ToyWitness.

(** * Further properties of the driver *)

Section MoreRunFacts.
Context {arf mag : Type} `{!BallOps arf mag} `{!AcbCalc arf mag}.
Variable f : acb_calc_func_t arf mag.
Variables a b : acb arf mag.
Variable goal : Z.
Variable tol : mag.
Variables deg_limit eval_limit depth_limit flags prec : Z.
Implicit Types (st : @state arf mag).

Local Abbreviation goal' := (resolve_goal goal).
Local Abbreviation deg' := (resolve_deg_limit deg_limit (resolve_goal goal)).
Local Abbreviation el' := (resolve_eval_limit eval_limit prec).
Local Abbreviation dl' := (resolve_depth_limit depth_limit prec).
Local Abbreviation reachable' :=
  (reachable f a b goal tol deg_limit eval_limit depth_limit flags prec).
Local Abbreviation iter' :=
  (iter f goal deg_limit eval_limit depth_limit flags prec).
Local Abbreviation body' := (body f goal' deg' el' dl' flags prec).

#[local] Opaque quad_simple.

(** The initial state, by fields. *)
Lemma run_init_fields st0 :
  run_init f a b goal tol depth_limit prec = Some st0 ->
  s st0 = acb_zero /\ depth st0 = 1 /\ depth_max st0 = 1 /\ eval st0 = 1 /\
  stopping st0 = false /\
  trace st0 = [Ev_f (quad_wide a b prec) 0 prec] /\
  slot st0 0 = Some (a, b, fst (quad_simple f a b prec)).
Proof.
  unfold run_init.
  rewrite init_state_eq by apply resolve_depth_limit_pos.
  intros E. inversion E. simpl. repeat split.
  pose proof (resolve_depth_limit_pos depth_limit prec).
  unfold slot. simpl. rewrite !(rd_insert_eq _ 0) by arr_len. reflexivity.
Qed.

Lemma declined_trace st x y v e' tr' :
  declined f deg' flags prec st x y v e' tr' ->
  (tr' = trace st /\ e' = eval st) \/
  (tr' = trace st ++ [Ev_gl x y (new_tol st) deg' flags prec] /\
   e' = eval st +
     fst (acb_calc_integrate_gl_auto_deg f x y (new_tol st) deg' flags prec)).
Proof.
  unfold declined. destruct (acb_is_finite v).
  - intros (_ & -> & ->). by right.
  - intros (-> & ->). by left.
Qed.

(** The high-water mark dominates the stack height. *)
Lemma reachable_depth_max st :
  reachable' st ->
  1 <= depth_max st /\ depth st <= depth_max st
  /\ depth_max st <= Z.max 1 (dl' - 1).
Proof.
  induction 1 as [st0 H0 | st st' Hr IH Hit].
  - destruct (run_init_fields st0 H0) as (_ & -> & -> & _). lia.
  - pose proof (reachable_body _ _ _ _ _ _ _ _ _ _ _ _ Hr Hit) as Hb.
    destruct Hit as [Hd _].
    destruct Hb; rewrite ?accept_gl_eq; simpl; try lia.
    match goal with H : bisected _ _ _ _ _ _ _ _ _ |- _ =>
      destruct H as (_ & _ & _ & _ & _ & _ & _ & _ & Ed & Em & _) end.
    rewrite Ed, Em, FLINT_MAX_spec. lia.
Qed.

Lemma body_depth_max st st' : body' st st' -> depth_max st <= depth_max st'.
Proof.
  intros Hb. destruct Hb; rewrite ?accept_gl_eq; simpl; try lia.
  match goal with H : bisected _ _ _ _ _ _ _ _ _ |- _ =>
    destruct H as (_ & _ & _ & _ & _ & _ & _ & _ & Ed & Em & _) end.
  rewrite Em, FLINT_MAX_spec. lia.
Qed.

(** The loop, when it ends, ends in a state of the run. *)
Lemma loop_reachable n : forall st st',
  reachable' st ->
  run_loop f goal deg_limit eval_limit depth_limit flags prec n st = Done st' ->
  reachable' st' /\ rtc iter' st st' /\ depth st' = 0.
Proof.
  unfold run_loop. induction n as [|n IH]; intros st st' Hr; simpl.
  - destruct (Z.geb_spec (depth st) 1) as [Hd|Hd]; [discriminate|].
    intros E. inversion E. subst st'.
    pose proof (reachable_wf _ _ _ _ _ _ _ _ _ _ _ Hr) as (_ & _ & _ & _ & Hrg).
    repeat split; auto; [apply rtc_refl|lia].
  - destruct (Z.geb_spec (depth st) 1) as [Hd|Hd].
    + destruct (step f goal' deg' el' dl' flags prec st) as [st1|] eqn:Hst;
        [|discriminate].
      intros Hl.
      assert (Hit : iter' st st1) by (by split).
      destruct (IH st1 st') as (Hr' & Hsteps & Hd'); auto.
      { by eapply reachable_iter. }
      repeat split; auto. by eapply rtc_l.
    + intros E. inversion E. subst st'.
      pose proof (reachable_wf _ _ _ _ _ _ _ _ _ _ _ Hr) as (_ & _ & _ & _ & Hrg).
      repeat split; auto; [apply rtc_refl|lia].
Qed.

(** With a high-order rule whose counts are not negative the call
    returns, from a final state of the run. *)
Lemma call_returns :
  GlContract arf mag ->
  exists st, reachable' st /\ depth st = 0 /\
    acb_calc_integrate f a b goal tol deg_limit eval_limit depth_limit flags prec
      = Done (s st, final_trace st dl' el' flags).
Proof.
  intros Hgl. unfold acb_calc_integrate, acb_calc_integrate_fuel. cbv zeta.
  pose proof (resolve_depth_limit_pos depth_limit prec) as Hdl.
  pose proof (resolve_eval_limit_pos eval_limit prec) as Hel.
  destruct (init_state f a b goal' tol dl' prec) as [st0|] eqn:E0.
  2:{ rewrite init_state_eq in E0 by assumption. discriminate. }
  assert (Hr0 : reachable' st0) by (by apply reachable_init).
  destruct (loop_done f goal deg_limit eval_limit depth_limit flags prec
              (iteration_bound el') st0) as (st' & Hl & Hd & Hsteps).
  - by eapply run_init_wf.
  - rewrite init_state_eq in E0 by assumption. inversion E0.
    unfold variant, iteration_bound. simpl. lia.
  - destruct (loop_reachable _ st0 st' Hr0 Hl) as (Hr' & _ & _).
    unfold run_loop in Hl. rewrite Hl. eauto.
Qed.


(** X2: the refinement is given up only when a budget is reached: in a
    state with [stopping] set, [eval >= eval_limit - 1] or the stack has
    been as high as [depth_limit - 1]. *)
Theorem stopping_means_budget st :
  reachable' st -> stopping st = true ->
  resolve_eval_limit eval_limit prec - 1 <= eval st \/
  resolve_depth_limit depth_limit prec - 1 <= depth_max st.
Proof.
  induction 1 as [st0 H0 | st st' Hr IH Hit].
  - destruct (run_init_fields st0 H0) as (_ & _ & _ & _ & -> & _). discriminate.
  - pose proof (reachable_body _ _ _ _ _ _ _ _ _ _ _ _ Hr Hit) as Hb.
    destruct (reachable_depth_max st Hr) as (_ & Hdm & _).
    destruct Hb as [Hhit|x y v Hs _ Hacc|x y v Hs Hbud Hacc _ Hpos
                   |x y v e' tr' _ Hbud Hacc Hdec Hge
                   |x y v e' tr' st' _ Hbud Hacc Hdec Hlt Hpost].
    + intros _. left. unfold budget_hit in Hhit.
      apply andb_true_iff in Hhit as [_ He]. simpl.
      rewrite Z.geb_leb in He. by apply Z.leb_le in He.
    + simpl. exact IH.
    + destruct (not_accepted _ _ _ _ _ _ Hbud Hacc) as [Hs0 _].
      rewrite accept_gl_eq. simpl. congruence.
    + intros _. right. simpl. lia.
    + destruct (not_accepted _ _ _ _ _ _ Hbud Hacc) as [Hs0 _].
      destruct Hpost as (_ & _ & _ & _ & _ & _ & _ & _ & _ & _ & _ & Es & _).
      congruence.
Qed.

(** X3: an iteration reads and writes the record on top only: the
    records below it and the lengths of the arrays are left as they
    are. *)
Theorem records_below_untouched st st' :
  reachable' st -> iter' st st' ->
  length (as_ st') = length (as_ st) /\
  length (bs st') = length (bs st) /\
  length (vs st') = length (vs st) /\
  forall i, 0 <= i < depth st - 1 -> slot st' i = slot st i.
Proof.
  intros Hr Hit.
  pose proof (reachable_body _ _ _ _ _ _ _ _ _ _ _ _ Hr Hit) as Hb.
  destruct Hb; rewrite ?accept_gl_eq; unfold slot; simpl; auto.
  match goal with H : bisected _ _ _ _ _ _ _ _ _ |- _ =>
    destruct H as (Ea & Eb & Ev & Hold & _) end.
  auto.
Qed.

Lemma trace_evals_app tr1 tr2 :
  trace_evals f (tr1 ++ tr2) = trace_evals f tr1 + trace_evals f tr2.
Proof.
  induction tr1 as [|e tr1 IH]; simpl; [reflexivity|].
  unfold trace_evals in *. simpl. rewrite IH. lia.
Qed.

Lemma reachable_eval_trace st :
  reachable' st -> eval st = trace_evals f (trace st).
Proof.
  induction 1 as [st0 H0 | st st' Hr IH Hit].
  - destruct (run_init_fields st0 H0) as (_ & _ & _ & -> & _ & -> & _).
    reflexivity.
  - pose proof (reachable_body _ _ _ _ _ _ _ _ _ _ _ _ Hr Hit) as Hb.
    destruct Hb as [Hhit|x y v Hs _ Hacc|x y v Hs Hbud Hacc _ Hpos
                   |x y v e' tr' _ Hbud Hacc Hdec Hge
                   |x y v e' tr' st' _ Hbud Hacc Hdec Hlt Hpost];
      rewrite ?accept_gl_eq; simpl.
    + rewrite trace_evals_app, <- IH. destruct (verbose flags); simpl; lia.
    + exact IH.
    + rewrite trace_evals_app, <- IH. simpl. lia.
    + rewrite trace_evals_app.
      destruct (declined_trace _ _ _ _ _ _ Hdec) as [[-> ->]|[-> ->]];
        rewrite ?trace_evals_app, <- IH;
        destruct (verbose flags); simpl; lia.
    + destruct Hpost as (_ & _ & _ & _ & _ & _ & _ & _ & _ & _ & -> & _ & ->).
      rewrite trace_evals_app.
      destruct (declined_trace _ _ _ _ _ _ Hdec) as [[-> ->]|[-> ->]];
        rewrite ?trace_evals_app, <- IH; simpl; lia.
Qed.

(** The direct calls are among the evaluations counted. *)
Lemma trace_evals_direct tr :
  GlContract arf mag ->
  Z.of_nat (length (List.filter is_Ev_f tr)) <= trace_evals f tr.
Proof.
  intros Hgl. induction tr as [|e tr IH]; [reflexivity|].
  change (trace_evals f (e :: tr)) with (event_evals f e + trace_evals f tr).
  destruct e as [x o p|x y t d fl p|fmt args]; simpl.
  - lia.
  - pose proof (gl_nonneg f x y t d fl p). lia.
  - lia.
Qed.

(** X4: [eval] is the number of evaluations of the integrand the events
    of the run account for: one for each direct call and, for each call
    of the high-order rule, the count it returned.  With counts that are
    not negative the direct calls are at most [eval], and at most
    [eval_limit]: what takes [eval] beyond the limit is the count of one
    call of the high-order rule, never a bisection. *)
Theorem eval_counts_evaluations st :
  reachable' st ->
  eval st = trace_evals f (trace st) /\
  (GlContract arf mag ->
   Z.of_nat (length (List.filter is_Ev_f (trace st))) <= Z.min (eval st) el').
Proof.
  intros Hr. split; [by apply reachable_eval_trace|]. intros Hgl.
  apply Z.min_glb.
  { rewrite (reachable_eval_trace st Hr). by apply trace_evals_direct. }
  induction Hr as [st0 H0 | st st' Hr IH Hit].
  - destruct (run_init_fields st0 H0) as (_ & _ & _ & _ & _ & -> & _).
    pose proof (resolve_eval_limit_pos eval_limit prec). simpl. lia.
  - pose proof (reachable_body _ _ _ _ _ _ _ _ _ _ _ _ Hr Hit) as Hb.
    destruct Hit as [Hd _].
    destruct (Z.le_gt_cases (depth st') (depth st)) as [Hle|Hgt].
    { by rewrite (body_f_calls _ _ _ _ _ _ _ _ _ Hb Hle). }
    pose proof (reachable_eval_trace st Hr) as He.
    pose proof (trace_evals_direct (trace st) Hgl) as Hdir.
    destruct Hb as [Hhit|x y v Hs _ Hacc|x y v Hs Hbud Hacc _ Hpos
                   |x y v e' tr' _ Hbud Hacc Hdec Hge
                   |x y v e' tr' st' _ Hbud Hacc Hdec Hlt Hpost];
      rewrite ?accept_gl_eq in Hgt; simpl in Hgt; try lia.
    destruct (not_accepted _ _ _ _ _ _ Hbud Hacc) as [_ Hev].
    destruct Hpost as (_ & _ & _ & _ & _ & _ & _ & _ & _ & _ & _ & _ & ->).
    rewrite List.filter_app, length_app. simpl.
    destruct (declined_trace _ _ _ _ _ _ Hdec) as [[-> _]|[-> _]];
      rewrite ?List.filter_app, ?length_app; simpl; lia.
Qed.

(** X5: the integrand is only ever asked for its plain value (derivative
    order 0) at the working precision, the high-order rule is only called
    with the resolved degree limit, the flags and the precision of the
    call, and nothing is printed unless the verbose bit is set; a call
    that returns has printed at most a stopping line and the summary. *)
Theorem events_as_expected st :
  reachable' st ->
  Forall (event_expected deg' flags prec) (trace st) /\
  length (List.filter is_Ev_printf (trace st))
    = (if stopping st && verbose flags then 1%nat else 0%nat) /\
  length (List.filter is_Ev_printf (final_trace st dl' el' flags))
    = ((if stopping st && verbose flags then 1 else 0)
       + (if verbose flags then 1 else 0))%nat.
Proof.
  intros Hr.
  assert (H12 : Forall (event_expected deg' flags prec) (trace st) /\
    length (List.filter is_Ev_printf (trace st))
      = (if stopping st && verbose flags then 1%nat else 0%nat)).
  { induction Hr as [st0 H0 | st st' Hr IH Hit].
    - destruct (run_init_fields st0 H0) as (_ & _ & _ & _ & -> & -> & _).
      split; [|reflexivity]. repeat constructor.
    - pose proof (reachable_body _ _ _ _ _ _ _ _ _ _ _ _ Hr Hit) as Hb.
      destruct IH as [IH1 IH2].
      destruct Hb as [Hhit|x y v Hs _ Hacc|x y v Hs Hbud Hacc _ Hpos
                     |x y v e' tr' _ Hbud Hacc Hdec Hge
                     |x y v e' tr' st' _ Hbud Hacc Hdec Hlt Hpost];
        rewrite ?accept_gl_eq; simpl.
      + unfold budget_hit in Hhit. apply andb_true_iff in Hhit as [Hs0 _].
        apply negb_true_iff in Hs0. rewrite Hs0 in IH2. simpl in IH2.
        rewrite List.filter_app, length_app, IH2. split.
        * apply Forall_app. split; [exact IH1|].
          destruct (verbose flags) eqn:Hv; repeat constructor. exact Hv.
        * destruct (verbose flags); reflexivity.
      + by split.
      + destruct (not_accepted _ _ _ _ _ _ Hbud Hacc) as [Hs0 _].
        rewrite Hs0 in *. simpl in *.
        rewrite List.filter_app, length_app, IH2. split; [|reflexivity].
        apply Forall_app. split; [exact IH1|]. repeat constructor.
      + destruct (not_accepted _ _ _ _ _ _ Hbud Hacc) as [Hs0 _].
        rewrite Hs0 in *. simpl in *.
        assert (Htr : Forall (event_expected deg' flags prec) tr' /\
                      length (List.filter is_Ev_printf tr') = 0%nat).
        { destruct (declined_trace _ _ _ _ _ _ Hdec) as [[-> _]|[-> _]].
          - by split.
          - rewrite List.filter_app, length_app, IH2. split; [|reflexivity].
            apply Forall_app. split; [exact IH1|]. repeat constructor. }
        destruct Htr as [Htr1 Htr2].
        rewrite List.filter_app, length_app, Htr2. split.
        * apply Forall_app. split; [exact Htr1|].
          destruct (verbose flags) eqn:Hv; repeat constructor. exact Hv.
        * destruct (verbose flags); reflexivity.
      + destruct (not_accepted _ _ _ _ _ _ Hbud Hacc) as [Hs0 _].
        rewrite Hs0 in *. simpl in *.
        destruct Hpost as (_ & _ & _ & _ & _ & _ & _ & _ & _ & _ & _ & -> & ->).
        rewrite Hs0. simpl.
        assert (Htr : Forall (event_expected deg' flags prec) tr' /\
                      length (List.filter is_Ev_printf tr') = 0%nat).
        { destruct (declined_trace _ _ _ _ _ _ Hdec) as [[-> _]|[-> _]].
          - by split.
          - rewrite List.filter_app, length_app, IH2. split; [|reflexivity].
            apply Forall_app. split; [exact IH1|]. repeat constructor. }
        destruct Htr as [Htr1 Htr2].
        rewrite List.filter_app, length_app, Htr2. split; [|reflexivity].
        apply Forall_app. split; [exact Htr1|]. repeat constructor. }
  destruct H12 as [H1 H2]. split; [exact H1|]. split; [exact H2|].
  unfold final_trace. rewrite List.filter_app, length_app, H2.
  destruct (verbose flags); reflexivity.
Qed.

(** X6: every record on the stack carries the value of the direct rule
    on its own endpoints. *)
Theorem records_are_direct_estimates st :
  reachable' st ->
  forall i x y v, 0 <= i < depth st -> slot st i = Some (x, y, v) ->
    v = fst (quad_simple f x y prec).
Proof.
  induction 1 as [st0 H0 | st st' Hr IH Hit].
  - destruct (run_init_fields st0 H0) as (_ & Hd & _ & _ & _ & _ & Hs).
    intros i x y v Hi. rewrite Hd in Hi. assert (i = 0) as -> by lia.
    rewrite Hs. intros E. by inversion E.
  - pose proof (reachable_body _ _ _ _ _ _ _ _ _ _ _ _ Hr Hit) as Hb.
    destruct Hb as [Hhit|x0 y0 v0 Hs _ Hacc|x0 y0 v0 Hs Hbud Hacc _ Hpos
                   |x0 y0 v0 e' tr' _ Hbud Hacc Hdec Hge
                   |x0 y0 v0 e' tr' st' Hs Hbud Hacc Hdec Hlt Hpost];
      rewrite ?accept_gl_eq; intros i x y v; unfold slot at 1; simpl;
      try (intros Hi; apply IH; lia).
    destruct Hpost as (_ & _ & _ & Hold & Hbelow & Htop & _ & _ & Ed & _).
    intros Hi. rewrite Ed in Hi. fold (slot st' i).
    destruct (Z.lt_trichotomy i (depth st - 1)) as [Hlt'|[->|Hgt]].
    + rewrite Hold by lia. apply IH. lia.
    + rewrite Hbelow. intros E.
      destruct (mag_cmp _ _ >? 0); by inversion E.
    + assert (i = depth st) as -> by lia. rewrite Htop. intros E.
      destruct (mag_cmp _ _ >? 0); by inversion E.
Qed.

(** X7: the summary line of a verbose call is accurate: the call ends
    with the line that reports [depth_max], the resolved limits and
    [eval]; the [eval] it reports is the number of evaluations of the
    integrand the calls before it account for, and the [depth_max] it
    reports is between 1 and [max(1, depth_limit - 1)]. *)
Theorem summary_line_is_accurate `{!GlContract arf mag} :
  verbose flags = true ->
  exists res tr dm ev,
    acb_calc_integrate f a b goal tol deg_limit eval_limit depth_limit
      flags prec
    = Done (res, tr ++ [Ev_printf "depth %wd/%wd, eval %wd/%wd\n"
                          [dm; dl'; ev; el']]) /\
    ev = trace_evals f tr /\
    1 <= dm <= Z.max 1 (dl' - 1).
Proof.
  intros Hv.
  destruct (call_returns _) as (st & Hr & _ & ->).
  destruct (reachable_depth_max st Hr) as (H1 & _ & H3).
  exists (s st), (trace st), (depth_max st), (eval st).
  unfold final_trace. rewrite Hv.
  split; [reflexivity|]. split; [by apply reachable_eval_trace|]. lia.
Qed.

End MoreRunFacts.

(** ** Real integrands on real intervals *)

Section Realness.
Context {arf mag : Type} `{!BallOps arf mag} `{!AcbCalc arf mag}.
Context `{!RealLaws arf mag}.
Variable f : acb_calc_func_t arf mag.
Hypothesis f_real : integrand_real f.
Implicit Types (st : @state arf mag) (a b v : acb arf mag).

Lemma bisect_mid_real a b prec :
  acb_is_real a = true -> acb_is_real b = true ->
  acb_is_real (bisect_mid a b prec) = true.
Proof.
  intros Ha Hb. unfold bisect_mid.
  by apply acb_is_real_mul_2exp_si, acb_is_real_add.
Qed.

Lemma quad_delta_real a b prec :
  acb_is_real a = true -> acb_is_real b = true ->
  acb_is_real (quad_delta a b prec) = true.
Proof.
  intros Ha Hb. unfold quad_delta.
  by apply acb_is_real_mul_2exp_si, acb_is_real_sub.
Qed.

Lemma quad_wide_real a b prec :
  acb_is_real a = true -> acb_is_real b = true ->
  acb_is_real (quad_wide a b prec) = true.
Proof.
  intros Ha Hb. unfold quad_wide, set_imagref, set_realref. simpl.
  apply acb_is_real_inflate.
  - by apply bisect_mid_real.
  - by apply quad_delta_real.
Qed.

Lemma quad_simple_real a b prec :
  acb_is_real a = true -> acb_is_real b = true ->
  acb_is_real (fst (quad_simple f a b prec)) = true.
Proof.
  intros Ha Hb. rewrite quad_simple_value.
  apply acb_is_real_mul_2exp_si, acb_is_real_mul.
  - by apply f_real, quad_wide_real.
  - by apply quad_delta_real.
Qed.

#[local] Opaque quad_simple.

Lemma child_real a b prec x y v :
  acb_is_real a = true -> acb_is_real b = true ->
  (x, y, v) = left_child f a b prec \/ (x, y, v) = right_child f a b prec ->
  acb_is_real x = true /\ acb_is_real y = true /\ acb_is_real v = true.
Proof.
  intros Ha Hb [E|E]; inversion E; subst;
    auto using bisect_mid_real, quad_simple_real.
Qed.

Variables a b : acb arf mag.
Variable goal : Z.
Variable tol : mag.
Variables deg_limit eval_limit depth_limit flags prec : Z.
Hypothesis a_real : acb_is_real a = true.
Hypothesis b_real : acb_is_real b = true.

Local Abbreviation reachable' :=
  (reachable f a b goal tol deg_limit eval_limit depth_limit flags prec).

Lemma reachable_all_real st : reachable' st -> all_real st.
Proof.
  induction 1 as [st0 H0 | st st' Hr IH Hit].
  - destruct (run_init_fields _ _ _ _ _ _ _ st0 H0)
      as (Hs & Hd & _ & _ & _ & _ & Hslot).
    split; [rewrite Hs; apply acb_is_real_zero|].
    intros i x y v Hi. rewrite Hd in Hi. assert (i = 0) as -> by lia.
    rewrite Hslot. intros E. inversion E. subst.
    auto using quad_simple_real.
  - pose proof (reachable_body _ _ _ _ _ _ _ _ _ _ _ _ Hr Hit) as Hb.
    destruct Hit as [Hd _]. destruct IH as [IHs IHr].
    destruct Hb as [Hhit|x0 y0 v0 Hs _ Hacc|x0 y0 v0 Hs Hbud Hacc Hfin Hpos
                   |x0 y0 v0 e' tr' _ Hbud Hacc Hdec Hge
                   |x0 y0 v0 e' tr' st' Hs Hbud Hacc Hdec Hlt Hpost].
    + split; [exact IHs|]. intros i x y v Hi. apply IHr. exact Hi.
    + destruct (IHr (depth st - 1) x0 y0 v0 ltac:(lia) Hs) as (_ & _ & Hv).
      split; [simpl; by apply acb_is_real_add|].
      intros i x y v Hi. apply IHr. simpl in Hi. lia.
    + destruct (IHr (depth st - 1) x0 y0 v0 ltac:(lia) Hs) as (_ & _ & Hv).
      rewrite accept_gl_eq. split.
      * simpl. rewrite Hfin, Hv. simpl.
        apply acb_is_real_add; [exact IHs|apply acb_is_real_imag_zero].
      * intros i x y v Hi. apply IHr. simpl in Hi. lia.
    + split; [exact IHs|]. intros i x y v Hi. apply IHr. exact Hi.
    + destruct (IHr (depth st - 1) x0 y0 v0 ltac:(lia) Hs) as (Hx0 & Hy0 & _).
      destruct Hpost as (_ & _ & _ & Hold & Hbelow & Htop & Es & _ & Ed & _).
      split; [by rewrite Es|].
      intros i x y v Hi. rewrite Ed in Hi.
      destruct (Z.lt_trichotomy i (depth st - 1)) as [Hlt'|[->|Hgt]].
      * rewrite Hold by lia. apply IHr. lia.
      * rewrite Hbelow. intros E. apply (child_real x0 y0 prec); auto.
        destruct (mag_cmp _ _ >? 0); inversion E; auto.
      * assert (i = depth st) as -> by lia. rewrite Htop. intros E.
        apply (child_real x0 y0 prec); auto.
        destruct (mag_cmp _ _ >? 0); inversion E; auto.
Qed.

(** X8: for an integrand that maps real balls to real balls and real
    endpoints the call returns a real ball, whatever the high-order rule
    returns: the sum and every record on the stack are real throughout
    the run, and the value of a successful high-order attempt has its
    imaginary part set to zero before it is added. *)
Theorem real_in_real_out `{!GlContract arf mag} :
  (forall st, reachable' st -> all_real st) /\
  exists res tr,
    acb_calc_integrate f a b goal tol deg_limit eval_limit depth_limit
      flags prec = Done (res, tr) /\
    acb_is_real res = true.
Proof.
  split; [exact reachable_all_real|].
  destruct (call_returns f a b goal tol deg_limit eval_limit depth_limit
              flags prec _) as (st & Hr & _ & ->).
  eexists _, _. split; [reflexivity|].
  by destruct (reachable_all_real st Hr).
Qed.

End Realness.

(** ** The flags *)

Section Flags.
Context {arf mag : Type} `{!BallOps arf mag} `{!AcbCalc arf mag}.
Variable f : acb_calc_func_t arf mag.
Variables flags1 flags2 : Z.
Hypothesis gl_flags : forall x y t d p,
  acb_calc_integrate_gl_auto_deg f x y t d flags1 p
  = acb_calc_integrate_gl_auto_deg f x y t d flags2 p.
Implicit Types (st : @state arf mag).

Lemma calls_of_app (tr1 tr2 : list (event arf mag)) :
  calls_of (tr1 ++ tr2) = calls_of tr1 ++ calls_of tr2.
Proof. apply omap_app. Qed.

#[local] Opaque quad_simple.

(** An iteration does the same under both flags. *)
Lemma step_flags goal deg_limit eval_limit depth_limit prec st1 st2 :
  same_run st1 st2 ->
  option_Forall2 same_run
    (step f goal deg_limit eval_limit depth_limit flags1 prec st1)
    (step f goal deg_limit eval_limit depth_limit flags2 prec st2).
Proof.
  intros [Hc Ht]. destruct st1 as [a1 b1 v1 s1 t1 d1 m1 e1 p1 tr1].
  destruct st2 as [a2 b2 v2 s2 t2 d2 m2 e2 p2 tr2].
  unfold core in Hc. simpl in Hc, Ht. inversion Hc. subst. clear Hc.
  unfold step, bisect, accept_gl, stop_eval, stop_depth, accept. simpl.
  repeat match goal with
  | |- context [acb_calc_integrate_gl_auto_deg f _ _ _ _ flags1 _] =>
      rewrite gl_flags
  | |- option_Forall2 _ (Some _) (Some _) => constructor
  | |- option_Forall2 _ None None => constructor
  | |- context [mbind _ ?e] => destruct e eqn:?; simpl
  | |- option_Forall2 _ _ _ => case_match; simplify_eq/=
  end.
  all: repeat case_match; simplify_eq/=; unfold same_run, core; simpl;
    (split; [reflexivity|]);
    rewrite ?calls_of_app, ?Ht; simpl; reflexivity.
Qed.

Lemma loop_flags goal deg_limit eval_limit depth_limit prec n :
  forall st1 st2, same_run st1 st2 ->
  same_outcome
    (loop f goal deg_limit eval_limit depth_limit flags1 prec n st1)
    (loop f goal deg_limit eval_limit depth_limit flags2 prec n st2).
Proof.
  induction n as [|n IH]; intros st1 st2 Hsame.
  - simpl. assert (Hd : depth st1 = depth st2).
    { destruct Hsame as [Hc _]. unfold core in Hc. congruence. }
    rewrite Hd. destruct (depth st2 >=? 1); simpl; auto.
  - simpl. assert (Hd : depth st1 = depth st2).
    { destruct Hsame as [Hc _]. unfold core in Hc. congruence. }
    rewrite Hd. destruct (depth st2 >=? 1); simpl; auto.
    destruct (step_flags goal deg_limit eval_limit depth_limit prec
                st1 st2 Hsame) as [st1' st2' Hsame'|]; simpl; auto.
Qed.

Lemma call_flags a b goal tol deg_limit eval_limit depth_limit prec :
  same_result
    (acb_calc_integrate f a b goal tol deg_limit eval_limit depth_limit
       flags1 prec)
    (acb_calc_integrate f a b goal tol deg_limit eval_limit depth_limit
       flags2 prec).
Proof.
  unfold acb_calc_integrate, acb_calc_integrate_fuel. cbv zeta.
  destruct (init_state f a b _ tol _ prec) as [st0|]; simpl; [|exact I].
  pose proof (loop_flags (resolve_goal goal)
                (resolve_deg_limit deg_limit (resolve_goal goal))
                (resolve_eval_limit eval_limit prec)
                (resolve_depth_limit depth_limit prec) prec
                (iteration_bound (resolve_eval_limit eval_limit prec))
                st0 st0 (conj eq_refl eq_refl)) as Hl.
  destruct (loop f _ _ _ _ flags1 prec _ st0) as [st1| |];
    destruct (loop f _ _ _ _ flags2 prec _ st0) as [st2| |];
    simpl in *; try tauto.
  destruct Hl as [Hc Ht]. split.
  - unfold core in Hc. congruence.
  - unfold final_trace. rewrite !calls_of_app, Ht. f_equal.
    by destruct (verbose flags1), (verbose flags2).
Qed.

(** X9: the flags reach the high-order rule and the printing only: two
    calls that differ in their flags, with a high-order rule that answers
    the same under both, return the same ball after the same calls of the
    integrand and of the rule (in particular, the verbose bit changes
    nothing but the lines printed). *)
Theorem flags_do_not_change_the_result `{!GlContract arf mag}
    a b goal tol deg_limit eval_limit depth_limit prec :
  exists res tr1 tr2,
    acb_calc_integrate f a b goal tol deg_limit eval_limit depth_limit
      flags1 prec = Done (res, tr1) /\
    acb_calc_integrate f a b goal tol deg_limit eval_limit depth_limit
      flags2 prec = Done (res, tr2) /\
    calls_of tr1 = calls_of tr2.
Proof.
  pose proof (call_flags a b goal tol deg_limit eval_limit depth_limit prec)
    as Hsame.
  destruct (call_returns f a b goal tol deg_limit eval_limit depth_limit
              flags1 prec _) as (st & _ & _ & E1).
  rewrite E1 in Hsame |- *.
  destruct (acb_calc_integrate f a b goal tol deg_limit eval_limit depth_limit
              flags2 prec) as [[r2 t2]| |]; simpl in Hsame; try tauto.
  destruct Hsame as [E Hc]. rewrite <- E. eexists _, _, _. eauto.
Qed.

End Flags.

(** ** Calls that end after the first record *)

Section ShortRuns.
Context {arf mag : Type} `{!BallOps arf mag} `{!AcbCalc arf mag}.
Variable f : acb_calc_func_t arf mag.
Variables a b : acb arf mag.
Variable goal : Z.
Variable tol : mag.
Variables deg_limit eval_limit depth_limit flags prec : Z.

Local Abbreviation goal' := (resolve_goal goal).
Local Abbreviation deg' := (resolve_deg_limit deg_limit (resolve_goal goal)).
Local Abbreviation el' := (resolve_eval_limit eval_limit prec).
Local Abbreviation dl' := (resolve_depth_limit depth_limit prec).

#[local] Opaque quad_simple.

(** X10: when the evaluation limit is 1 or 2, or the radius of the
    direct estimate on the whole interval is below the initial tolerance
    [max(tol, lower(v0) * 2^-goal)], the call returns [0 + v0] after the
    one evaluation of the integrand that produced [v0]; the high-order
    rule is not called. *)
Theorem one_evaluation_suffices :
  let v0 := fst (quad_simple f a b prec) in
  let tol0 :=
    mag_max tol (mag_mul_2exp_si (acb_get_mag_lower v0) (- goal')) in
  el' <= 2 \/ mag_cmp (mag_radius v0) tol0 < 0 ->
  exists tr,
    acb_calc_integrate f a b goal tol deg_limit eval_limit depth_limit
      flags prec = Done (acb_add acb_zero v0 prec, tr) /\
    calls_of tr = [Ev_f (quad_wide a b prec) 0 prec].
Proof.
  intros v0 tol0 Hcase.
  pose proof (resolve_depth_limit_pos depth_limit prec) as Hdl.
  pose proof (resolve_eval_limit_pos eval_limit prec) as Hel.
  unfold acb_calc_integrate, acb_calc_integrate_fuel. cbv zeta.
  rewrite init_state_eq by assumption. fold v0. fold tol0.
  set (st0 := Build_state _ _ _ _ _ _ _ _ _ _).
  assert (Hs0 : slot st0 (depth st0 - 1) = Some (a, b, v0)).
  { unfold slot. simpl. rewrite !(rd_insert_eq _ 0) by arr_len. reflexivity. }
  assert (Hfuel : exists k, iteration_bound el' = S (S k)).
  { exists (Z.to_nat (2 * el') - 2)%nat. unfold iteration_bound. lia. }
  destruct Hfuel as [k ->].
  change (loop f goal' deg' el' dl' flags prec) with
    (run_loop f goal deg_limit eval_limit depth_limit flags prec).
  destruct (Z.leb_spec el' 2) as [Hle|Hgt].
  - set (st1 := stop_eval el' flags st0).
    assert (H01 : run_step f goal deg_limit eval_limit depth_limit flags prec st0
                  = Some st1).
    { unfold run_step.
      rewrite (step_top f goal' deg' el' dl' flags prec st0 a b v0 Hs0).
      simpl. destruct (Z.geb_spec 1 (el' - 1)); [reflexivity|lia]. }
    assert (H12 : run_step f goal deg_limit eval_limit depth_limit flags prec st1
                  = Some (accept prec st1 v0)).
    { apply (accept_step f goal deg_limit eval_limit depth_limit flags prec
               st1 a b v0); [exact Hs0|reflexivity|].
      unfold accept_test. simpl. by rewrite orb_true_r. }
    rewrite (loop_S f goal deg_limit eval_limit depth_limit flags prec st0 st1)
      by (simpl; auto; lia).
    rewrite (loop_S f goal deg_limit eval_limit depth_limit flags prec
               st1 (accept prec st1 v0)) by (simpl; auto; lia).
    rewrite loop_at_zero by reflexivity.
    eexists. split; [reflexivity|]. unfold final_trace. simpl.
    by destruct (verbose flags).
  - destruct Hcase as [Hle|Htol]; [lia|].
    assert (H01 : run_step f goal deg_limit eval_limit depth_limit flags prec st0
                  = Some (accept prec st0 v0)).
    { apply (accept_step f goal deg_limit eval_limit depth_limit flags prec
               st0 a b v0); [exact Hs0| |].
      - unfold budget_hit. simpl.
        destruct (Z.geb_spec 1 (el' - 1)); [lia|reflexivity].
      - apply accept_test_true. left. exact Htol. }
    rewrite (loop_S f goal deg_limit eval_limit depth_limit flags prec
               st0 (accept prec st0 v0)) by (simpl; auto; lia).
    rewrite loop_at_zero by reflexivity.
    eexists. split; [reflexivity|]. unfold final_trace. simpl.
    by destruct (verbose flags).
Qed.

(** X11: when the first record is not accepted as it is, its direct
    estimate [v0] is finite and the high-order rule succeeds on the
    whole interval, the call returns after that one call of the rule:
    the result is [0 + t] for the value [t] the rule returned, with its
    imaginary part set to zero when [v0] is real. *)
Theorem high_order_rule_at_once :
  let v0 := fst (quad_simple f a b prec) in
  let tol0 :=
    mag_max tol (mag_mul_2exp_si (acb_get_mag_lower v0) (- goal')) in
  let gl := acb_calc_integrate_gl_auto_deg f a b tol0 deg' flags prec in
  2 < el' ->
  0 <= mag_cmp (mag_radius v0) tol0 ->
  acb_contains_zero (acb_sub a b prec) = false ->
  acb_is_finite v0 = true ->
  0 < fst gl ->
  exists tr,
    acb_calc_integrate f a b goal tol deg_limit eval_limit depth_limit
      flags prec
    = Done (acb_add acb_zero
              (if acb_is_real v0 then set_imagref (snd gl) arb_zero
               else snd gl) prec, tr) /\
    calls_of tr =
      [Ev_f (quad_wide a b prec) 0 prec; Ev_gl a b tol0 deg' 0 prec].
Proof.
  intros v0 tol0 gl Hel Hrad Hcz Hfin Hpos.
  pose proof (resolve_depth_limit_pos depth_limit prec) as Hdl.
  unfold acb_calc_integrate, acb_calc_integrate_fuel. cbv zeta.
  rewrite init_state_eq by assumption. fold v0. fold tol0.
  set (st0 := Build_state _ _ _ _ _ _ _ _ _ _).
  assert (Hs0 : slot st0 (depth st0 - 1) = Some (a, b, v0)).
  { unfold slot. simpl. rewrite !(rd_insert_eq _ 0) by arr_len. reflexivity. }
  assert (Hfuel : exists k, iteration_bound el' = S k).
  { exists (Z.to_nat (2 * el') - 1)%nat. unfold iteration_bound. lia. }
  destruct Hfuel as [k ->].
  change (loop f goal' deg' el' dl' flags prec) with
    (run_loop f goal deg_limit eval_limit depth_limit flags prec).
  assert (H01 : run_step f goal deg_limit eval_limit depth_limit flags prec st0
                = Some (accept_gl f goal' deg' flags prec st0 a b v0)).
  { unfold run_step.
    rewrite (step_top f goal' deg' el' dl' flags prec st0 a b v0 Hs0).
    simpl. destruct (Z.geb_spec 1 (el' - 1)); [lia|].
    unfold accept_test. simpl. rewrite Hcz.
    destruct (Z.ltb_spec (mag_cmp (mag_radius v0) tol0) 0); [lia|]. simpl.
    rewrite Hfin. fold gl. simpl.
    destruct (Z.gtb_spec (fst gl) 0); [reflexivity|lia]. }
  rewrite (loop_S f goal deg_limit eval_limit depth_limit flags prec st0 _ k
             ltac:(simpl; lia) H01).
  rewrite loop_at_zero by (rewrite accept_gl_eq; reflexivity).
  rewrite accept_gl_eq. simpl. fold gl. rewrite Hfin. simpl.
  eexists. split; [reflexivity|]. unfold final_trace. simpl.
  by destruct (verbose flags).
Qed.

End ShortRuns.

(** ** The direct rule on its own *)

Section DirectRule.
Context {arf mag : Type} `{!BallOps arf mag} `{!AcbCalc arf mag}.
Context `{!BallSem arf mag} `{!BallSound arf mag}.
Variable f : acb_calc_func_t arf mag.
Implicit Types (a b : acb arf mag) (x y z : C).

Lemma on_segment_end x y : on_segment x y y.
Proof.
  exists 1%R. split; [lra|]. destruct y. unfold Cadd, Cscal, Csub. simpl.
  f_equal; ring.
Qed.

(** X12: the one ball [quad_simple] evaluates the integrand on contains
    the whole straight segment between the endpoints: both endpoints,
    the midpoint and every point between them, for all points the
    endpoint balls stand for. *)
Theorem wide_covers_segment a b prec x y :
  acb_contains a x -> acb_contains b y ->
  snd (quad_simple f a b prec) = [Ev_f (quad_wide a b prec) 0 prec] /\
  acb_contains (quad_wide a b prec) x /\
  acb_contains (quad_wide a b prec) y /\
  acb_contains (quad_wide a b prec) (Cmid x y) /\
  forall z, on_segment x y z -> acb_contains (quad_wide a b prec) z.
Proof.
  intros Ha Hb. split; [reflexivity|].
  pose proof (fun z => quad_wide_sound a b prec x y z Ha Hb) as Hw.
  repeat split; try apply Hw;
    auto using on_segment_start, on_segment_end, on_segment_mid;
    apply Hw; auto using on_segment_start, on_segment_end, on_segment_mid.
Qed.

(** X13: on the real line the direct rule alone encloses the integral:
    for an integrand that encloses [g], with primitive [G], and
    endpoints [p] in [a] and [q] in [b], its value contains
    [G q - G p]. *)
Theorem direct_rule_encloses_integral (G g : R -> R) a b prec (p q : R) :
  (forall r, derivable_pt_lim G r (g r)) ->
  integrand_sound f (fC_real g) ->
  acb_contains a (p, 0%R) -> acb_contains b (q, 0%R) ->
  acb_contains (fst (quad_simple f a b prec)) ((G q - G p)%R, 0%R).
Proof.
  intros HG Hf Ha Hb. rewrite <- (Int_real_line G g).
  apply (quad_simple_sound f (fC_real g) (Int_real G g) Hf
           (IntegralOf0 := real_integral G g HG)); assumption.
Qed.

End DirectRule.

(** ** The further properties on integer balls *)

Module ToyObservations.
Import Toy ToyRun ToyFacts ToyWitness.

#[local] Instance toy_real : RealLaws Z Z.
Proof.
  assert (Hz : forall e, tarb_mul_2exp_si (mk 0 0) e = mk 0 0).
  { intros e. unfold tarb_mul_2exp_si, cdiv, mk. cbn [arb_midref arb_radref].
    destruct (Z.leb_spec 0 e) as [He|He]; [reflexivity|].
    assert (0 < 2 ^ (- e)) by (apply Z.pow_pos_nonneg; lia).
    rewrite Z.div_0_l, Zmod_0_l by lia.
    rewrite Z.div_small by lia. reflexivity. }
  assert (Hr : forall z : tacb,
    acb_is_real z = true <-> acb_imagref z = mk 0 0).
  { intros [re [m r]]. simpl. rewrite andb_true_iff, !Z.eqb_eq. unfold mk.
    split; [intros [-> ->]; reflexivity|intros E; by inversion E]. }
  split.
  - intros z w E. simpl. by rewrite E.
  - intros z. reflexivity.
  - reflexivity.
  - intros x y prec Hx%Hr Hy%Hr. apply Hr. simpl. by rewrite Hx, Hy.
  - intros x y prec Hx%Hr Hy%Hr. apply Hr. simpl. by rewrite Hx, Hy.
  - intros x y prec Hx%Hr Hy%Hr. apply Hr. simpl. rewrite Hx, Hy.
    unfold tarb_add, tarb_mul, mk. simpl. f_equal; lia.
  - intros x e Hx%Hr. apply Hr. simpl. by rewrite Hx, Hz.
  - intros m d r Hm%Hr Hd%Hr. apply Hr. simpl. by rewrite Hm, Hd.
Qed.

Lemma f_id_real : integrand_real f_id.
Proof. intros w prec Hw. exact Hw. Qed.

Lemma toy_steps_2_5 : rtc toy_iter (toy_state 2) (toy_state 5).
Proof.
  do 3 (eapply rtc_l; [apply toy_iter_at; lia|]). apply rtc_refl.
Qed.


Lemma stopping_means_budget_witness :
  toy_reachable (toy_state 3) /\ stopping (toy_state 3) = true /\
  (7 - 1 <= eval (toy_state 3) \/ 4 - 1 <= depth_max (toy_state 3)).
Proof.
  assert (Hr : toy_reachable (toy_state 3)) by (apply toy_reachable_at; lia).
  split; [exact Hr|]. split; [reflexivity|].
  apply (stopping_means_budget f_id (pt 0) (pt 8) 10 1 1 7 4 0 8
           (toy_state 3) Hr). reflexivity.
Defined.

Lemma records_below_untouched_witness :
  toy_reachable (toy_state 1) /\ toy_iter (toy_state 1) (toy_state 2) /\
  0 <= 0 < depth (toy_state 1) - 1 /\
  slot (toy_state 2) 0 = slot (toy_state 1) 0.
Proof.
  assert (Hr : toy_reachable (toy_state 1)) by (apply toy_reachable_at; lia).
  assert (Hit : toy_iter (toy_state 1) (toy_state 2)) by (apply toy_iter_at; lia).
  assert (Hi : 0 <= 0 < depth (toy_state 1) - 1) by (vm_compute; split; congruence).
  destruct (records_below_untouched f_id (pt 0) (pt 8) 10 1 1 7 4 0 8
              (toy_state 1) (toy_state 2) Hr Hit) as (_ & _ & _ & H).
  split; [exact Hr|]. split; [exact Hit|]. split; [exact Hi|].
  apply H. exact Hi.
Defined.

Lemma eval_counts_evaluations_witness :
  toy_reachable (toy_state 4) /\
  eval (toy_state 4) = trace_evals f_id (trace (toy_state 4)) /\
  Z.of_nat (length (List.filter is_Ev_f (trace (toy_state 4))))
    <= Z.min (eval (toy_state 4)) 7.
Proof.
  assert (Hr : toy_reachable (toy_state 4)) by (apply toy_reachable_at; lia).
  destruct (eval_counts_evaluations f_id (pt 0) (pt 8) 10 1 1 7 4 0 8
              (toy_state 4) Hr) as [H1 H2].
  split; [exact Hr|]. split; [exact H1|]. apply H2. exact toy_gl_contract.
Defined.

Lemma events_as_expected_witness :
  toy_reachable (toy_state 3) /\
  Forall (event_expected 1 0 8) (trace (toy_state 3)) /\
  length (List.filter is_Ev_printf (trace (toy_state 3))) = 0%nat.
Proof.
  assert (Hr : toy_reachable (toy_state 3)) by (apply toy_reachable_at; lia).
  destruct (events_as_expected f_id (pt 0) (pt 8) 10 1 1 7 4 0 8
              (toy_state 3) Hr) as (H1 & H2 & _).
  split; [exact Hr|]. split; [exact H1|exact H2].
Defined.

Lemma records_are_direct_estimates_witness :
  toy_reachable (toy_state 2) /\ 0 <= 1 < depth (toy_state 2) /\
  slot (toy_state 2) 1 = Some (pt 4, pt 6, mkc (mk 10 2) (mk 0 0)) /\
  mkc (mk 10 2) (mk 0 0) = fst (quad_simple f_id (pt 4) (pt 6) 8).
Proof.
  assert (Hr : toy_reachable (toy_state 2)) by (apply toy_reachable_at; lia).
  assert (Hi : 0 <= 1 < depth (toy_state 2)) by (vm_compute; split; congruence).
  assert (Hs : slot (toy_state 2) 1 = Some (pt 4, pt 6, mkc (mk 10 2) (mk 0 0)))
    by (vm_compute; reflexivity).
  split; [exact Hr|]. split; [exact Hi|]. split; [exact Hs|].
  apply (records_are_direct_estimates f_id (pt 0) (pt 8) 10 1 1 7 4 0 8
           (toy_state 2) Hr 1 (pt 4) (pt 6) (mkc (mk 10 2) (mk 0 0)) Hi Hs).
Defined.

Lemma summary_line_is_accurate_witness :
  verbose 1 = true /\
  exists res tr dm ev,
    acb_calc_integrate f_id (pt 0) (pt 8) 10 1 1 7 4 1 8
    = Done (res, tr ++ [Ev_printf "depth %wd/%wd, eval %wd/%wd\n"
                          [dm; 4; ev; 7]]) /\
    ev = trace_evals f_id tr /\ 1 <= dm <= 3.
Proof.
  assert (Hv : verbose 1 = true) by reflexivity.
  split; [exact Hv|].
  apply (summary_line_is_accurate f_id (pt 0) (pt 8) 10 1 1 7 4 1 8 Hv).
Defined.

Lemma real_in_real_out_witness :
  integrand_real f_id /\
  acb_is_real (pt 0) = true /\ acb_is_real (pt 8) = true /\
  exists res tr,
    acb_calc_integrate f_id (pt 0) (pt 8) 10 1 1 7 4 0 8 = Done (res, tr) /\
    acb_is_real res = true.
Proof.
  split; [exact f_id_real|]. split; [reflexivity|]. split; [reflexivity|].
  apply (real_in_real_out f_id f_id_real (pt 0) (pt 8) 10 1 1 7 4 0 8
           eq_refl eq_refl).
Defined.

Lemma flags_do_not_change_the_result_witness :
  (forall x y t d p,
     acb_calc_integrate_gl_auto_deg f_id x y t d 0 p
     = acb_calc_integrate_gl_auto_deg f_id x y t d 1 p) /\
  exists res tr1 tr2,
    acb_calc_integrate f_id (pt 0) (pt 8) 10 1 0 0 0 0 8 = Done (res, tr1) /\
    acb_calc_integrate f_id (pt 0) (pt 8) 10 1 0 0 0 1 8 = Done (res, tr2) /\
    calls_of tr1 = calls_of tr2.
Proof.
  assert (Hgl : forall x y t d p,
     acb_calc_integrate_gl_auto_deg f_id x y t d 0 p
     = acb_calc_integrate_gl_auto_deg f_id x y t d 1 p)
    by (intros; reflexivity).
  split; [exact Hgl|].
  apply (flags_do_not_change_the_result f_id 0 1 Hgl (pt 0) (pt 8) 10 1 0 0 0 8).
Defined.

Lemma one_evaluation_suffices_witness :
  resolve_eval_limit 2 8 <= 2 /\
  mag_cmp (mag_radius (fst (quad_simple f_id (pt 0) (pt 8) 8)))
    (mag_max 100
       (mag_mul_2exp_si
          (acb_get_mag_lower (fst (quad_simple f_id (pt 0) (pt 8) 8)))
          (- resolve_goal 10))) < 0 /\
  (exists tr,
     acb_calc_integrate f_id (pt 0) (pt 8) 10 1 1 2 4 0 8
       = Done (acb_add acb_zero (fst (quad_simple f_id (pt 0) (pt 8) 8)) 8, tr) /\
     calls_of tr = [Ev_f (quad_wide (pt 0) (pt 8) 8) 0 8]) /\
  (exists tr,
     acb_calc_integrate f_id (pt 0) (pt 8) 10 100 1 7 4 0 8
       = Done (acb_add acb_zero (fst (quad_simple f_id (pt 0) (pt 8) 8)) 8, tr) /\
     calls_of tr = [Ev_f (quad_wide (pt 0) (pt 8) 8) 0 8]).
Proof.
  assert (H1 : resolve_eval_limit 2 8 <= 2) by (vm_compute; congruence).
  assert (H2 : mag_cmp (mag_radius (fst (quad_simple f_id (pt 0) (pt 8) 8)))
    (mag_max 100
       (mag_mul_2exp_si
          (acb_get_mag_lower (fst (quad_simple f_id (pt 0) (pt 8) 8)))
          (- resolve_goal 10))) < 0) by (vm_compute; reflexivity).
  split; [exact H1|]. split; [exact H2|]. split.
  - apply (one_evaluation_suffices f_id (pt 0) (pt 8) 10 1 1 2 4 0 8).
    left. exact H1.
  - apply (one_evaluation_suffices f_id (pt 0) (pt 8) 10 100 1 7 4 0 8).
    right. exact H2.
Defined.

Lemma high_order_rule_at_once_witness :
  2 < resolve_eval_limit 0 8 /\
  acb_contains_zero (acb_sub (pt 0) (pt 8) 8) = false /\
  acb_is_finite (fst (quad_simple f_id (pt 0) (pt 8) 8)) = true /\
  exists tr,
    acb_calc_integrate f_id (pt 0) (pt 8) 10 1 0 0 0 0 8
    = Done (acb_add acb_zero
              (set_imagref (snd (toy_gl f_id (pt 0) (pt 8) 1 15 0 8)) arb_zero)
              8, tr) /\
    calls_of tr =
      [Ev_f (quad_wide (pt 0) (pt 8) 8) 0 8; Ev_gl (pt 0) (pt 8) 1 15 0 8].
Proof.
  assert (H1 : 2 < resolve_eval_limit 0 8) by (vm_compute; reflexivity).
  assert (H2 : acb_contains_zero (acb_sub (pt 0) (pt 8) 8) = false)
    by reflexivity.
  assert (H3 : acb_is_finite (fst (quad_simple f_id (pt 0) (pt 8) 8)) = true)
    by reflexivity.
  split; [exact H1|]. split; [exact H2|]. split; [exact H3|].
  destruct (high_order_rule_at_once f_id (pt 0) (pt 8) 10 1 0 0 0 0 8 H1)
    as (tr & E1 & E2).
  - vm_compute. congruence.
  - exact H2.
  - exact H3.
  - vm_compute. reflexivity.
  - exists tr. split; [exact E1|exact E2].
Defined.

Lemma wide_covers_segment_witness :
  acb_contains (pt 0) (0%R, 0%R) /\ acb_contains (pt 8) (8%R, 0%R) /\
  acb_contains (quad_wide (pt 0) (pt 8) 8) (0%R, 0%R) /\
  acb_contains (quad_wide (pt 0) (pt 8) 8) (8%R, 0%R) /\
  acb_contains (quad_wide (pt 0) (pt 8) 8) (Cmid (0%R, 0%R) (8%R, 0%R)).
Proof.
  destruct (wide_covers_segment f_id (pt 0) (pt 8) 8 (0%R, 0%R) (8%R, 0%R)
              (pt_contains 0) (pt_contains 8)) as (_ & H1 & H2 & H3 & _).
  split; [exact (pt_contains 0)|]. split; [exact (pt_contains 8)|].
  split; [exact H1|]. split; [exact H2|exact H3].
Defined.

Lemma direct_rule_encloses_integral_witness :
  (forall r, derivable_pt_lim half_sq r r) /\
  integrand_sound f_re (fC_real (fun r => r)) /\
  acb_contains (pt 0) (0%R, 0%R) /\ acb_contains (pt 8) (8%R, 0%R) /\
  acb_contains (fst (quad_simple f_re (pt 0) (pt 8) 8))
    ((half_sq 8 - half_sq 0)%R, 0%R).
Proof.
  split; [exact half_sq_prim|]. split; [exact f_re_sound|].
  split; [exact (pt_contains 0)|]. split; [exact (pt_contains 8)|].
  apply (direct_rule_encloses_integral f_re half_sq (fun r => r)
           (pt 0) (pt 8) 8 0%R 8%R half_sq_prim f_re_sound
           (pt_contains 0) (pt_contains 8)).
Defined.

End ToyObservations.
